(** * SP-1200: the bitcrusher worklet and the audio engine

    A shallow embedding of [public/worklets/bitcrusher.js] (the render-path
    processor) and of the [AudioEngine] class (the control-path engine),
    with the properties of the specification stated and settled on them.

    Numbers.  A JavaScript number is modelled as a real ([Num r]) or [NaN];
    arithmetic is exact on reals (the rounding of IEEE doubles and of
    [Float32Array] stores is not modelled) and [NaN] is contagious, as in
    JavaScript.  In the processor the one operation that rounds at a whole
    bit depth from 1 to 16 is the sum of a sample and 1: the step is a
    power of two there and the other operations of line 67 are exact.  A
    statement about the value of the quantizer is therefore made for whole
    bit depths and says no more than holds on either side of that
    rounding (which grid point a sample within one rounding error below a
    grid point goes to is left open).  [NaN] is what the arithmetic of the processor makes of
    [undefined], the result of reading a typed array outside its bounds.
    Integer-valued quantities that steer control flow (the sample counter,
    the truncated reduction factor, array indices) are [Z] or [nat]. *)

From stdpp Require Import base list gmap strings.
From Stdlib Require Import Reals Lra Lia ZArith Epsilon.

Local Open Scope R_scope.

(** ** JavaScript numbers *)

Inductive number : Type :=
| Num (r : R)
| NaN.

Definition lift1 (f : R -> R) (a : number) : number :=
  match a with
  | Num x => Num (f x)
  | NaN => NaN
  end.

Definition lift2 (f : R -> R -> R) (a b : number) : number :=
  match a, b with
  | Num x, Num y => Num (f x y)
  | _, _ => NaN
  end.

Definition nadd : number -> number -> number := lift2 Rplus.
Definition nsub : number -> number -> number := lift2 Rminus.
Definition nmul : number -> number -> number := lift2 Rmult.
Definition ndiv : number -> number -> number := lift2 Rdiv.

(** [Math.floor] on a real: the largest integer not above it. *)
Definition floorZ (x : R) : Z := Int_part x.

Definition Math_floor : number -> number := lift1 (fun x => IZR (floorZ x)).
Definition Math_max : number -> number -> number := lift2 Rmax.
Definition Math_min : number -> number -> number := lift2 Rmin.

(** [Math.pow(2, b)], for every real exponent. *)
Definition Math_pow2 (b : R) : R := Rpower 2 b.

(** A [Float32Array]; reading outside the bounds yields [undefined], which
    every arithmetic operator turns into [NaN]; writing outside the bounds
    is ignored (as stdpp's list insert does). *)
Abbreviation Float32Array := (list number).

Definition read (a : Float32Array) (i : nat) : number :=
  match a !! i with
  | Some x => x
  | None => NaN
  end.

(** What a call either returns or throws. *)
Inductive Completion (A : Type) : Type :=
| Normal (a : A)
| TypeError.
Arguments Normal {A} a.
Arguments TypeError {A}.

(** ** The bitcrusher processor (public/worklets/bitcrusher.js) *)

Module Bitcrusher.

(** [static get parameterDescriptors()] *)
Record ParameterDescriptor := {
  name : string;
  defaultValue : R;
  minValue : R;
  maxValue : R
}.

Definition parameterDescriptors : list ParameterDescriptor :=
  [ {| name := "bitDepth"; defaultValue := 12; minValue := 1; maxValue := 16 |};
    {| name := "reduction"; defaultValue := 1; minValue := 1; maxValue := 32 |};
    {| name := "mix"; defaultValue := 1; minValue := 0; maxValue := 1 |} ].

(** The fields of a processor instance: one pair for the whole instance. *)
Record Processor := {
  _lastSample : number;
  _sampleCounter : Z
}.

Definition constructor : Processor :=
  {| _lastSample := Num 0; _sampleCounter := 0 |}.

(** The k-rate parameters of one call: [parameters.bitDepth[0]],
    [parameters.reduction[0]], [parameters.mix[0]]. *)
Record Parameters := {
  bitDepth : R;
  reduction : R;
  mix : R
}.

Definition levels (bitDepth : R) : R := Math_pow2 bitDepth.
Definition step (bitDepth : R) : R := 2 / levels bitDepth.

(** Lines 67-69: quantize, then clamp. *)
Definition quantize (step : R) (x : number) : number :=
  let q := nsub (nmul (Math_floor (ndiv (nadd x (Num 1)) (Num step))) (Num step)) (Num 1) in
  Math_max (Num (-1)) (Math_min (Num 1) q).

(** Lines 61-73: the body of the loop over the frames of one channel. *)
Definition sample_body (reduction : Z) (step mix : R) (inputChannel : Float32Array)
    (i : nat) (this : Processor) (outputChannel : Float32Array)
    : Processor * Float32Array :=
  let counter := (_sampleCounter this + 1)%Z in
  let this1 :=
    if (counter >=? reduction)%Z
    then {| _lastSample := quantize step (read inputChannel i); _sampleCounter := 0 |}
    else {| _lastSample := _lastSample this; _sampleCounter := counter |} in
  (this1,
   <[i := nadd (nmul (read inputChannel i) (Num (1 - mix)))
               (nmul (_lastSample this1) (Num mix))]> outputChannel).

(** [for (let i = 0; i < outputChannel.length; i++)]: [todo] is the number
    of iterations left, [outputChannel.length - i]. *)
Fixpoint sample_loop (reduction : Z) (step mix : R) (inputChannel : Float32Array)
    (todo i : nat) (this : Processor) (outputChannel : Float32Array)
    : Processor * Float32Array :=
  match todo with
  | O => (this, outputChannel)
  | S todo' =>
      let '(this1, outputChannel1) :=
        sample_body reduction step mix inputChannel i this outputChannel in
      sample_loop reduction step mix inputChannel todo' (S i) this1 outputChannel1
  end.

(** [for (let channel = 0; channel < output.length; channel++)]: a
    channel the input does not have is skipped ([continue]). *)
Fixpoint channel_loop (reduction : Z) (step mix : R) (input : list Float32Array)
    (todo channel : nat) (this : Processor) (output : list Float32Array)
    : Processor * list Float32Array :=
  match todo with
  | O => (this, output)
  | S todo' =>
      match input !! channel, output !! channel with
      | Some inputChannel, Some outputChannel =>
          let '(this1, outputChannel1) :=
            sample_loop reduction step mix inputChannel
              (length outputChannel) 0 this outputChannel in
          channel_loop reduction step mix input todo' (S channel) this1
            (<[channel := outputChannel1]> output)
      | _, _ => channel_loop reduction step mix input todo' (S channel) this output
      end
  end.

(** [process(inputs, outputs, parameters)]: the value returned, the
    instance fields and the output buffers after the call.  [outputs[0]]
    is read first, and its [length] only once the input is known to have
    channels: that is where an absent output would throw. *)
Definition process (this : Processor) (inputs outputs : list (list Float32Array))
    (parameters : Parameters)
    : Completion (bool * Processor * list (list Float32Array)) :=
  match inputs !! 0%nat with
  | None | Some [] => Normal (true, this, outputs)
  | Some input =>
      let reduction := floorZ (reduction parameters) in
      let step := step (bitDepth parameters) in
      match outputs !! 0%nat with
      | None => TypeError
      | Some output =>
          let '(this1, output1) :=
            channel_loop reduction step (mix parameters) input
              (length output) 0 this output in
          Normal (true, this1, <[0%nat := output1]> outputs)
      end
  end.

End Bitcrusher.

(** ** The processing contract in the words of the specification *)

Module Contract.

(** The persistent decimation state of the specification. *)
Record Decimation := {
  counter : Z;
  heldSample : number
}.

(** [clamp(v, lo, hi)] *)
Definition clamp (v : number) (lo hi : R) : number :=
  match v with
  | Num r => Num (if Rlt_dec r lo then lo else if Rlt_dec hi r then hi else r)
  | NaN => NaN
  end.

(** Steps 1 to 4 of the algorithm, for one sample [x]. *)
Definition per_sample (bitDepth : R) (reductionFactor : Z) (mix : R)
    (s : Decimation) (x : number) : Decimation * number :=
  let levels := Rpower 2 bitDepth in
  let step := 2 / levels in
  let n := (counter s + 1)%Z in
  let s' :=
    if Z_ge_dec n reductionFactor
    then {| counter := 0;
            heldSample :=
              clamp (nsub (nmul (Math_floor (ndiv (nadd x (Num 1)) (Num step)))
                                (Num step)) (Num 1)) (-1) 1 |}
    else {| counter := n; heldSample := heldSample s |} in
  (s', nadd (nmul x (Num (1 - mix))) (nmul (heldSample s') (Num mix))).

(** The samples of one channel, in order. *)
Fixpoint per_channel (bitDepth : R) (reductionFactor : Z) (mix : R)
    (s : Decimation) (xs : Float32Array) : Decimation * Float32Array :=
  match xs with
  | [] => (s, [])
  | x :: xs' =>
      let '(s1, y) := per_sample bitDepth reductionFactor mix s x in
      let '(s2, ys) := per_channel bitDepth reductionFactor mix s1 xs' in
      (s2, y :: ys)
  end.

(** The channels of one block, in channel order. *)
Fixpoint per_block (bitDepth : R) (reductionFactor : Z) (mix : R)
    (s : Decimation) (input : list Float32Array) : Decimation * list Float32Array :=
  match input with
  | [] => (s, [])
  | xs :: input' =>
      let '(s1, ys) := per_channel bitDepth reductionFactor mix s xs in
      let '(s2, yss) := per_block bitDepth reductionFactor mix s1 input' in
      (s2, ys :: yss)
  end.

End Contract.

(** The processor fields as the decimation state of the specification. *)
Definition decimation_of (this : Bitcrusher.Processor) : Contract.Decimation :=
  {| Contract.counter := Bitcrusher._sampleCounter this;
     Contract.heldSample := Bitcrusher._lastSample this |}.

Definition processor_of (s : Contract.Decimation) : Bitcrusher.Processor :=
  {| Bitcrusher._lastSample := Contract.heldSample s;
     Bitcrusher._sampleCounter := Contract.counter s |}.

(** A block as the host delivers it: as many output channels as input
    channels, every channel pair with the same number of frames. *)
Definition same_shape (input output : list Float32Array) : Prop :=
  Forall2 (fun ic oc : Float32Array => length ic = length oc) input output.


(** ** Rendering: the host around [process] *)

(** A zero-filled buffer of [n] frames. *)
Definition silent (n : nat) : Float32Array := replicate n (Num 0).

(** One render quantum of a node with one input and one output: the host
    hands [process] the input block and a zero-filled output block of the
    same shape, and takes the output block back. *)
Definition render (this : Bitcrusher.Processor) (parameters : Bitcrusher.Parameters)
    (input : list Float32Array) : Completion (Bitcrusher.Processor * list Float32Array) :=
  match Bitcrusher.process this [input]
          [map (fun ch : Float32Array => silent (length ch)) input] parameters with
  | Normal (_, this1, outputs1) => Normal (this1, hd [] outputs1)
  | TypeError => TypeError
  end.

(** Consecutive render quanta on one processor instance. *)
Fixpoint render_blocks (this : Bitcrusher.Processor) (parameters : Bitcrusher.Parameters)
    (blocks : list (list Float32Array))
    : Completion (Bitcrusher.Processor * list (list Float32Array)) :=
  match blocks with
  | [] => Normal (this, [])
  | input :: blocks' =>
      match render this parameters input with
      | Normal (this1, output) =>
          match render_blocks this1 parameters blocks' with
          | Normal (this2, outputs) => Normal (this2, output :: outputs)
          | TypeError => TypeError
          end
      | TypeError => TypeError
      end
  end.

(** The samples of channel [c] over consecutive blocks. *)
Definition channel_stream (c : nat) (blocks : list (list Float32Array)) : Float32Array :=
  concat (map (fun block : list Float32Array => default [] (block !! c)) blocks).

(** All samples in the order [process] visits them: block after block,
    within a block channel after channel. *)
Definition processing_order (blocks : list (list Float32Array)) : Float32Array :=
  concat (concat blocks).

Definition is_number (x : number) : Prop := exists r : R, x = Num r.

(** The value at position [S i] of a stream differs from the one before. *)
Definition changes_at (ys : Float32Array) (i : nat) : Prop :=
  exists a b : number, ys !! i = Some a /\ ys !! S i = Some b /\ a <> b.

(** Two changes of the stream are at least [n] samples apart. *)
Definition changes_at_most_once_every (n : Z) (ys : Float32Array) : Prop :=
  forall i j : nat, (i < j)%nat -> changes_at ys i -> changes_at ys j ->
    (n <= Z.of_nat (j - i))%Z.

(** ** The quantization grid *)

(** The [k]-th point of the uniform grid that starts at -1 and advances by
    the quantization step. *)
Definition grid_point (bitDepth : R) (k : Z) : R :=
  -1 + IZR k * Bitcrusher.step bitDepth.

(** [y] is one of the grid points numbered 0 to 2^b, for an integer bit
    depth [b]. *)
Definition on_grid (b : Z) (y : number) : Prop :=
  exists k : Z, (0 <= k <= 2 ^ b)%Z /\ y = Num (grid_point (IZR b) k).

(** ** Scenario data *)

(** The ramp from -1 to 1 over 8 samples: x_i = -1 + 2 i / 7. *)
Definition ramp8 : Float32Array :=
  [Num (-1); Num (-5/7); Num (-3/7); Num (-1/7);
   Num (1/7); Num (3/7); Num (5/7); Num 1].

(** The ramp that starts at -1 and rises by a quarter per sample, which
    reaches 1 at the sample after the eighth: x_i = -1 + i / 4. *)
Definition ramp8_open : Float32Array :=
  [Num (-1); Num (-3/4); Num (-1/2); Num (-1/4);
   Num 0; Num (1/4); Num (1/2); Num (3/4)].


(** The output of the scenario as the specification words it: two distinct
    values, each taken by four of the eight samples (in whatever order). *)
Definition two_values_held_four_each (ys : Float32Array) : Prop :=
  exists a b : number, a <> b /\ ys ≡ₚ replicate 4 a ++ replicate 4 b.

(** A stereo block of one render quantum of 128 frames: channel 0 carries
    1 throughout and channel 1 carries -1 throughout. *)
Definition quantum_block : list Float32Array :=
  [replicate 128 (Num 1); replicate 128 (Num (-1))].

(** ** The numbers of the control path

    The engine and the store take any JavaScript number: a number of the
    processor's model (a real or [NaN]) or an infinity.  Arithmetic is
    exact on reals; a zero is the positive zero. *)

Inductive double : Type :=
| Val (n : number)
| PosInfinity
| NegInfinity.

(** Unary minus. *)
Definition dopp (a : double) : double :=
  match a with
  | Val n => Val (nsub (Num 0) n)
  | PosInfinity => NegInfinity
  | NegInfinity => PosInfinity
  end.

(** An infinity taken with the sign of a real; [NaN] for the real 0. *)
Definition signed (infinity : double) (r : R) : double :=
  if Req_dec_T r 0 then Val NaN
  else if Rlt_dec 0 r then infinity
  else dopp infinity.

(** [a + b] *)
Definition dadd (a b : double) : double :=
  match a, b with
  | Val x, Val y => Val (nadd x y)
  | Val NaN, _ | _, Val NaN => Val NaN
  | Val (Num _), infinity | infinity, Val (Num _) => infinity
  | PosInfinity, PosInfinity => PosInfinity
  | NegInfinity, NegInfinity => NegInfinity
  | PosInfinity, NegInfinity | NegInfinity, PosInfinity => Val NaN
  end.

(** [a * b] *)
Definition dmul (a b : double) : double :=
  match a, b with
  | Val x, Val y => Val (nmul x y)
  | Val NaN, _ | _, Val NaN => Val NaN
  | Val (Num r), infinity | infinity, Val (Num r) => signed infinity r
  | PosInfinity, PosInfinity | NegInfinity, NegInfinity => PosInfinity
  | PosInfinity, NegInfinity | NegInfinity, PosInfinity => NegInfinity
  end.

(** [a / b] *)
Definition ddiv (a b : double) : double :=
  match a, b with
  | Val (Num x), Val (Num y) =>
      if Req_dec_T y 0 then signed PosInfinity x else Val (Num (x / y))
  | Val NaN, _ | _, Val NaN => Val NaN
  | Val (Num _), _ => Val (Num 0)
  | infinity, Val (Num r) => if Req_dec_T r 0 then infinity else signed infinity r
  | _, _ => Val NaN
  end.

(** The finite 32-bit floats: the numbers m * 2^e with |m| < 2^24 and
    -149 <= e <= 104. *)
Definition is_float32 (x : R) : Prop :=
  exists m e : Z,
    (Z.abs m < 2 ^ 24)%Z /\ (-149 <= e <= 104)%Z /\ x = IZR m * powerRZ 2 e.

(** All of them, as a list: they are finitely many. *)
Definition float32_values : list R :=
  m ← seqZ (- 2 ^ 24 + 1) (2 ^ 25 - 1);
  e ← seqZ (-149) 254;
  [IZR m * powerRZ 2 e].

(** A finite float nearest to a real. *)
Definition nearest_float32 (r x : R) : Prop :=
  is_float32 x /\ forall y : R, is_float32 y -> Rabs (x - r) <= Rabs (y - r).

(** The rounding of a real to a 32-bit float: a nearest finite float.
    Where two floats are equally near, IEEE 754 takes the one with the
    even significand; the model leaves that choice open. *)
Definition fround (r : R) : R := epsilon (inhabits 0) (nearest_float32 r).

(** The bound of the Web IDL type [float]: a real converts to a finite
    32-bit float when its magnitude is below the midpoint of the largest
    float, 2^128 - 2^104, and 2^128. *)
Definition float_limit : R := IZR (2 ^ 128 - 2 ^ 103).

(** The conversion of an argument of type [float]: the float the real
    rounds to, and [None] where the method throws a [TypeError], which is
    for [NaN], for the infinities and for the reals that round beyond the
    largest finite float. *)
Definition to_float (v : double) : option R :=
  match v with
  | Val (Num r) => if Rlt_dec (Rabs r) float_limit then Some (fround r) else None
  | _ => None
  end.

(** ** The Web Audio objects the engine holds *)

Module WebAudio.

(** The name of the exception a host operation throws or rejects with. *)
Abbreviation DOMException := string.

(** The outcome of a host operation that may throw (or of a promise). *)
Inductive Attempt (A : Type) : Type :=
| Fulfilled (a : A)
| Rejected (e : DOMException).
Arguments Fulfilled {A} a.
Arguments Rejected {A} e.

(** The events on the timeline of an [AudioParam]. *)
Inductive AutomationEvent : Type :=
| SetValue (value time : R)
| LinearRamp (value endTime : R).

Definition event_time (ev : AutomationEvent) : R :=
  match ev with
  | SetValue _ t => t
  | LinearRamp _ t => t
  end.

(** An [AudioParam]: the value the control context reads, and the
    scheduled events in the order they were inserted. *)
Record AudioParam := {
  value : R;
  events : list AutomationEvent
}.

(** [cancelScheduledValues(t)]: drops the events at or after [t]. *)
Fixpoint cancel (t : R) (evs : list AutomationEvent) : list AutomationEvent :=
  match evs with
  | [] => []
  | ev :: evs' =>
      if Rlt_dec (event_time ev) t then ev :: cancel t evs' else cancel t evs'
  end.

Definition cancelScheduledValues (t : R) (p : AudioParam) : AudioParam :=
  {| value := value p; events := cancel t (events p) |}.

(** [setValueAtTime(v, t)] for a [v] that is a float already (the engine
    passes the parameter's own [value]). *)
Definition setValueAtTime (v t : R) (p : AudioParam) : AudioParam :=
  {| value := value p; events := events p ++ [SetValue v t] |}.

(** [linearRampToValueAtTime(v, t)]: throws a [TypeError] for a [v] that
    is no finite float. *)
Definition linearRampToValueAtTime (v : double) (t : R) (p : AudioParam)
    : Completion AudioParam :=
  match to_float v with
  | Some x => Normal {| value := value p; events := events p ++ [LinearRamp x t] |}
  | None => TypeError
  end.

(** [p.value = v] at context time [t]: throws a [TypeError] for a [v]
    that is no finite float; otherwise assigns the value and calls
    [setValueAtTime(v, t)]. *)
Definition set_value (v : double) (t : R) (p : AudioParam) : Completion AudioParam :=
  match to_float v with
  | Some x => Normal {| value := x; events := events p ++ [SetValue x t] |}
  | None => TypeError
  end.

(** The value the parameter is scheduled to come to rest at: the target
    of the ramp that ends its timeline. *)
Definition ramp_target (p : AudioParam) : option R :=
  match last (events p) with
  | Some (LinearRamp v _) => Some v
  | _ => None
  end.

(** Decoded audio. *)
Record AudioBuffer := {
  sampleRate : R;
  channelData : list Float32Array
}.

(** A started [AudioBufferSourceNode], connected to the bitcrusher. *)
Record AudioBufferSourceNode := {
  buffer : AudioBuffer;
  startTime : R
}.

Inductive AudioContextState : Type :=
| suspended
| running.

(** An [AudioContext]: its state and clock, the sources started on it,
    and its decoder ([decodeAudioData] rejects what is not audio data). *)
Record AudioContext := {
  state : AudioContextState;
  currentTime : R;
  sources : list AudioBufferSourceNode;
  decodeAudioData : list Byte.byte -> option AudioBuffer
}.

(** The same context in another state. *)
Definition in_state (s : AudioContextState) (c : AudioContext) : AudioContext :=
  {| state := s; currentTime := currentTime c; sources := sources c;
     decodeAudioData := decodeAudioData c |}.

Record GainNode := {
  gain : AudioParam
}.

(** An [AudioWorkletNode]: its [parameters] map. *)
Record AudioWorkletNode := {
  parameters : gmap string AudioParam
}.

(** [new AudioWorkletNode(ctx, 'bitcrusher-processor')]: one parameter per
    descriptor of the processor, at its default value. *)
Definition bitcrusher_node : AudioWorkletNode :=
  {| parameters :=
       list_to_map
         (map (fun d : Bitcrusher.ParameterDescriptor =>
                 (Bitcrusher.name d,
                  {| value := Bitcrusher.defaultValue d; events := [] |}))
              Bitcrusher.parameterDescriptors) |}.

(** [ctx.createGain()] *)
Definition createGain : GainNode :=
  {| gain := {| value := 1; events := [] |} |}.

(** What the host does when asked: the outcome of [new AudioContext()],
    of [audioWorklet.addModule(url)], of [new AudioWorkletNode(...)] and
    of [ctx.resume()] on a suspended context. *)
Record Host := {
  newAudioContext : Attempt AudioContext;
  addModule : Attempt unit;
  newAudioWorkletNode : Attempt AudioWorkletNode;
  resumes : Attempt unit
}.

(** The first step of starting audio that fails on a host, if one does. *)
Definition failure (host : Host) : option DOMException :=
  match newAudioContext host with
  | Rejected e => Some e
  | Fulfilled _ =>
      match addModule host with
      | Rejected e => Some e
      | Fulfilled _ =>
          match newAudioWorkletNode host with
          | Rejected e => Some e
          | Fulfilled _ => None
          end
      end
  end.

End WebAudio.

(** ** The audio engine (class AudioEngine)

    The values of the state are the numbers a caller hands over, [NaN]
    and the infinities included.  A method returns the engine as the call
    leaves it together with the error it threw or rejected with, if any:
    the assignments made before a throw stay made.  [console] output is
    not modelled, nor are the connections of the graph, which are made
    once in [init] and never read.  An [async] method is modelled at the
    moment its promise settles. *)

Module AudioEngine.

Import WebAudio.

Record AudioEngineState := {
  masterVolume : double;
  bitDepth : double;
  reduction : double;
  mix : double
}.

(** [Partial<AudioEngineState>]: the fields an object names. *)
Record PartialState := {
  masterVolume_opt : option double;
  bitDepth_opt : option double;
  reduction_opt : option double;
  mix_opt : option double
}.

(** A file dropped on a pad: its name and the bytes [arrayBuffer()] reads. *)
Record File := {
  name : string;
  arrayBuffer : list Byte.byte
}.

(** A subscribed callback, by identity. *)
Abbreviation StateSubscriber := nat.

(** What the engine throws: its own error, or the one the host threw. *)
Inductive Error : Type :=
| NotInitialized
| HostError (e : DOMException).

(** The rejection of [decodeAudioData] on bytes that are not audio data. *)
Definition EncodingError : Error := HostError "EncodingError".

(** The [TypeError] of an [AudioParam] handed a number that is no finite
    float. *)
Definition NotAFloat : Error := HostError "TypeError".

(** The private fields of the class. *)
Record Engine := {
  ctx : option AudioContext;
  masterGain : option GainNode;
  bitcrusherNode : option AudioWorkletNode;
  samples : gmap Z AudioBuffer;
  isInitialized : bool;
  stateSubscribers : list StateSubscriber;
  state : AudioEngineState
}.

(** [new AudioEngine()] *)
Definition new : Engine :=
  {| ctx := None;
     masterGain := None;
     bitcrusherNode := None;
     samples := ∅;
     isInitialized := false;
     stateSubscribers := [];
     state := {| masterVolume := Val (Num (8 / 10)); bitDepth := Val (Num 12);
                 reduction := Val (Num 1); mix := Val (Num 1) |} |}.

Definition with_ctx (c : option AudioContext) (this : Engine) : Engine :=
  {| ctx := c; masterGain := masterGain this; bitcrusherNode := bitcrusherNode this;
     samples := samples this; isInitialized := isInitialized this;
     stateSubscribers := stateSubscribers this; state := state this |}.

Definition with_masterGain (g : option GainNode) (this : Engine) : Engine :=
  {| ctx := ctx this; masterGain := g; bitcrusherNode := bitcrusherNode this;
     samples := samples this; isInitialized := isInitialized this;
     stateSubscribers := stateSubscribers this; state := state this |}.

Definition with_bitcrusherNode (n : option AudioWorkletNode) (this : Engine) : Engine :=
  {| ctx := ctx this; masterGain := masterGain this; bitcrusherNode := n;
     samples := samples this; isInitialized := isInitialized this;
     stateSubscribers := stateSubscribers this; state := state this |}.

Definition with_samples (m : gmap Z AudioBuffer) (this : Engine) : Engine :=
  {| ctx := ctx this; masterGain := masterGain this; bitcrusherNode := bitcrusherNode this;
     samples := m; isInitialized := isInitialized this;
     stateSubscribers := stateSubscribers this; state := state this |}.

Definition with_isInitialized (b : bool) (this : Engine) : Engine :=
  {| ctx := ctx this; masterGain := masterGain this; bitcrusherNode := bitcrusherNode this;
     samples := samples this; isInitialized := b;
     stateSubscribers := stateSubscribers this; state := state this |}.

Definition with_stateSubscribers (l : list StateSubscriber) (this : Engine) : Engine :=
  {| ctx := ctx this; masterGain := masterGain this; bitcrusherNode := bitcrusherNode this;
     samples := samples this; isInitialized := isInitialized this;
     stateSubscribers := l; state := state this |}.

Definition with_state (s : AudioEngineState) (this : Engine) : Engine :=
  {| ctx := ctx this; masterGain := masterGain this; bitcrusherNode := bitcrusherNode this;
     samples := samples this; isInitialized := isInitialized this;
     stateSubscribers := stateSubscribers this; state := s |}.

(** [{ ...state, ...newState }] *)
Definition spread (s : AudioEngineState) (newState : PartialState) : AudioEngineState :=
  {| masterVolume := default (masterVolume s) (masterVolume_opt newState);
     bitDepth := default (bitDepth s) (bitDepth_opt newState);
     reduction := default (reduction s) (reduction_opt newState);
     mix := default (mix s) (mix_opt newState) |}.

(** 20 ms *)
Definition smoothTime : R := 2 / 100.

(** The three calls [applyState] makes on a parameter.  When the ramp
    throws, the pending events are cancelled and the start point is set
    all the same. *)
Definition smooth (currentTime : R) (target : double) (p : AudioParam)
    : AudioParam * option Error :=
  let p1 := setValueAtTime (value p) currentTime (cancelScheduledValues currentTime p) in
  match linearRampToValueAtTime target (currentTime + smoothTime) p1 with
  | Normal p2 => (p2, None)
  | TypeError => (p1, Some NotAFloat)
  end.

(** The statements that follow a statement that did not throw. *)
Definition and_then {A : Type} (r : A * option Error) (rest : A -> A * option Error)
    : A * option Error :=
  match r with
  | (a, None) => rest a
  | (a, Some e) => (a, Some e)
  end.

(** Lines 163-168 *)
Definition smooth_gain (currentTime : R) (this : Engine) : Engine * option Error :=
  match masterGain this with
  | Some g =>
      let '(p, thrown) := smooth currentTime (masterVolume (state this)) (gain g) in
      (with_masterGain (Some {| gain := p |}) this, thrown)
  | None => (this, None)
  end.

(** [const p = parameters.get(name); if (p) { ... }] *)
Definition smooth_parameter (name : string) (currentTime : R) (target : double)
    (this : Engine) : Engine * option Error :=
  match bitcrusherNode this with
  | Some node =>
      match parameters node !! name with
      | Some p =>
          let '(p', thrown) := smooth currentTime target p in
          (with_bitcrusherNode (Some {| parameters := <[name := p']> (parameters node) |}) this,
           thrown)
      | None => (this, None)
      end
  | None => (this, None)
  end.

(** [private applyState()] *)
Definition applyState (this : Engine) : Engine * option Error :=
  match ctx this, bitcrusherNode this, masterGain this with
  | Some c, Some _, Some _ =>
      let currentTime := currentTime c in
      and_then (smooth_gain currentTime this) (fun this1 =>
      and_then (smooth_parameter "bitDepth" currentTime (bitDepth (state this1)) this1)
        (fun this2 =>
      and_then (smooth_parameter "reduction" currentTime (reduction (state this2)) this2)
        (fun this3 =>
      smooth_parameter "mix" currentTime (mix (state this3)) this3)))
  | _, _, _ => (this, None)
  end.

(** [getState()]: a copy of the state. *)
Definition getState (this : Engine) : AudioEngineState :=
  {| masterVolume := masterVolume (state this);
     bitDepth := bitDepth (state this);
     reduction := reduction (state this);
     mix := mix (state this) |}.

(** [private notifySubscribers()]: the calls made, callback and argument. *)
Definition notifySubscribers (this : Engine)
    : list (StateSubscriber * AudioEngineState) :=
  map (fun cb : StateSubscriber => (cb, getState this)) (stateSubscribers this).

(** [setState(newState)]: the engine after the call, the subscriber
    calls it made, and the error it threw if any.  The state is assigned
    before [applyState] runs; no subscriber is called when it throws. *)
Definition setState (this : Engine) (newState : PartialState)
    : Engine * (list (StateSubscriber * AudioEngineState) * option Error) :=
  let this1 := with_state (spread (state this) newState) this in
  match applyState this1 with
  | (this2, None) => (this2, (notifySubscribers this2, None))
  | (this2, Some e) => (this2, ([], Some e))
  end.

(** [subscribe(callback)] and the function it returns. *)
Definition subscribe (this : Engine) (callback : StateSubscriber) : Engine :=
  with_stateSubscribers (stateSubscribers this ++ [callback]) this.

Definition unsubscribe (this : Engine) (callback : StateSubscriber) : Engine :=
  with_stateSubscribers
    (filter (fun cb : StateSubscriber => cb <> callback) (stateSubscribers this)) this.

(** [resume()]: rejects when [ctx.resume()] does. *)
Definition resume (host : Host) (this : Engine) : Engine * option Error :=
  match ctx this with
  | Some c =>
      match WebAudio.state c with
      | suspended =>
          match resumes host with
          | Fulfilled _ => (with_ctx (Some (in_state running c)) this, None)
          | Rejected e => (this, Some (HostError e))
          end
      | running => (this, None)
      end
  | None => (this, None)
  end.

(** [init()]: the engine after the call, and the error thrown if any.
    The fields assigned before a failing step stay assigned: the context
    from line 61 on, the node from line 67 on, the gain from line 70 on. *)
Definition init (host : Host) (this : Engine) : Engine * option Error :=
  if isInitialized this then resume host this
  else
    match newAudioContext host with
    | Rejected e => (this, Some (HostError e))
    | Fulfilled c =>
        let this1 := with_ctx (Some c) this in
        match addModule host with
        | Rejected e => (this1, Some (HostError e))
        | Fulfilled _ =>
            match newAudioWorkletNode host with
            | Rejected e => (this1, Some (HostError e))
            | Fulfilled node =>
                let this2 := with_bitcrusherNode (Some node) this1 in
                let this3 := with_masterGain (Some createGain) this2 in
                match set_value (masterVolume (state this3)) (currentTime c)
                        (gain createGain) with
                | TypeError => (this3, Some NotAFloat)
                | Normal p =>
                    let this4 := with_masterGain (Some {| gain := p |}) this3 in
                    match applyState this4 with
                    | (this5, Some e) => (this5, Some e)
                    | (this5, None) => (with_isInitialized true this5, None)
                    end
                end
            end
        end
    end.

(** The engine as [init] has it at line 77, before [applyState]: the
    context, the node and a gain whose value is the float [x]. *)
Definition assembled (c : AudioContext) (node : AudioWorkletNode) (x : R) (this : Engine)
    : Engine :=
  with_masterGain
    (Some {| gain := {| value := x; events := [SetValue x (currentTime c)] |} |})
    (with_masterGain (Some createGain)
       (with_bitcrusherNode (Some node) (with_ctx (Some c) this))).

(** [loadSample(padIndex, file)]: the engine once the promise has
    settled, and the error it rejected with if any. *)
Definition loadSample (this : Engine) (padIndex : Z) (file : File)
    : Engine * option Error :=
  match ctx this with
  | None => (this, Some NotInitialized)
  | Some c =>
      match decodeAudioData c (arrayBuffer file) with
      | Some audioBuffer =>
          (with_samples (<[padIndex := audioBuffer]> (samples this)) this, None)
      | None => (this, Some EncodingError)
      end
  end.

(** [triggerPad(padIndex)]: returns nothing and throws nothing. *)
Definition triggerPad (this : Engine) (padIndex : Z) : Engine :=
  match ctx this, bitcrusherNode this with
  | Some c, Some _ =>
      match samples this !! padIndex with
      | Some buffer =>
          let source := {| WebAudio.buffer := buffer; startTime := 0 |} in
          with_ctx (Some {| WebAudio.state := WebAudio.state c;
                            currentTime := currentTime c;
                            sources := sources c ++ [source];
                            decodeAudioData := decodeAudioData c |}) this
      | None => this
      end
  | _, _ => this
  end.

(** [hasSample(padIndex)] and [get initialized()] *)
Definition hasSample (this : Engine) (padIndex : Z) : bool :=
  bool_decide (is_Some (samples this !! padIndex)).

Definition initialized (this : Engine) : bool := isInitialized this.

End AudioEngine.

(** ** Engine states, parameters by name, and the reachable states *)

Module Lifecycle.

Import WebAudio AudioEngine.

(** The states of the specification's state machine that an engine can be
    observed in between two calls. *)
Inductive Phase : Type :=
| Uninitialized
| Ready
| Suspended.

Definition phase (this : Engine) : Phase :=
  if isInitialized this then
    match ctx this with
    | Some c =>
        match WebAudio.state c with
        | suspended => Suspended
        | running => Ready
        end
    | None => Uninitialized
    end
  else Uninitialized.

(** The four parameters of the control surface. *)
Inductive ParamName : Type :=
| MasterVolume
| BitDepth
| Reduction
| Mix.

#[global] Instance ParamName_eq_dec : EqDecision ParamName.
Proof. solve_decision. Defined.

(** The field of the state that holds a parameter. *)
Definition field (f : ParamName) (s : AudioEngineState) : double :=
  match f with
  | MasterVolume => masterVolume s
  | BitDepth => bitDepth s
  | Reduction => reduction s
  | Mix => mix s
  end.

(** The value a partial state names for a parameter, if it names it. *)
Definition named (f : ParamName) (newState : PartialState) : option double :=
  match f with
  | MasterVolume => masterVolume_opt newState
  | BitDepth => bitDepth_opt newState
  | Reduction => reduction_opt newState
  | Mix => mix_opt newState
  end.

(** The partial state that names one parameter. *)
Definition only (f : ParamName) (v : double) : PartialState :=
  {| masterVolume_opt := match f with MasterVolume => Some v | _ => None end;
     bitDepth_opt := match f with BitDepth => Some v | _ => None end;
     reduction_opt := match f with Reduction => Some v | _ => None end;
     mix_opt := match f with Mix => Some v | _ => None end |}.

(** The [AudioParam] of the audio graph that carries a parameter. *)
Definition node_param (f : ParamName) (this : Engine) : option AudioParam :=
  match f with
  | MasterVolume => gain <$> masterGain this
  | BitDepth => bitcrusherNode this ≫= fun node => parameters node !! "bitDepth"
  | Reduction => bitcrusherNode this ≫= fun node => parameters node !! "reduction"
  | Mix => bitcrusherNode this ≫= fun node => parameters node !! "mix"
  end.

(** The place of a parameter in the order in which [applyState] takes
    them. *)
Definition rank (f : ParamName) : nat :=
  match f with
  | MasterVolume => 0
  | BitDepth => 1
  | Reduction => 2
  | Mix => 3
  end.

(** The state holds a finite float for the parameter and for every
    parameter [applyState] takes before it: no ramp up to this one throws. *)
Definition applies (f : ParamName) (s : AudioEngineState) : Prop :=
  forall f' : ParamName, (rank f' <= rank f)%nat -> is_Some (to_float (field f' s)).

(** The part of [applyState] for one parameter. *)
Definition apply_parameter (f : ParamName) (currentTime : R) (this : Engine)
    : Engine * option Error :=
  match f with
  | MasterVolume => smooth_gain currentTime this
  | BitDepth => smooth_parameter "bitDepth" currentTime (bitDepth (state this)) this
  | Reduction => smooth_parameter "reduction" currentTime (reduction (state this)) this
  | Mix => smooth_parameter "mix" currentTime (mix (state this)) this
  end.

(** Parameters taken one after the other, up to the first whose ramp
    throws; [applyState] takes them in the order of [order]. *)
Fixpoint in_turn (fs : list ParamName) (currentTime : R) (this : Engine)
    : Engine * option Error :=
  match fs with
  | [] => (this, None)
  | f :: fs' => and_then (apply_parameter f currentTime this) (in_turn fs' currentTime)
  end.

Definition order : list ParamName := [MasterVolume; BitDepth; Reduction; Mix].

(** The ranges the specification gives the four parameters. *)
Definition in_range (f : ParamName) (v : R) : Prop :=
  match f with
  | MasterVolume => 0 <= v <= 1
  | BitDepth => 1 <= v <= 16
  | Reduction => 1 <= v <= 32
  | Mix => 0 <= v <= 1
  end.

(** Every parameter of the graph that [applyState] reaches with the
    state as it is is scheduled to come to rest at the value the state
    holds for it. *)
Definition in_sync (this : Engine) : Prop :=
  forall (f : ParamName) (p : AudioParam),
    node_param f this = Some p -> applies f (state this) ->
    ramp_target p = to_float (field f (state this)).

(** The value a parameter of the graph is scheduled to come to rest at. *)
Definition target (f : ParamName) (this : Engine) : option R :=
  node_param f this ≫= ramp_target.

(** An initialized engine has its nodes; the gain and the node come
    together, and with them the context. *)
Definition wired (this : Engine) : Prop :=
  (isInitialized this = true -> is_Some (bitcrusherNode this))
  /\ (is_Some (bitcrusherNode this) <-> is_Some (masterGain this))
  /\ (is_Some (bitcrusherNode this) -> is_Some (ctx this)).

(** The same engine but for the timelines and values of its parameters. *)
Definition same_but_nodes (this this' : Engine) : Prop :=
  ctx this' = ctx this
  /\ samples this' = samples this
  /\ isInitialized this' = isInitialized this
  /\ stateSubscribers this' = stateSubscribers this
  /\ state this' = state this
  /\ (is_Some (masterGain this') <-> is_Some (masterGain this))
  /\ (is_Some (bitcrusherNode this') <-> is_Some (bitcrusherNode this)).

(** What the host does to the engine's objects between two calls: the
    context's state and clock move and sources end; the values of the
    parameters follow their timelines.  The timelines themselves, the
    decoder and the engine's own fields are not the host's to change. *)
Inductive host_step (this : Engine) : Engine -> Prop :=
| host_context (c c' : AudioContext) :
    ctx this = Some c ->
    decodeAudioData c' = decodeAudioData c ->
    host_step this (with_ctx (Some c') this)
| host_automation (g g' : GainNode) (node node' : AudioWorkletNode) :
    masterGain this = Some g ->
    bitcrusherNode this = Some node ->
    events (gain g') = events (gain g) ->
    (forall name : string,
       events <$> (parameters node' !! name) = events <$> (parameters node !! name)) ->
    host_step this (with_bitcrusherNode (Some node') (with_masterGain (Some g') this)).

(** One call of the public interface, whether it returns or throws, or
    one move of the host. *)
Inductive step : Engine -> Engine -> Prop :=
| step_init (host : Host) (this : Engine) : step this (init host this).1
| step_resume (host : Host) (this : Engine) : step this (resume host this).1
| step_loadSample (this : Engine) (padIndex : Z) (file : File) :
    step this (loadSample this padIndex file).1
| step_triggerPad (this : Engine) (padIndex : Z) :
    step this (triggerPad this padIndex)
| step_setState (this : Engine) (newState : PartialState) :
    step this (setState this newState).1
| step_subscribe (this : Engine) (callback : StateSubscriber) :
    step this (subscribe this callback)
| step_unsubscribe (this : Engine) (callback : StateSubscriber) :
    step this (unsubscribe this callback)
| step_host (this this' : Engine) : host_step this this' -> step this this'.

(** The states an engine can be in. *)
Definition reachable (this : Engine) : Prop := rtc step new this.

End Lifecycle.

(** ** Scenario data for the engine *)

(** A decoder that takes every non-empty byte string for one second of
    silence, and rejects the empty one. *)
Definition demo_decoder (bytes : list Byte.byte) : option WebAudio.AudioBuffer :=
  match bytes with
  | [] => None
  | _ :: _ =>
      Some {| WebAudio.sampleRate := 44100;
              WebAudio.channelData := [replicate (length bytes) (Num 0)] |}
  end.

(** A new context in the given state, and a host on which audio starts
    with it. *)
Definition demo_context (s : WebAudio.AudioContextState) : WebAudio.AudioContext :=
  {| WebAudio.state := s; WebAudio.currentTime := 0;
     WebAudio.sources := []; WebAudio.decodeAudioData := demo_decoder |}.

Definition demo_host (s : WebAudio.AudioContextState) : WebAudio.Host :=
  {| WebAudio.newAudioContext := WebAudio.Fulfilled (demo_context s);
     WebAudio.addModule := WebAudio.Fulfilled tt;
     WebAudio.newAudioWorkletNode := WebAudio.Fulfilled WebAudio.bitcrusher_node;
     WebAudio.resumes := WebAudio.Fulfilled tt |}.

(** A host that has no audio device. *)
Definition deaf_host : WebAudio.Host :=
  {| WebAudio.newAudioContext := WebAudio.Rejected "NotSupportedError";
     WebAudio.addModule := WebAudio.Fulfilled tt;
     WebAudio.newAudioWorkletNode := WebAudio.Fulfilled WebAudio.bitcrusher_node;
     WebAudio.resumes := WebAudio.Fulfilled tt |}.

Definition demo_file (name : string) (bytes : list Byte.byte) : AudioEngine.File :=
  {| AudioEngine.name := name; AudioEngine.arrayBuffer := bytes |}.

(** A host on which the worklet module fails to load. *)
Definition moduleless_host : WebAudio.Host :=
  {| WebAudio.newAudioContext := WebAudio.Fulfilled (demo_context WebAudio.running);
     WebAudio.addModule := WebAudio.Rejected "AbortError";
     WebAudio.newAudioWorkletNode := WebAudio.Fulfilled WebAudio.bitcrusher_node;
     WebAudio.resumes := WebAudio.Fulfilled tt |}.

(** A host that starts audio suspended and refuses to resume it. *)
Definition stubborn_host : WebAudio.Host :=
  {| WebAudio.newAudioContext := WebAudio.Fulfilled (demo_context WebAudio.suspended);
     WebAudio.addModule := WebAudio.Fulfilled tt;
     WebAudio.newAudioWorkletNode := WebAudio.Fulfilled WebAudio.bitcrusher_node;
     WebAudio.resumes := WebAudio.Rejected "NotAllowedError" |}.

(** An engine that was given a master volume that is no number before
    audio was started on a host where every step succeeds, and what
    [init] returned. *)
Definition half_started : AudioEngine.Engine * option AudioEngine.Error :=
  AudioEngine.init (demo_host WebAudio.running)
    (AudioEngine.setState AudioEngine.new
       (Lifecycle.only Lifecycle.MasterVolume (Val NaN))).1.

(** A started engine after a bit depth that is no number and then a mix
    of one half. *)
Definition out_of_step : AudioEngine.Engine :=
  (AudioEngine.setState
     (AudioEngine.setState (AudioEngine.init (demo_host WebAudio.running) AudioEngine.new).1
        (Lifecycle.only Lifecycle.BitDepth (Val NaN))).1
     (Lifecycle.only Lifecycle.Mix (Val (Num (1 / 2))))).1.
From stdpp Require Import pretty.

Local Open Scope R_scope.

(** ** Further vocabulary for the processor *)

(** Line 73: the dry sample and the held sample, mixed. *)
Definition blend (mix : R) (x held : number) : number :=
  nadd (nmul x (Num (1 - mix))) (nmul held (Num mix)).

(** A number between -1 and 1. *)
Definition in_unit (y : number) : Prop :=
  exists r : R, y = Num r /\ -1 <= r <= 1.

(** The sample held while frame [i] of a channel is written, when the
    counter stood at [_sampleCounter this] on entry: the quantization of
    the last frame at which the counter reached the reduction factor, or
    the sample held on entry if there was none yet. *)
Definition held_at (reduction : Z) (st : R) (this : Bitcrusher.Processor)
    (xs : Float32Array) (i : nat) : number :=
  let m := ((Bitcrusher._sampleCounter this + Z.of_nat i + 1) mod reduction)%Z in
  if (Z.of_nat i <? m)%Z
  then Bitcrusher._lastSample this
  else Bitcrusher.quantize st (read xs (i - Z.to_nat m)).

(** ** Further vocabulary for the engine *)

(** [{ ...first, ...second }] on two partial states. *)
Definition assign (first second : AudioEngine.PartialState) : AudioEngine.PartialState :=
  {| AudioEngine.masterVolume_opt :=
       match AudioEngine.masterVolume_opt second with
       | Some v => Some v
       | None => AudioEngine.masterVolume_opt first
       end;
     AudioEngine.bitDepth_opt :=
       match AudioEngine.bitDepth_opt second with
       | Some v => Some v
       | None => AudioEngine.bitDepth_opt first
       end;
     AudioEngine.reduction_opt :=
       match AudioEngine.reduction_opt second with
       | Some v => Some v
       | None => AudioEngine.reduction_opt first
       end;
     AudioEngine.mix_opt :=
       match AudioEngine.mix_opt second with
       | Some v => Some v
       | None => AudioEngine.mix_opt first
       end |}.


(** The source that [triggerPad] starts for a buffer. *)
Definition voice (buf : WebAudio.AudioBuffer) : WebAudio.AudioBufferSourceNode :=
  {| WebAudio.buffer := buf; WebAudio.startTime := 0 |}.


(** ** The store (store/sp1200Store.ts)

    The store holds what the front panel shows and forwards every change
    to the one engine of the page.  A world is the store's state together
    with that engine.  The calls the engine makes on its subscribers are
    those of [AudioEngine.setState]; the store does not look at them. *)

Module Store.

Import WebAudio.

Inductive Bank : Type :=
| A
| B
| C
| D.

#[global] Instance Bank_eq_dec : EqDecision Bank.
Proof. solve_decision. Defined.

(** The data fields of [SP1200State]; the numbers are any JavaScript
    number.  An element of [sliderValues] is [None] where the array has a
    hole or holds [undefined]. *)
Record SP1200State := {
  audioInitialized : bool;
  masterVolume : double;
  bitDepth : double;
  reduction : double;
  mix : double;
  currentBank : Bank;
  loadedSamples : gmap Z string;
  sliderValues : list (option double)
}.

(** The initial state, lines 33-40. *)
Definition initialState : SP1200State :=
  {| audioInitialized := false;
     masterVolume := Val (Num (8 / 10));
     bitDepth := Val (Num 12);
     reduction := Val (Num 1);
     mix := Val (Num 1);
     currentBank := A;
     loadedSamples := ∅;
     sliderValues :=
       map (fun v : R => Some (Val (Num v))) [45; 52; 38; 58; 42; 50; 62; 68] |}.

Definition with_audioInitialized (b : bool) (s : SP1200State) : SP1200State :=
  {| audioInitialized := b; masterVolume := masterVolume s; bitDepth := bitDepth s;
     reduction := reduction s; mix := mix s; currentBank := currentBank s;
     loadedSamples := loadedSamples s; sliderValues := sliderValues s |}.

Definition with_masterVolume (v : double) (s : SP1200State) : SP1200State :=
  {| audioInitialized := audioInitialized s; masterVolume := v; bitDepth := bitDepth s;
     reduction := reduction s; mix := mix s; currentBank := currentBank s;
     loadedSamples := loadedSamples s; sliderValues := sliderValues s |}.

Definition with_bitDepth (v : double) (s : SP1200State) : SP1200State :=
  {| audioInitialized := audioInitialized s; masterVolume := masterVolume s; bitDepth := v;
     reduction := reduction s; mix := mix s; currentBank := currentBank s;
     loadedSamples := loadedSamples s; sliderValues := sliderValues s |}.

Definition with_reduction (v : double) (s : SP1200State) : SP1200State :=
  {| audioInitialized := audioInitialized s; masterVolume := masterVolume s;
     bitDepth := bitDepth s; reduction := v; mix := mix s; currentBank := currentBank s;
     loadedSamples := loadedSamples s; sliderValues := sliderValues s |}.

Definition with_mix (v : double) (s : SP1200State) : SP1200State :=
  {| audioInitialized := audioInitialized s; masterVolume := masterVolume s;
     bitDepth := bitDepth s; reduction := reduction s; mix := v; currentBank := currentBank s;
     loadedSamples := loadedSamples s; sliderValues := sliderValues s |}.

Definition with_currentBank (b : Bank) (s : SP1200State) : SP1200State :=
  {| audioInitialized := audioInitialized s; masterVolume := masterVolume s;
     bitDepth := bitDepth s; reduction := reduction s; mix := mix s; currentBank := b;
     loadedSamples := loadedSamples s; sliderValues := sliderValues s |}.

Definition with_loadedSamples (m : gmap Z string) (s : SP1200State) : SP1200State :=
  {| audioInitialized := audioInitialized s; masterVolume := masterVolume s;
     bitDepth := bitDepth s; reduction := reduction s; mix := mix s;
     currentBank := currentBank s; loadedSamples := m; sliderValues := sliderValues s |}.

Definition with_sliderValues (l : list (option double)) (s : SP1200State) : SP1200State :=
  {| audioInitialized := audioInitialized s; masterVolume := masterVolume s;
     bitDepth := bitDepth s; reduction := reduction s; mix := mix s;
     currentBank := currentBank s; loadedSamples := loadedSamples s; sliderValues := l |}.

(** The store's state and the engine it drives. *)
Record World := {
  store : SP1200State;
  audioEngine : AudioEngine.Engine
}.

Definition create : World :=
  {| store := initialState; audioEngine := AudioEngine.new |}.

(** [set(...)], and a call on the engine: the world after the call and
    the error the call threw, if any. *)
Definition set (update : SP1200State -> SP1200State) (w : World) : World :=
  {| store := update (store w); audioEngine := audioEngine w |}.

Definition on_engine (call : AudioEngine.Engine -> AudioEngine.Engine * option AudioEngine.Error)
    (w : World) : World * option AudioEngine.Error :=
  ({| store := store w; audioEngine := (call (audioEngine w)).1 |},
   (call (audioEngine w)).2).

(** [audioEngine.setState(newState)], seen from the store, which is no
    subscriber of the engine. *)
Definition engine_setState (newState : AudioEngine.PartialState)
    (engine : AudioEngine.Engine) : AudioEngine.Engine * option AudioEngine.Error :=
  ((AudioEngine.setState engine newState).1, (AudioEngine.setState engine newState).2.2).

(** [initAudio()]: the world once the promise has settled, and the error
    it rejected with if any.  [audioInitialized] is set before the state
    is handed to the engine, whose [setState] may throw. *)
Definition initAudio (host : Host) (w : World) : World * option AudioEngine.Error :=
  match AudioEngine.init host (audioEngine w) with
  | (engine, Some error) => ({| store := store w; audioEngine := engine |}, Some error)
  | (engine, None) =>
      let state := with_audioInitialized true (store w) in
      on_engine
        (engine_setState
           {| AudioEngine.masterVolume_opt := Some (masterVolume state);
              AudioEngine.bitDepth_opt := Some (bitDepth state);
              AudioEngine.reduction_opt := Some (reduction state);
              AudioEngine.mix_opt := Some (mix state) |})
        {| store := state; audioEngine := engine |}
  end.

Definition setMasterVolume (value : double) (w : World) : World * option AudioEngine.Error :=
  on_engine (engine_setState (Lifecycle.only Lifecycle.MasterVolume value))
    (set (with_masterVolume value) w).

Definition setBitDepth (value : double) (w : World) : World * option AudioEngine.Error :=
  on_engine (engine_setState (Lifecycle.only Lifecycle.BitDepth value))
    (set (with_bitDepth value) w).

Definition setReduction (value : double) (w : World) : World * option AudioEngine.Error :=
  on_engine (engine_setState (Lifecycle.only Lifecycle.Reduction value))
    (set (with_reduction value) w).

Definition setMix (value : double) (w : World) : World * option AudioEngine.Error :=
  on_engine (engine_setState (Lifecycle.only Lifecycle.Mix value))
    (set (with_mix value) w).

(** [copy[index] = value] on an array, for an integer [index]: inside the
    bounds the element is replaced; from the length on the array grows,
    with holes up to the index; a negative index names a property that is
    no element of the array and that the next copy does not take over. *)
Definition array_set (index : Z) (value : double) (a : list (option double))
    : list (option double) :=
  if (index <? 0)%Z then a
  else if (index <? Z.of_nat (length a))%Z then <[Z.to_nat index := Some value]> a
  else a ++ replicate (Z.to_nat index - length a)%nat None ++ [Some value].

(** [setSliderValue(index, value)], lines 82-106. *)
Definition setSliderValue (index : Z) (value : double) (w : World)
    : World * option AudioEngine.Error :=
  let w1 := set (with_sliderValues (array_set index value (sliderValues (store w)))) w in
  match index with
  | 0%Z => setMasterVolume (ddiv value (Val (Num 100))) w1
  | 1%Z =>
      setBitDepth
        (dadd (Val (Num 4)) (dmul (ddiv value (Val (Num 100))) (Val (Num 12)))) w1
  | 2%Z =>
      setReduction
        (dadd (Val (Num 1)) (dmul (ddiv value (Val (Num 100))) (Val (Num 15)))) w1
  | 3%Z => setMix (ddiv value (Val (Num 100))) w1
  | _ => (w1, None)
  end.

Definition banks : list Bank := [A; B; C; D].

(** [banks.indexOf(bank)] *)
Definition indexOf (bank : Bank) (l : list Bank) : Z :=
  match list_find (fun b => b = bank) l with
  | Some (i, _) => Z.of_nat i
  | None => -1
  end.

(** [cycleBank()]: [banks[nextIndex]] is a bank, since [nextIndex] is
    below the length of [banks]. *)
Definition cycleBank (w : World) : World :=
  let currentIndex := indexOf (currentBank (store w)) banks in
  let nextIndex := ((currentIndex + 1) mod Z.of_nat (length banks))%Z in
  match banks !! Z.to_nat nextIndex with
  | Some bank => set (with_currentBank bank) w
  | None => w
  end.

(** [loadSample(padIndex, file)]: the world once the promise has settled,
    and the error it rejected with if any. *)
Definition loadSample (padIndex : Z) (file : AudioEngine.File) (w : World)
    : World * option AudioEngine.Error :=
  match AudioEngine.loadSample (audioEngine w) padIndex file with
  | (engine, Some error) => ({| store := store w; audioEngine := engine |}, Some error)
  | (engine, None) =>
      ({| store := with_loadedSamples
                     (<[padIndex := AudioEngine.name file]> (loadedSamples (store w)))
                     (store w);
          audioEngine := engine |},
       None)
  end.

(** [triggerPad(padIndex)]: throws nothing. *)
Definition triggerPad (padIndex : Z) (w : World) : World :=
  {| store := store w; audioEngine := AudioEngine.triggerPad (audioEngine w) padIndex |}.

(** The value the store shows for a parameter of the control surface. *)
Definition shown (f : Lifecycle.ParamName) (s : SP1200State) : double :=
  match f with
  | Lifecycle.MasterVolume => masterVolume s
  | Lifecycle.BitDepth => bitDepth s
  | Lifecycle.Reduction => reduction s
  | Lifecycle.Mix => mix s
  end.

(** The store and the engine agree: on the four parameters, on whether
    audio is started, and on the pads that have a sample. *)
Definition mirrors (w : World) : Prop :=
  (forall f : Lifecycle.ParamName,
     Lifecycle.field f (AudioEngine.state (audioEngine w)) = shown f (store w))
  /\ AudioEngine.isInitialized (audioEngine w) = audioInitialized (store w)
  /\ (forall pad : Z,
        is_Some (AudioEngine.samples (audioEngine w) !! pad)
        <-> is_Some (loadedSamples (store w) !! pad)).

(** One action of the store, whether it returns or throws, or one move
    of the host on the engine's objects. *)
Inductive step : World -> World -> Prop :=
| step_initAudio (host : Host) (w : World) : step w (initAudio host w).1
| step_setMasterVolume (value : double) (w : World) : step w (setMasterVolume value w).1
| step_setBitDepth (value : double) (w : World) : step w (setBitDepth value w).1
| step_setReduction (value : double) (w : World) : step w (setReduction value w).1
| step_setMix (value : double) (w : World) : step w (setMix value w).1
| step_setSliderValue (index : Z) (value : double) (w : World) :
    step w (setSliderValue index value w).1
| step_cycleBank (w : World) : step w (cycleBank w)
| step_loadSample (padIndex : Z) (file : AudioEngine.File) (w : World) :
    step w (loadSample padIndex file w).1
| step_triggerPad (padIndex : Z) (w : World) : step w (triggerPad padIndex w)
| step_host (w : World) (engine : AudioEngine.Engine) :
    Lifecycle.host_step (audioEngine w) engine ->
    step w {| store := store w; audioEngine := engine |}.

(** The worlds the page can be in: only the store calls the engine. *)
Definition reachable (w : World) : Prop := rtc step create w.

End Store.

(** ** The front panel (components/SP1200.tsx)

    The handlers of the component, on the component's own state (the text
    of the display and the pad a file is dragged over) and the world of
    the store.  The component reads [audioInitialized] from the store at
    the render before the event.  The style of the knob and the classes of
    the LEDs belong to the document and are not part of this state. *)

Module SP1200.

(** [Math.round]: to the nearest integer, halves upwards. *)
Definition Math_round : number -> number := lift1 (fun x => IZR (floorZ (x + 1 / 2))).

(** Lines 106-107: [Math.max(0, Math.min(100, (y / rect.height) * 100))].
    On a track of height 0 the quotient is an infinity, which the two
    bounds cut to 100 or to 0, or it is [NaN] (for [y] = 0). *)
Definition percentage (clientY top height : R) : number :=
  let y := clientY - top in
  if Req_dec_T height 0 then
    if Req_dec_T y 0 then NaN
    else if Rlt_dec 0 y then Num 100
    else Num 0
  else Math_max (Num 0) (Math_min (Num 100) (nmul (ndiv (Num y) (Num height)) (Num 100))).

(** Line 110: the value [updateSlider] hands to [setSliderValue]. *)
Definition slider_value (clientY top height : R) : number :=
  Math_round (nsub (Num 100) (percentage clientY top height)).

Record Component := {
  dragOverPad : option Z;
  lcdText : string
}.

(** The page: the component and the world of the store. *)
Record Page := {
  panel : Component;
  world : Store.World
}.

Definition mount : Page :=
  {| panel := {| dragOverPad := None; lcdText := "SP-1200 READY" |};
     world := Store.create |}.

Definition setLcdText (text : string) (c : Component) : Component :=
  {| dragOverPad := dragOverPad c; lcdText := text |}.

Definition setDragOverPad (pad : option Z) (c : Component) : Component :=
  {| dragOverPad := pad; lcdText := lcdText c |}.

(** A dropped file: its MIME type and what the engine reads of it. *)
Record DroppedFile := {
  type : string;
  file : AudioEngine.File
}.

(** [handleStartAudio]: the error of [initAudio] is caught. *)
Definition handleStartAudio (host : WebAudio.Host) (p : Page) : Page :=
  match Store.initAudio host (world p) with
  | (w, None) => {| panel := setLcdText "AUDIO ACTIVE" (panel p); world := w |}
  | (w, Some _) => {| panel := setLcdText "AUDIO ERROR" (panel p); world := w |}
  end.

Definition handlePadClick (index : Z) (p : Page) : Page :=
  if Store.audioInitialized (Store.store (world p)) then
    {| panel := setLcdText ("PAD " +:+ pretty (index + 1)%Z +:+ " TRIGGERED") (panel p);
       world := Store.triggerPad index (world p) |}
  else
    {| panel := setLcdText "START AUDIO FIRST" (panel p); world := world p |}.

Definition handleDragOver (index : Z) (p : Page) : Page :=
  {| panel := setDragOverPad (Some index) (panel p); world := world p |}.

Definition handleDragLeave (p : Page) : Page :=
  {| panel := setDragOverPad None (panel p); world := world p |}.

(** [handleDrop], once the promise of [loadSample] has settled: the text
    shown while it is pending is overwritten by then. *)
Definition handleDrop (index : Z) (files : list DroppedFile) (p : Page) : Page :=
  let c := setDragOverPad None (panel p) in
  if negb (Store.audioInitialized (Store.store (world p))) then
    {| panel := setLcdText "START AUDIO FIRST" c; world := world p |}
  else
    match files with
    | [] => {| panel := c; world := world p |}
    | f :: _ =>
        if String.prefix "audio/" (type f) then
          match Store.loadSample index (file f) (world p) with
          | (w, None) =>
              {| panel :=
                   setLcdText ("PAD " +:+ pretty (index + 1)%Z +:+ ": " +:+
                               String.substring 0 10 (AudioEngine.name (file f))) c;
                 world := w |}
          | (w, Some _) => {| panel := setLcdText "LOAD ERROR" c; world := w |}
          end
        else {| panel := setLcdText "AUDIO FILES ONLY" c; world := world p |}
    end.

(** [updateSlider] of the slider at [index], for a pointer at [clientY]
    over a track at [top] of the given [height]: the page after the
    handler, and the error that [setSliderValue] threw, if any.  The
    position of the knob belongs to the document. *)
Definition updateSlider (index : Z) (clientY top height : R) (p : Page)
    : Page * option AudioEngine.Error :=
  let value := slider_value clientY top height in
  ({| panel := panel p; world := (Store.setSliderValue index (Val value) (world p)).1 |},
   (Store.setSliderValue index (Val value) (world p)).2).

(** The LED handlers work on the document alone.  A group of LEDs is the
    list, in document order, of whether the class list of each LED has
    [active]; [None] stands for an element the document does not have (the
    group itself, or the LED of a bank row). *)

(** [Array.prototype.findIndex] *)
Definition findIndex {A : Type} (test : A -> bool) (l : list A) : Z :=
  match list_find (fun x => test x = true) l with
  | Some (i, _) => Z.of_nat i
  | None => -1
  end.

(** [handlePerfBtnClick]: without LEDs in the group [nextIndex] is [NaN]
    and reading [classList] of [perfLeds[NaN]] throws. *)
Definition handlePerfBtnClick (perfLeft : option (list bool))
    : Completion (option (list bool)) :=
  match perfLeft with
  | None => Normal None
  | Some perfLeds =>
      let found := findIndex (fun led : bool => led) perfLeds in
      let currentIndex := if (found =? -1)%Z then 0%Z else found in
      let cleared := map (fun _ : bool => false) perfLeds in
      match perfLeds with
      | [] => TypeError
      | _ :: _ =>
          let nextIndex := ((currentIndex + 1) mod Z.of_nat (length perfLeds))%Z in
          Normal (Some (<[Z.to_nat nextIndex := true]> cleared))
      end
  end.

(** [handleBankBtnClick]: a row without LED is skipped, and nothing is lit
    when [bankLeds[nextIndex]] is missing. *)
Definition handleBankBtnClick (bankColumn : option (list (option bool)))
    : option (list (option bool)) :=
  match bankColumn with
  | None => None
  | Some bankLeds =>
      let found :=
        findIndex (fun led : option bool =>
                     match led with
                     | Some active => active
                     | None => false
                     end) bankLeds in
      let currentIndex := if (found =? -1)%Z then 0%Z else found in
      let cleared :=
        map (fun led : option bool =>
               match led with
               | Some _ => Some false
               | None => None
               end) bankLeds in
      match bankLeds with
      | [] => Some cleared
      | _ :: _ =>
          let nextIndex := ((currentIndex + 1) mod Z.of_nat (length bankLeds))%Z in
          match cleared !! Z.to_nat nextIndex with
          | Some (Some _) => Some (<[Z.to_nat nextIndex := Some true]> cleared)
          | _ => Some cleared
          end
      end
  end.

(** [handleProgBtnClick]: only for a group of exactly two LEDs. *)
Definition handleProgBtnClick (progUnitFirst : option (list bool)) : option (list bool) :=
  match progUnitFirst with
  | None => None
  | Some progLeds =>
      if negb (length progLeds =? 2)%nat then Some progLeds
      else
        let found := findIndex (fun led : bool => led) progLeds in
        let currentIndex := if (found =? -1)%Z then 0%Z else found in
        let cleared := map (fun _ : bool => false) progLeds in
        let nextIndex := ((currentIndex + 1) mod Z.of_nat (length progLeds))%Z in
        Some (<[Z.to_nat nextIndex := true]> cleared)
  end.

(** [handleMenuColumnBtnClick]: toggles the LED next to the button, when
    the button has a container and the container an LED. *)
Definition handleMenuColumnBtnClick (controlsContainer : option (option bool))
    : option (option bool) :=
  match controlsContainer with
  | Some (Some active) => Some (Some (negb active))
  | other => other
  end.

(** A group of [n] LEDs of which the one at [k] is lit and no other. *)
Definition lit (n k : nat) : list bool := <[k := true]> (replicate n false).

(** The range the slider of a parameter covers, lines 88-91 of the store. *)
Definition slider_range (f : Lifecycle.ParamName) (v : R) : Prop :=
  match f with
  | Lifecycle.MasterVolume => 0 <= v <= 1
  | Lifecycle.BitDepth => 4 <= v <= 16
  | Lifecycle.Reduction => 1 <= v <= 16
  | Lifecycle.Mix => 0 <= v <= 1
  end.

(** A whole number of percent. *)
Definition whole_percentage (v : R) : Prop :=
  exists n : Z, v = IZR n /\ (0 <= n <= 100)%Z.

(** A number that is [NaN] or a real with the given property. *)
Definition NaN_or (P : R -> Prop) (v : double) : Prop :=
  v = Val NaN \/ exists r : R, v = Val (Num r) /\ P r.

(** The store shows every parameter within the range of its slider or as
    [NaN], and every slider at a whole number of percent or at [NaN]. *)
Definition within_sliders (s : Store.SP1200State) : Prop :=
  (forall f : Lifecycle.ParamName, NaN_or (slider_range f) (Store.shown f s))
  /\ (forall (i : nat) (v : double),
        Store.sliderValues s !! i = Some (Some v) -> NaN_or whole_percentage v).

(** The name under which the node carries a parameter; the master
    volume is the gain of another node. *)
Definition parameter_name (f : Lifecycle.ParamName) : option string :=
  match f with
  | Lifecycle.MasterVolume => None
  | Lifecycle.BitDepth => Some "bitDepth"
  | Lifecycle.Reduction => Some "reduction"
  | Lifecycle.Mix => Some "mix"
  end.

(** The slider of a parameter and what [setSliderValue] makes of its
    value, lines 92-105 of the store. *)
Definition slider_of (f : Lifecycle.ParamName) : nat :=
  match f with
  | Lifecycle.MasterVolume => 0
  | Lifecycle.BitDepth => 1
  | Lifecycle.Reduction => 2
  | Lifecycle.Mix => 3
  end.

Definition slider_map (f : Lifecycle.ParamName) (value : double) : double :=
  match f with
  | Lifecycle.MasterVolume => ddiv value (Val (Num 100))
  | Lifecycle.BitDepth =>
      dadd (Val (Num 4)) (dmul (ddiv value (Val (Num 100))) (Val (Num 12)))
  | Lifecycle.Reduction =>
      dadd (Val (Num 1)) (dmul (ddiv value (Val (Num 100))) (Val (Num 15)))
  | Lifecycle.Mix => ddiv value (Val (Num 100))
  end.

(** A parameter and its slider are both as the store creates them, or
    the parameter is what the position of the slider stands for. *)
Definition follows_slider (f : Lifecycle.ParamName) (s : Store.SP1200State) : Prop :=
  (Store.sliderValues s !! slider_of f = Store.sliderValues Store.initialState !! slider_of f
   /\ Store.shown f s = Store.shown f Store.initialState)
  \/ (exists v : double,
        Store.sliderValues s !! slider_of f = Some (Some v)
        /\ Store.shown f s = slider_map f v).

(** One event on the page, whether its handler returns or throws, or
    one move of the host. *)
Inductive event : Page -> Page -> Prop :=
| event_start (host : WebAudio.Host) (p : Page) : event p (handleStartAudio host p)
| event_pad (index : Z) (p : Page) : event p (handlePadClick index p)
| event_dragOver (index : Z) (p : Page) : event p (handleDragOver index p)
| event_dragLeave (p : Page) : event p (handleDragLeave p)
| event_drop (index : Z) (files : list DroppedFile) (p : Page) :
    event p (handleDrop index files p)
| event_slider (index : Z) (clientY top height : R) (p : Page) :
    event p (updateSlider index clientY top height p).1
| event_host (p : Page) (engine : AudioEngine.Engine) :
    Lifecycle.host_step (Store.audioEngine (world p)) engine ->
    event p {| panel := panel p;
               world := {| Store.store := Store.store (world p);
                           Store.audioEngine := engine |} |}.

(** The pages a user can bring about. *)
Definition reachable (p : Page) : Prop := rtc event mount p.

End SP1200.
(** * Properties *)

(** ** Facts on floors and clamps *)

Lemma floorZ_spec (x : R) : IZR (floorZ x) <= x < IZR (floorZ x) + 1.
Proof.
  unfold floorZ. destruct (base_Int_part x) as [Hle Hgt]. lra.
Qed.

Lemma floorZ_unique (x : R) (k : Z) : IZR k <= x < IZR k + 1 -> floorZ x = k.
Proof.
  intros [Hk1 Hk2]. destruct (floorZ_spec x) as [Hf1 Hf2].
  assert (Hlt1 : IZR (floorZ x) < IZR (k + 1)) by (rewrite plus_IZR; lra).
  assert (Hlt2 : IZR k < IZR (floorZ x + 1)) by (rewrite plus_IZR; lra).
  apply lt_IZR in Hlt1. apply lt_IZR in Hlt2. lia.
Qed.

Lemma floorZ_IZR (k : Z) : floorZ (IZR k) = k.
Proof. apply floorZ_unique. lra. Qed.

Lemma clamp_max_min (v : number) :
  Math_max (Num (-1)) (Math_min (Num 1) v) = Contract.clamp v (-1) 1.
Proof.
  destruct v as [r|]; [|reflexivity].
  cbn [Math_max Math_min lift2 Contract.clamp]. f_equal.
  unfold Rmax, Rmin.
  destruct (Rlt_dec r (-1)), (Rlt_dec 1 r), (Rle_dec 1 r);
    try destruct (Rle_dec (-1) 1); try destruct (Rle_dec (-1) r); lra.
Qed.

Lemma processor_of_decimation (this : Bitcrusher.Processor) :
  processor_of (decimation_of this) = this.
Proof. now destruct this. Qed.

Lemma decimation_of_processor (s : Contract.Decimation) :
  decimation_of (processor_of s) = s.
Proof. now destruct s. Qed.

Lemma map_read_seq (a : Float32Array) : map (read a) (seq 0 (length a)) = a.
Proof.
  apply list_eq. intros i. rewrite list_lookup_fmap.
  destruct (a !! i) as [x|] eqn:Hx.
  - rewrite lookup_seq_lt by (eapply lookup_lt_Some; eauto).
    cbn. unfold read. now rewrite Hx.
  - rewrite lookup_seq_ge by (apply lookup_ge_None; assumption). reflexivity.
Qed.

(** ** The loops of [process] against the contract *)

Section Loops.

Variables (bitDepth mix : R) (reductionFactor : Z).

Lemma sample_body_per_sample (inputChannel : Float32Array) (i : nat)
    (this : Bitcrusher.Processor) (outputChannel : Float32Array) :
  Bitcrusher.sample_body reductionFactor (Bitcrusher.step bitDepth) mix
    inputChannel i this outputChannel =
  let '(s, y) := Contract.per_sample bitDepth reductionFactor mix
                   (decimation_of this) (read inputChannel i) in
  (processor_of s, <[i := y]> outputChannel).
Proof.
  unfold Bitcrusher.sample_body, Contract.per_sample, decimation_of, processor_of.
  cbn [Contract.counter Contract.heldSample].
  destruct (Z_ge_dec (Bitcrusher._sampleCounter this + 1) reductionFactor) as [Hge|Hlt].
  - assert (Hb : (Bitcrusher._sampleCounter this + 1 >=? reductionFactor)%Z = true)
      by (apply Z.geb_le; lia).
    rewrite Hb. cbn [Bitcrusher._lastSample Contract.heldSample Contract.counter].
    unfold Bitcrusher.quantize. rewrite clamp_max_min. reflexivity.
  - assert (Hb : (Bitcrusher._sampleCounter this + 1 >=? reductionFactor)%Z = false).
    { destruct (Z.geb_spec (Bitcrusher._sampleCounter this + 1) reductionFactor); [lia|reflexivity]. }
    rewrite Hb. reflexivity.
Qed.

Lemma sample_loop_per_channel (inputChannel : Float32Array) (todo : nat) :
  forall (i : nat) (this : Bitcrusher.Processor) (outputChannel : Float32Array),
  (i + todo)%nat = length outputChannel ->
  Bitcrusher.sample_loop reductionFactor (Bitcrusher.step bitDepth) mix
    inputChannel todo i this outputChannel =
  let '(s, ys) := Contract.per_channel bitDepth reductionFactor mix
                    (decimation_of this) (map (read inputChannel) (seq i todo)) in
  (processor_of s, take i outputChannel ++ ys).
Proof.
  induction todo as [|todo IH]; intros i this outputChannel Hlen.
  - cbn [Bitcrusher.sample_loop seq map Contract.per_channel].
    rewrite processor_of_decimation, app_nil_r.
    replace i with (length outputChannel) by lia. now rewrite firstn_all.
  - cbn [Bitcrusher.sample_loop seq map Contract.per_channel].
    rewrite sample_body_per_sample.
    destruct (Contract.per_sample bitDepth reductionFactor mix
                (decimation_of this) (read inputChannel i)) as [s1 y].
    rewrite IH by (rewrite length_insert; lia).
    rewrite decimation_of_processor.
    destruct (Contract.per_channel bitDepth reductionFactor mix s1
                (map (read inputChannel) (seq (S i) todo))) as [s2 ys].
    f_equal.
    rewrite (take_S_r _ i y) by (apply list_lookup_insert_eq; lia).
    rewrite take_insert_ge by lia. now rewrite <- app_assoc.
Qed.

Lemma channel_loop_per_block (input : list Float32Array) (todo : nat) :
  forall (channel : nat) (this : Bitcrusher.Processor) (output : list Float32Array),
  (channel + todo)%nat = length output ->
  same_shape (drop channel input) (drop channel output) ->
  Bitcrusher.channel_loop reductionFactor (Bitcrusher.step bitDepth) mix
    input todo channel this output =
  let '(s, yss) := Contract.per_block bitDepth reductionFactor mix
                     (decimation_of this) (drop channel input) in
  (processor_of s, take channel output ++ yss).
Proof.
  induction todo as [|todo IH]; intros channel this output Hlen Hshape.
  - cbn [Bitcrusher.channel_loop].
    assert (Hout : drop channel output = []) by (apply drop_ge; lia).
    rewrite Hout in Hshape. apply Forall2_nil_inv_r in Hshape. rewrite Hshape.
    cbn [Contract.per_block]. rewrite processor_of_decimation, app_nil_r.
    replace channel with (length output) by lia. now rewrite firstn_all.
  - cbn [Bitcrusher.channel_loop].
    destruct (lookup_lt_is_Some_2 output channel ltac:(lia)) as [oc Hoc].
    rewrite (drop_S _ _ _ Hoc) in Hshape.
    apply Forall2_cons_inv_r in Hshape as (ic & input' & Hframes & Hrest & Hin).
    assert (Hic : input !! channel = Some ic).
    { rewrite <- (Nat.add_0_r channel), <- lookup_drop, Hin. reflexivity. }
    assert (Hin' : drop (S channel) input = input').
    { rewrite <- Nat.add_1_r, <- drop_drop, Hin. reflexivity. }
    rewrite Hic, Hoc, Hin.
    rewrite sample_loop_per_channel by reflexivity.
    rewrite <- Hframes, map_read_seq. cbn [Contract.per_block take app].
    destruct (Contract.per_channel bitDepth reductionFactor mix
                (decimation_of this) ic) as [s1 ys].
    rewrite IH.
    + rewrite decimation_of_processor, Hin'.
      destruct (Contract.per_block bitDepth reductionFactor mix s1 input') as [s2 yss].
      f_equal.
      rewrite (take_S_r _ channel ys) by (apply list_lookup_insert_eq; lia).
      rewrite take_insert_ge by lia. now rewrite <- app_assoc.
    + rewrite length_insert. lia.
    + rewrite Hin', drop_insert_lt by lia. exact Hrest.
Qed.

End Loops.

(** ** The per-sample algorithm *)

(** C1: on a block whose input has channels and whose output has the same
    shape, [process] returns [true] and leaves in the output buffers and in
    the instance fields exactly what the algorithm of the specification
    computes sample by sample, channel after channel: levels = 2^bitDepth,
    step = 2/levels, the counter incremented and compared with the
    reduction factor (the k-rate parameter truncated to an integer), the
    held sample recomputed as clamp(floor((x+1)/step)*step - 1, -1, 1) or
    reused, and y = x*(1-mix) + heldSample*mix. *)
Theorem process_follows_contract (this : Bitcrusher.Processor)
    (input output : list Float32Array) (inputs' outputs' : list (list Float32Array))
    (parameters : Bitcrusher.Parameters) :
  input <> [] ->
  same_shape input output ->
  Bitcrusher.process this (input :: inputs') (output :: outputs') parameters =
  let '(s, yss) :=
    Contract.per_block (Bitcrusher.bitDepth parameters)
      (floorZ (Bitcrusher.reduction parameters)) (Bitcrusher.mix parameters)
      (decimation_of this) input in
  Normal (true, processor_of s, yss :: outputs').
Proof.
  intros Hne Hshape. unfold Bitcrusher.process.
  cbn [lookup list_lookup].
  destruct input as [|ic input']; [congruence|].
  rewrite channel_loop_per_block by (cbn [drop]; auto).
  cbn [drop take app].
  destruct (Contract.per_block _ _ _ _ _) as [s yss]. reflexivity.
Qed.

(** ** Quantization *)

Lemma levels_pos (bitDepth : R) : 0 < Bitcrusher.levels bitDepth.
Proof. unfold Bitcrusher.levels, Math_pow2, Rpower. apply exp_pos. Qed.

Lemma step_pos (bitDepth : R) : 0 < Bitcrusher.step bitDepth.
Proof.
  unfold Bitcrusher.step. apply Rdiv_lt_0_compat; [lra | apply levels_pos].
Qed.

Lemma levels_integer (b : Z) :
  (0 <= b)%Z -> Bitcrusher.levels (IZR b) = IZR (2 ^ b).
Proof.
  intros Hb. unfold Bitcrusher.levels, Math_pow2.
  rewrite <- (Z2Nat.id b) at 1 by assumption.
  rewrite <- INR_IZR_INZ, Rpower_pow by lra.
  rewrite <- (Z2Nat.id b) at 2 by assumption.
  now rewrite <- pow_IZR.
Qed.

Lemma levels_times_step (bitDepth : R) :
  Bitcrusher.levels bitDepth * Bitcrusher.step bitDepth = 2.
Proof.
  unfold Bitcrusher.step. pose proof (levels_pos bitDepth). field. lra.
Qed.

Lemma quantize_Num (st x : R) :
  Bitcrusher.quantize st (Num x) =
  Num (Rmax (-1) (Rmin 1 (IZR (floorZ ((x + 1) / st)) * st - 1))).
Proof. reflexivity. Qed.

(** The floor of a quotient by a positive step. *)
Lemma floorZ_div (st y : R) (k : Z) :
  0 < st -> IZR k * st <= y < (IZR k + 1) * st -> floorZ (y / st) = k.
Proof.
  intros Hst [Hlo Hhi]. apply floorZ_unique. split.
  - apply Rmult_le_reg_r with st; [assumption|].
    unfold Rdiv. rewrite Rmult_assoc, Rinv_l by lra. lra.
  - apply Rmult_lt_reg_r with st; [assumption|].
    unfold Rdiv. rewrite Rmult_assoc, Rinv_l by lra. lra.
Qed.

(** Quantizing a sample that lies in the [k]-th cell of the grid, when
    the clamp leaves the grid point alone. *)
Lemma quantize_at (st x : R) (k : Z) :
  0 < st -> IZR k * st <= x + 1 < (IZR k + 1) * st ->
  -1 <= IZR k * st - 1 <= 1 ->
  Bitcrusher.quantize st (Num x) = Num (IZR k * st - 1).
Proof.
  intros Hst Hcell Hrange. rewrite quantize_Num.
  rewrite (floorZ_div st (x + 1) k) by assumption.
  f_equal. rewrite Rmin_right by lra. rewrite Rmax_right by lra. reflexivity.
Qed.

Lemma quantize_is_number (st x : R) : is_number (Bitcrusher.quantize st (Num x)).
Proof. rewrite quantize_Num. eexists. reflexivity. Qed.

Lemma quantize_on_grid (b : Z) (x : R) :
  (0 <= b)%Z -> on_grid b (Bitcrusher.quantize (Bitcrusher.step (IZR b)) (Num x)).
Proof.
  intros Hb. rewrite quantize_Num.
  pose proof (step_pos (IZR b)) as Hst.
  pose proof (levels_times_step (IZR b)) as Hls.
  rewrite levels_integer in Hls by assumption.
  set (st := Bitcrusher.step (IZR b)) in *.
  set (k := floorZ ((x + 1) / st)).
  assert (Hpow : (0 < 2 ^ b)%Z) by (apply Z.pow_pos_nonneg; lia).
  destruct (Z_lt_le_dec k 0) as [Hneg|Hnonneg].
  - exists 0%Z. split; [lia|]. unfold grid_point. fold st. f_equal.
    assert (IZR k <= -1) by (apply IZR_le; lia).
    rewrite Rmin_right by nra. rewrite Rmax_left by nra. lra.
  - destruct (Z_le_gt_dec k (2 ^ b)) as [Hle|Hgt].
    + exists k. split; [lia|]. unfold grid_point. fold st. f_equal.
      assert (0 <= IZR k) by (apply IZR_le; lia).
      assert (IZR k <= IZR (2 ^ b)) by (apply IZR_le; lia).
      rewrite Rmin_right by nra. rewrite Rmax_right by nra. lra.
    + exists (2 ^ b)%Z. split; [lia|]. unfold grid_point. fold st. f_equal.
      assert (IZR (2 ^ b) + 1 <= IZR k) by (rewrite <- plus_IZR; apply IZR_le; lia).
      rewrite Rmin_left by nra. rewrite Rmax_right by lra. lra.
Qed.

Lemma grid_point_range (b k : Z) :
  (0 <= b)%Z -> (0 <= k <= 2 ^ b)%Z -> -1 <= grid_point (IZR b) k <= 1.
Proof.
  intros Hb [Hk0 Hk1]. unfold grid_point.
  pose proof (step_pos (IZR b)) as Hst.
  pose proof (levels_times_step (IZR b)) as Hls.
  rewrite levels_integer in Hls by assumption.
  assert (0 <= IZR k) by (apply IZR_le; lia).
  assert (IZR k <= IZR (2 ^ b)) by (apply IZR_le; lia).
  nra.
Qed.

(** Every grid point is its own quantization: all 2^b + 1 points occur
    as outputs. *)
Lemma grid_point_fixed (b k : Z) :
  (0 <= b)%Z -> (0 <= k <= 2 ^ b)%Z ->
  Bitcrusher.quantize (Bitcrusher.step (IZR b)) (Num (grid_point (IZR b) k)) =
  Num (grid_point (IZR b) k).
Proof.
  intros Hb Hk. pose proof (grid_point_range b k Hb Hk) as Hr.
  unfold grid_point in *. pose proof (step_pos (IZR b)) as Hst.
  rewrite (quantize_at _ _ k) by (try assumption; lra).
  f_equal. lra.
Qed.

Lemma grid_point_inj (bitDepth : R) (j k : Z) :
  grid_point bitDepth j = grid_point bitDepth k -> j = k.
Proof.
  unfold grid_point. intros Heq. pose proof (step_pos bitDepth) as Hst.
  apply eq_IZR. nra.
Qed.

(** The initial held sample, 0, is the middle grid point. *)
Lemma zero_on_grid (b : Z) : (1 <= b)%Z -> on_grid b (Num 0).
Proof.
  intros Hb. exists (2 ^ (b - 1))%Z.
  assert (Hpow : (2 ^ b = 2 * 2 ^ (b - 1))%Z).
  { rewrite <- Z.pow_succ_r by lia. f_equal. lia. }
  assert (Hpos : (0 < 2 ^ (b - 1))%Z) by (apply Z.pow_pos_nonneg; lia).
  split; [lia|]. f_equal. unfold grid_point.
  pose proof (levels_times_step (IZR b)) as Hls.
  rewrite levels_integer, Hpow, mult_IZR in Hls by lia. lra.
Qed.

(** ** The fully wet signal *)

Lemma wet_mix (x h : number) :
  is_number x -> nadd (nmul x (Num (1 - 1))) (nmul h (Num 1)) = h.
Proof.
  intros [r ->]. destruct h as [h|]; [|reflexivity].
  cbn [nadd nmul lift2]. f_equal. lra.
Qed.

Lemma per_sample_wet (bitDepth : R) (reductionFactor : Z)
    (s : Contract.Decimation) (x : number) :
  is_number x ->
  snd (Contract.per_sample bitDepth reductionFactor 1 s x) =
  Contract.heldSample (fst (Contract.per_sample bitDepth reductionFactor 1 s x)).
Proof.
  intros Hx. unfold Contract.per_sample. cbn [fst snd]. now apply wet_mix.
Qed.

Lemma per_sample_state (bitDepth : R) (reductionFactor : Z) (mix : R)
    (s : Contract.Decimation) (x : number) :
  fst (Contract.per_sample bitDepth reductionFactor mix s x) =
  if Z_ge_dec (Contract.counter s + 1) reductionFactor
  then {| Contract.counter := 0;
          Contract.heldSample := Bitcrusher.quantize (Bitcrusher.step bitDepth) x |}
  else {| Contract.counter := Contract.counter s + 1;
          Contract.heldSample := Contract.heldSample s |}.
Proof.
  unfold Contract.per_sample. cbn [fst].
  destruct (Z_ge_dec (Contract.counter s + 1) reductionFactor); [|reflexivity].
  unfold Bitcrusher.quantize. now rewrite clamp_max_min.
Qed.

Section WetInvariant.

Variables (bitDepth : R) (reductionFactor : Z) (P : number -> Prop).
Hypothesis quantize_P :
  forall x : R, P (Bitcrusher.quantize (Bitcrusher.step bitDepth) (Num x)).

Lemma per_channel_wet_invariant (xs : Float32Array) :
  forall s : Contract.Decimation,
  Forall is_number xs -> P (Contract.heldSample s) ->
  P (Contract.heldSample (fst (Contract.per_channel bitDepth reductionFactor 1 s xs)))
  /\ Forall P (snd (Contract.per_channel bitDepth reductionFactor 1 s xs)).
Proof.
  induction xs as [|x xs IH]; intros s Hxs Hs.
  - cbn. auto.
  - apply Forall_cons in Hxs as [Hx Hxs].
    cbn [Contract.per_channel].
    pose proof (per_sample_wet bitDepth reductionFactor s x Hx) as Hy.
    pose proof (per_sample_state bitDepth reductionFactor 1 s x) as Hs1.
    destruct (Contract.per_sample bitDepth reductionFactor 1 s x) as [s1 y].
    cbn [fst snd] in Hy, Hs1.
    assert (HP1 : P (Contract.heldSample s1)).
    { rewrite Hs1. destruct (Z_ge_dec _ _); cbn [Contract.heldSample]; [|assumption].
      destruct Hx as [r ->]. apply quantize_P. }
    specialize (IH s1 Hxs HP1).
    destruct (Contract.per_channel bitDepth reductionFactor 1 s1 xs) as [s2 ys].
    cbn [fst snd] in *. destruct IH as [IH1 IH2].
    split; [assumption|]. constructor; [now rewrite Hy | assumption].
Qed.

Lemma per_block_wet_invariant (input : list Float32Array) :
  forall s : Contract.Decimation,
  Forall (Forall is_number) input -> P (Contract.heldSample s) ->
  P (Contract.heldSample (fst (Contract.per_block bitDepth reductionFactor 1 s input)))
  /\ Forall (Forall P) (snd (Contract.per_block bitDepth reductionFactor 1 s input)).
Proof.
  induction input as [|xs input IH]; intros s Hin Hs.
  - cbn. auto.
  - apply Forall_cons in Hin as [Hxs Hin].
    cbn [Contract.per_block].
    destruct (per_channel_wet_invariant xs s Hxs Hs) as [H1 H2].
    destruct (Contract.per_channel bitDepth reductionFactor 1 s xs) as [s1 ys].
    cbn [fst snd] in H1, H2.
    specialize (IH s1 Hin H1).
    destruct (Contract.per_block bitDepth reductionFactor 1 s1 input) as [s2 yss].
    cbn [fst snd] in *. destruct IH as [IH1 IH2]. auto.
Qed.

End WetInvariant.

(** ** The grid of the fully wet output *)

(** C9, as the code has it: for every integer bit depth b in [1,16], with
    levels = 2^b, a fully wet (mix = 1) call of [process] on a processor
    whose held sample is a grid point (the initial 0 is one) writes only
    values that lie on the uniform grid -1 + k*step, k = 0..levels, within
    [-1,1], and leaves a grid point held.  These are levels + 1 distinct
    points, and each of them occurs as an output: it is the quantization
    of itself. *)
Theorem fully_wet_output_on_grid (b : Z) (this : Bitcrusher.Processor)
    (input output : list Float32Array) (inputs' outputs' : list (list Float32Array))
    (parameters : Bitcrusher.Parameters) :
  (1 <= b <= 16)%Z ->
  Bitcrusher.bitDepth parameters = IZR b ->
  Bitcrusher.mix parameters = 1 ->
  input <> [] ->
  same_shape input output ->
  Forall (Forall is_number) input ->
  on_grid b (Bitcrusher._lastSample this) ->
  Bitcrusher.levels (IZR b) = IZR (2 ^ b)
  /\ (exists (this' : Bitcrusher.Processor) (output' : list Float32Array),
        Bitcrusher.process this (input :: inputs') (output :: outputs') parameters =
          Normal (true, this', output' :: outputs')
        /\ Forall (Forall (on_grid b)) output'
        /\ on_grid b (Bitcrusher._lastSample this'))
  /\ (forall k : Z, (0 <= k <= 2 ^ b)%Z ->
        -1 <= grid_point (IZR b) k <= 1
        /\ Bitcrusher.quantize (Bitcrusher.step (IZR b)) (Num (grid_point (IZR b) k)) =
           Num (grid_point (IZR b) k))
  /\ (forall j k : Z, grid_point (IZR b) j = grid_point (IZR b) k -> j = k).
Proof.
  intros Hb Hbd Hmix Hne Hshape Hnum Hheld.
  split; [apply levels_integer; lia|]. split; [|split].
  - unfold Bitcrusher.process. cbn [lookup list_lookup].
    destruct input as [|ic input']; [congruence|].
    rewrite channel_loop_per_block by (cbn [drop]; auto).
    cbn [drop take app]. rewrite Hbd, Hmix.
    destruct (per_block_wet_invariant (IZR b) (floorZ (Bitcrusher.reduction parameters))
                (on_grid b) ltac:(intros x; apply quantize_on_grid; lia)
                (ic :: input') (decimation_of this) Hnum Hheld) as [H1 H2].
    destruct (Contract.per_block _ _ _ _ _) as [s yss]. cbn [fst snd] in H1, H2.
    exists (processor_of s), yss. auto.
  - intros k Hk. split; [apply grid_point_range | apply grid_point_fixed]; lia.
  - intros j k. apply grid_point_inj.
Qed.

(** ** Running the sample loop on given data *)

Lemma sample_loop_recompute (reduction : Z) (st mix : R) (inputChannel : Float32Array)
    (todo i : nat) (this : Bitcrusher.Processor) (outputChannel : Float32Array) :
  (reduction <= Bitcrusher._sampleCounter this + 1)%Z ->
  Bitcrusher.sample_loop reduction st mix inputChannel (S todo) i this outputChannel =
  Bitcrusher.sample_loop reduction st mix inputChannel todo (S i)
    {| Bitcrusher._lastSample := Bitcrusher.quantize st (read inputChannel i);
       Bitcrusher._sampleCounter := 0 |}
    (<[i := nadd (nmul (read inputChannel i) (Num (1 - mix)))
                 (nmul (Bitcrusher.quantize st (read inputChannel i)) (Num mix))]>
       outputChannel).
Proof.
  intros Hge. cbn [Bitcrusher.sample_loop]. unfold Bitcrusher.sample_body.
  assert (Hb : (Bitcrusher._sampleCounter this + 1 >=? reduction)%Z = true)
    by (apply Z.geb_le; lia).
  rewrite Hb. reflexivity.
Qed.

Lemma sample_loop_reuse (reduction : Z) (st mix : R) (inputChannel : Float32Array)
    (todo i : nat) (this : Bitcrusher.Processor) (outputChannel : Float32Array) :
  (Bitcrusher._sampleCounter this + 1 < reduction)%Z ->
  Bitcrusher.sample_loop reduction st mix inputChannel (S todo) i this outputChannel =
  Bitcrusher.sample_loop reduction st mix inputChannel todo (S i)
    {| Bitcrusher._lastSample := Bitcrusher._lastSample this;
       Bitcrusher._sampleCounter := Bitcrusher._sampleCounter this + 1 |}
    (<[i := nadd (nmul (read inputChannel i) (Num (1 - mix)))
                 (nmul (Bitcrusher._lastSample this) (Num mix))]> outputChannel).
Proof.
  intros Hlt. cbn [Bitcrusher.sample_loop]. unfold Bitcrusher.sample_body.
  assert (Hb : (Bitcrusher._sampleCounter this + 1 >=? reduction)%Z = false).
  { destruct (Z.geb_spec (Bitcrusher._sampleCounter this + 1) reduction); [lia|reflexivity]. }
  rewrite Hb. reflexivity.
Qed.

Lemma sample_loop_done (reduction : Z) (st mix : R) (inputChannel : Float32Array)
    (i : nat) (this : Bitcrusher.Processor) (outputChannel : Float32Array) :
  Bitcrusher.sample_loop reduction st mix inputChannel 0 i this outputChannel =
  (this, outputChannel).
Proof. reflexivity. Qed.

Lemma step_1 : Bitcrusher.step 1 = 1.
Proof.
  unfold Bitcrusher.step, Bitcrusher.levels, Math_pow2.
  rewrite Rpower_1 by lra. lra.
Qed.

(** One iteration of the sample loop on concrete data, whichever branch
    the counter selects; then the array accesses. *)
Ltac sample_step :=
  first
    [ rewrite sample_loop_recompute by (cbn [Bitcrusher._sampleCounter]; lia)
    | rewrite sample_loop_reuse by (cbn [Bitcrusher._sampleCounter]; lia) ];
  cbn [read lookup list_lookup insert list_insert
       Bitcrusher._lastSample Bitcrusher._sampleCounter].

Ltac enter_process :=
  unfold Bitcrusher.process, Bitcrusher.constructor, silent;
  cbn [lookup list_lookup replicate length Bitcrusher.bitDepth Bitcrusher.reduction
       Bitcrusher.mix Bitcrusher.channel_loop];
  rewrite ?floorZ_IZR, ?step_1.

(** With bit depth 1 the quantizer has the three values -1, 0 and 1. *)
Lemma quantize_step_1 (x : R) :
  Bitcrusher.quantize 1 (Num x) =
  Num (if Rlt_dec x 0 then -1 else if Rlt_dec x 1 then 0 else 1).
Proof.
  rewrite quantize_Num. f_equal.
  destruct (floorZ_spec ((x + 1) / 1)) as [Hlo Hhi].
  set (k := floorZ ((x + 1) / 1)) in *.
  replace ((x + 1) / 1) with (x + 1) in Hlo, Hhi by field.
  destruct (Rlt_dec x 0) as [Hneg|Hnonneg].
  - assert (Hk : (k < 1)%Z) by (apply lt_IZR; lra).
    assert (IZR k <= 0) by (apply IZR_le; lia).
    rewrite Rmin_right by lra. rewrite Rmax_left by lra. reflexivity.
  - destruct (Rlt_dec x 1) as [Hlt|Hge].
    + assert (Hk : k = 1%Z).
      { assert (k < 2)%Z by (apply lt_IZR; lra).
        assert (0 < k)%Z by (apply lt_IZR; lra). lia. }
      rewrite Hk. rewrite Rmin_right by lra. rewrite Rmax_right by lra. lra.
    + assert (Hk : (1 < k)%Z) by (apply lt_IZR; lra).
      assert (2 <= IZR k) by (apply IZR_le; lia).
      rewrite Rmin_left by lra. rewrite Rmax_right by lra. reflexivity.
Qed.

Ltac quantize_1 :=
  repeat (rewrite quantize_step_1;
          repeat match goal with
                 | |- context [Rlt_dec ?a ?b] =>
                     destruct (Rlt_dec a b); [try lra | try lra]
                 end).

(** The end of the loop over one channel, and the next channel. *)
Ltac next_channel :=
  rewrite sample_loop_done;
  cbn [insert list_insert lookup list_lookup length].

(** The end of [process] in the fully wet case at bit depth 1. *)
Ltac leave_process :=
  rewrite ?wet_mix by (eexists; reflexivity);
  quantize_1; try reflexivity.

(** ** Consecutive blocks *)

Section Streams.

Variables (bitDepth : R) (reductionFactor : Z) (mix : R).

Lemma per_channel_app (xs xs' : Float32Array) :
  forall s : Contract.Decimation,
  Contract.per_channel bitDepth reductionFactor mix s (xs ++ xs') =
  let '(s1, ys) := Contract.per_channel bitDepth reductionFactor mix s xs in
  let '(s2, ys') := Contract.per_channel bitDepth reductionFactor mix s1 xs' in
  (s2, ys ++ ys').
Proof.
  induction xs as [|x xs IH]; intros s.
  - cbn. now destruct (Contract.per_channel _ _ _ s xs').
  - cbn [app Contract.per_channel].
    destruct (Contract.per_sample bitDepth reductionFactor mix s x) as [s1 y].
    rewrite IH.
    destruct (Contract.per_channel _ _ _ s1 xs) as [s2 ys].
    now destruct (Contract.per_channel _ _ _ s2 xs').
Qed.

Lemma per_block_concat (input : list Float32Array) :
  forall s : Contract.Decimation,
  Contract.per_channel bitDepth reductionFactor mix s (concat input) =
  let '(s', yss) := Contract.per_block bitDepth reductionFactor mix s input in
  (s', concat yss).
Proof.
  induction input as [|xs input IH]; intros s.
  - reflexivity.
  - cbn [concat Contract.per_block]. rewrite per_channel_app.
    destruct (Contract.per_channel _ _ _ s xs) as [s1 ys].
    rewrite IH. now destruct (Contract.per_block _ _ _ s1 input).
Qed.

Lemma per_block_length (input : list Float32Array) :
  forall s : Contract.Decimation,
  length (snd (Contract.per_block bitDepth reductionFactor mix s input)) = length input.
Proof.
  induction input as [|xs input IH]; intros s; [reflexivity|].
  cbn [Contract.per_block].
  destruct (Contract.per_channel _ _ _ s xs) as [s1 ys].
  specialize (IH s1).
  destruct (Contract.per_block _ _ _ s1 input) as [s2 yss].
  cbn [snd length] in *. now rewrite IH.
Qed.

End Streams.

Lemma same_shape_silent (input : list Float32Array) :
  same_shape input (map (fun ch : Float32Array => silent (length ch)) input).
Proof.
  unfold same_shape. induction input as [|ic input IH]; constructor; [|assumption].
  unfold silent. now rewrite length_replicate.
Qed.

(** One render quantum computes the block of the contract. *)
Lemma render_per_block (this : Bitcrusher.Processor) (parameters : Bitcrusher.Parameters)
    (input : list Float32Array) :
  render this parameters input =
  let '(s, yss) :=
    Contract.per_block (Bitcrusher.bitDepth parameters)
      (floorZ (Bitcrusher.reduction parameters)) (Bitcrusher.mix parameters)
      (decimation_of this) input in
  Normal (processor_of s, yss).
Proof.
  unfold render, Bitcrusher.process. cbn [lookup list_lookup].
  destruct input as [|ic input'].
  - cbn. now rewrite processor_of_decimation.
  - rewrite channel_loop_per_block
      by (rewrite ?length_map; cbn [drop]; auto using same_shape_silent).
    cbn [drop take app].
    now destruct (Contract.per_block _ _ _ _ _) as [s yss].
Qed.

(** Consecutive render quanta compute the contract on the samples in
    processing order, the decimation state running through. *)
Lemma render_blocks_per_channel (parameters : Bitcrusher.Parameters)
    (blocks : list (list Float32Array)) :
  forall this : Bitcrusher.Processor,
  exists (s : Contract.Decimation) (outputs : list (list Float32Array)),
    render_blocks this parameters blocks = Normal (processor_of s, outputs)
    /\ Contract.per_channel (Bitcrusher.bitDepth parameters)
         (floorZ (Bitcrusher.reduction parameters)) (Bitcrusher.mix parameters)
         (decimation_of this) (processing_order blocks) =
       (s, processing_order outputs)
    /\ Forall2 (fun (output input : list Float32Array) => length output = length input)
         outputs blocks.
Proof.
  induction blocks as [|input blocks IH]; intros this.
  - exists (decimation_of this), []. cbn.
    rewrite processor_of_decimation. auto.
  - cbn [render_blocks]. rewrite render_per_block.
    pose proof (per_block_concat (Bitcrusher.bitDepth parameters)
                  (floorZ (Bitcrusher.reduction parameters)) (Bitcrusher.mix parameters)
                  input (decimation_of this)) as Hcat.
    pose proof (per_block_length (Bitcrusher.bitDepth parameters)
                  (floorZ (Bitcrusher.reduction parameters)) (Bitcrusher.mix parameters)
                  input (decimation_of this)) as Hlen.
    destruct (Contract.per_block _ _ _ (decimation_of this) input) as [s1 yss].
    cbn [snd] in Hlen.
    destruct (IH (processor_of s1)) as (s2 & outputs & Hrun & Hspec & Hshape).
    rewrite Hrun. exists s2, (yss :: outputs). split; [reflexivity|]. split.
    + unfold processing_order in *. cbn [concat]. rewrite !concat_app, per_channel_app.
      rewrite Hcat. rewrite decimation_of_processor in Hspec. now rewrite Hspec.
    + constructor; assumption.
Qed.

(** ** How often the held sample changes *)




Section HeldRate.

Variables (bitDepth : R) (reductionFactor : Z).


End HeldRate.


(** A stream of single-channel blocks is its channel 0. *)
Lemma channel_stream_mono (blocks : list (list Float32Array)) :
  Forall (fun block : list Float32Array => length block = 1%nat) blocks ->
  channel_stream 0 blocks = processing_order blocks.
Proof.
  unfold channel_stream, processing_order.
  induction 1 as [|block blocks Hlen _ IH]; [reflexivity|].
  destruct block as [|xs [|? ?]]; try discriminate.
  cbn. now rewrite IH.
Qed.



(** The same at the render quantum of 128 frames, with reduction 2: from a
    processor whose counter stands at 0, channel 0 of the block starts with
    the sample held on entry and channel 1 starts with a 1 that belongs to
    channel 0. *)
Lemma render_quantum_block (held : number) :
  render {| Bitcrusher._lastSample := held; Bitcrusher._sampleCounter := 0 |}
    {| Bitcrusher.bitDepth := 1; Bitcrusher.reduction := 2; Bitcrusher.mix := 1 |}
    quantum_block =
  Normal ({| Bitcrusher._lastSample := Num (-1); Bitcrusher._sampleCounter := 0 |},
          [held :: replicate 127 (Num 1); Num 1 :: replicate 127 (Num (-1))]).
Proof.
  unfold render, quantum_block. cbn [map length replicate]. enter_process.
  cbn [length].
  do 128 sample_step. next_channel. do 128 sample_step. next_channel.
  cbn [hd]. leave_process.
Qed.

(** Over two consecutive quantum blocks the output of channel 1, whose
    input is -1 throughout, goes -1, 1, -1 across the block boundary: two
    changes at consecutive samples, with reduction 2. *)
Lemma held_sample_crosses_channels_at_quantum :
  exists (this' : Bitcrusher.Processor) (outputs : list (list Float32Array)),
    render_blocks Bitcrusher.constructor
      {| Bitcrusher.bitDepth := 1; Bitcrusher.reduction := 2; Bitcrusher.mix := 1 |}
      [quantum_block; quantum_block] = Normal (this', outputs)
    /\ channel_stream 1 outputs !! 127%nat = Some (Num (-1))
    /\ channel_stream 1 outputs !! 128%nat = Some (Num 1)
    /\ channel_stream 1 outputs !! 129%nat = Some (Num (-1))
    /\ ~ changes_at_most_once_every 2 (channel_stream 1 outputs).
Proof.
  eexists _, _. split.
  - cbn [render_blocks]. unfold Bitcrusher.constructor.
    rewrite render_quantum_block, render_quantum_block. reflexivity.
  - assert (H127 : channel_stream 1
                     [ [Num 0 :: replicate 127 (Num 1); Num 1 :: replicate 127 (Num (-1))];
                       [Num (-1) :: replicate 127 (Num 1);
                        Num 1 :: replicate 127 (Num (-1))] ] !! 127%nat =
                   Some (Num (-1))) by reflexivity.
    assert (H128 : channel_stream 1
                     [ [Num 0 :: replicate 127 (Num 1); Num 1 :: replicate 127 (Num (-1))];
                       [Num (-1) :: replicate 127 (Num 1);
                        Num 1 :: replicate 127 (Num (-1))] ] !! 128%nat =
                   Some (Num 1)) by reflexivity.
    assert (H129 : channel_stream 1
                     [ [Num 0 :: replicate 127 (Num 1); Num 1 :: replicate 127 (Num (-1))];
                       [Num (-1) :: replicate 127 (Num 1);
                        Num 1 :: replicate 127 (Num (-1))] ] !! 129%nat =
                   Some (Num (-1))) by reflexivity.
    split; [exact H127|]. split; [exact H128|]. split; [exact H129|].
    intros Hrate. specialize (Hrate 127%nat 128%nat ltac:(lia)).
    assert (Hfar : (2 <= Z.of_nat (128 - 127))%Z); [|lia].
    apply Hrate.
    + exists (Num (-1)), (Num 1). split; [exact H127|]. split; [exact H128|].
      intros [= H]. lra.
    + exists (Num 1), (Num (-1)). split; [exact H128|]. split; [exact H129|].
      intros [= H]. lra.
Qed.

(** ** Bit depth 1 *)

Lemma levels_1 : Bitcrusher.levels 1 = 2.
Proof. unfold Bitcrusher.levels, Math_pow2. apply Rpower_1. lra. Qed.

Lemma ramp8_fresh :
  Bitcrusher.process Bitcrusher.constructor [[ramp8]] [[silent 8]]
    {| Bitcrusher.bitDepth := 1; Bitcrusher.reduction := 4; Bitcrusher.mix := 1 |} =
  Normal (true,
          {| Bitcrusher._lastSample := Num 1; Bitcrusher._sampleCounter := 0 |},
          [[ [Num 0; Num 0; Num 0; Num (-1); Num (-1); Num (-1); Num (-1); Num 1] ]]).
Proof.
  enter_process. unfold ramp8. do 8 sample_step. next_channel. leave_process.
Qed.

(** C3, counterexample: at bit depth 1 the step is 1, not 2, and the
    samples -1, 0 and 1 quantize to themselves: three levels, not two. *)
Lemma bit_depth_1_step_is_not_2 :
  Bitcrusher.step 1 = 1
  /\ Bitcrusher.step 1 <> 2
  /\ Bitcrusher.quantize (Bitcrusher.step 1) (Num (-1)) = Num (-1)
  /\ Bitcrusher.quantize (Bitcrusher.step 1) (Num 0) = Num 0
  /\ Bitcrusher.quantize (Bitcrusher.step 1) (Num 1) = Num 1
  /\ ~ (exists a b : number,
          forall x : R,
            Bitcrusher.quantize (Bitcrusher.step 1) (Num x) = a
            \/ Bitcrusher.quantize (Bitcrusher.step 1) (Num x) = b).
Proof.
  rewrite step_1.
  assert (Hm : Bitcrusher.quantize 1 (Num (-1)) = Num (-1)) by (quantize_1; reflexivity).
  assert (H0 : Bitcrusher.quantize 1 (Num 0) = Num 0) by (quantize_1; reflexivity).
  assert (H1 : Bitcrusher.quantize 1 (Num 1) = Num 1) by (quantize_1; reflexivity).
  split; [reflexivity|]. split; [lra|]. split; [exact Hm|]. split; [exact H0|].
  split; [exact H1|].
  intros (a & b & Hab).
  pose proof (Hab (-1)) as Ha. pose proof (Hab 0) as Hb. pose proof (Hab 1) as Hc.
  rewrite Hm in Ha. rewrite H0 in Hb. rewrite H1 in Hc.
  assert (Hne1 : Num (-1) <> Num 0) by (intros [= H]; lra).
  assert (Hne2 : Num (-1) <> Num 1) by (intros [= H]; lra).
  assert (Hne3 : Num 0 <> Num 1) by (intros [= H]; lra).
  intuition congruence.
Qed.

(** C3, as the code has it: at bit depth 1 there are 2 levels, the step is
    1, and every sample quantizes to one of the three values -1, 0 and 1:
    the samples up to -2^-53 to -1, the samples from 0 up to but not 1 to
    0, the samples from 1 on to 1.  With reduction 4 and mix 1, a new
    processor turns the ramp that rises from -1 by a quarter per sample
    into 0, 0, 0, -1, -1, -1, -1, 0, which is two values, each taken by
    four of the eight samples, the first three being the value held by a
    new processor; and it turns the ramp from -1 to 1 that ends at 1 into
    0, 0, 0, -1, -1, -1, -1, 1. *)
Theorem bit_depth_1_scenario :
  Bitcrusher.levels 1 = 2
  /\ Bitcrusher.step 1 = 1
  /\ (forall x : R,
        (Bitcrusher.quantize (Bitcrusher.step 1) (Num x) = Num (-1)
         \/ Bitcrusher.quantize (Bitcrusher.step 1) (Num x) = Num 0
         \/ Bitcrusher.quantize (Bitcrusher.step 1) (Num x) = Num 1)
        /\ (x <= - / 2 ^ 53 ->
            Bitcrusher.quantize (Bitcrusher.step 1) (Num x) = Num (-1))
        /\ (0 <= x < 1 -> Bitcrusher.quantize (Bitcrusher.step 1) (Num x) = Num 0)
        /\ (1 <= x -> Bitcrusher.quantize (Bitcrusher.step 1) (Num x) = Num 1))
  /\ Bitcrusher.process Bitcrusher.constructor [[ramp8_open]] [[silent 8]]
       {| Bitcrusher.bitDepth := 1; Bitcrusher.reduction := 4; Bitcrusher.mix := 1 |} =
     Normal (true,
             {| Bitcrusher._lastSample := Num 0; Bitcrusher._sampleCounter := 0 |},
             [[ [Num 0; Num 0; Num 0; Num (-1); Num (-1); Num (-1); Num (-1); Num 0] ]])
  /\ two_values_held_four_each
       [Num 0; Num 0; Num 0; Num (-1); Num (-1); Num (-1); Num (-1); Num 0]
  /\ Bitcrusher.process Bitcrusher.constructor [[ramp8]] [[silent 8]]
       {| Bitcrusher.bitDepth := 1; Bitcrusher.reduction := 4; Bitcrusher.mix := 1 |} =
     Normal (true,
             {| Bitcrusher._lastSample := Num 1; Bitcrusher._sampleCounter := 0 |},
             [[ [Num 0; Num 0; Num 0; Num (-1); Num (-1); Num (-1); Num (-1); Num 1] ]]).
Proof.
  split; [apply levels_1|]. split; [apply step_1|]. split; [|split; [|split]].
  - intros x. rewrite step_1, quantize_step_1.
    assert (Hpos : 0 < / 2 ^ 53) by (apply Rinv_0_lt_compat, pow_lt; lra).
    destruct (Rlt_dec x 0) as [Hneg|Hnonneg]; [|destruct (Rlt_dec x 1) as [Hlt|Hge]].
    + split; [auto|]. split; [reflexivity|]. split; intros; lra.
    + split; [auto|]. split; [intros; lra|]. split; [reflexivity|intros; lra].
    + split; [auto|]. split; [intros; lra|]. split; [intros; lra|reflexivity].
  - enter_process. unfold ramp8_open. do 8 sample_step. next_channel. leave_process.
  - exists (Num 0), (Num (-1)). split; [intros [= H]; lra|].
    change [Num 0; Num 0; Num 0; Num (-1); Num (-1); Num (-1); Num (-1); Num 0]
      with ([Num 0; Num 0; Num 0] ++ [Num (-1); Num (-1); Num (-1); Num (-1)] ++ [Num 0]).
    change (replicate 4 (Num 0) ++ replicate 4 (Num (-1)))
      with ([Num 0; Num 0; Num 0] ++ [Num 0] ++ [Num (-1); Num (-1); Num (-1); Num (-1)]).
    apply Permutation_app_head, Permutation_app_comm.
  - apply ramp8_fresh.
Qed.

(** C9, counterexample: at bit depth 1, where levels = 2, a new processor
    with reduction 1 and mix 1 turns the samples -1, 0, 1 into -1, 0, 1:
    three output values, which no grid of two points holds. *)
Lemma three_output_values_at_bit_depth_1 :
  Bitcrusher.levels 1 = 2
  /\ Bitcrusher.process Bitcrusher.constructor
       [[ [Num (-1); Num 0; Num 1] ]] [[silent 3]]
       {| Bitcrusher.bitDepth := 1; Bitcrusher.reduction := 1; Bitcrusher.mix := 1 |} =
     Normal (true,
             {| Bitcrusher._lastSample := Num 1; Bitcrusher._sampleCounter := 0 |},
             [[ [Num (-1); Num 0; Num 1] ]])
  /\ ~ (exists grid : list number,
          length grid = 2%nat
          /\ Forall (fun y : number => y ∈ grid) [Num (-1); Num 0; Num 1]).
Proof.
  split; [apply levels_1|]. split.
  - enter_process. do 3 sample_step. next_channel. leave_process.
  - intros (grid & Hlen & Hall).
    destruct grid as [|a [|b [|? ?]]]; try discriminate.
    apply Forall_cons in Hall as [Hm Hall].
    apply Forall_cons in Hall as [Hz Hall].
    apply Forall_cons in Hall as [Hp _].
    assert (Hne1 : Num (-1) <> Num 0) by (intros [= H]; lra).
    assert (Hne2 : Num (-1) <> Num 1) by (intros [= H]; lra).
    assert (Hne3 : Num 0 <> Num 1) by (intros [= H]; lra).
    assert (Hin : forall y : number, y ∈ [a; b] -> y = a \/ y = b).
    { intros y Hy. apply list_elem_of_In in Hy. destruct Hy as [->|[->|[]]]; auto. }
    apply Hin in Hm, Hz, Hp. intuition congruence.
Qed.

(** ** No error on the render path *)

Section Untouched.

Variables (reduction : Z) (st mix : R) (input : list Float32Array).

Lemma channel_loop_untouched (todo : nat) :
  forall (channel : nat) (this : Bitcrusher.Processor) (output : list Float32Array)
         (c : nat),
  input !! c = None ->
  (Bitcrusher.channel_loop reduction st mix input todo channel this output).2 !! c =
  output !! c.
Proof.
  induction todo as [|todo IH]; intros channel this output c Hc; [reflexivity|].
  cbn [Bitcrusher.channel_loop].
  destruct (input !! channel) as [ic|] eqn:Hic; [|now apply IH].
  destruct (output !! channel) as [oc|] eqn:Hoc; [|now apply IH].
  destruct (Bitcrusher.sample_loop reduction st mix ic (length oc) 0 this oc)
    as [this1 oc1].
  rewrite IH by assumption.
  apply list_lookup_insert_ne. congruence.
Qed.

Lemma channel_loop_length (todo : nat) :
  forall (channel : nat) (this : Bitcrusher.Processor) (output : list Float32Array),
  length (Bitcrusher.channel_loop reduction st mix input todo channel this output).2 =
  length output.
Proof.
  induction todo as [|todo IH]; intros channel this output; [reflexivity|].
  cbn [Bitcrusher.channel_loop].
  destruct (input !! channel) as [ic|]; [|now apply IH].
  destruct (output !! channel) as [oc|]; [|now apply IH].
  destruct (Bitcrusher.sample_loop reduction st mix ic (length oc) 0 this oc)
    as [this1 oc1].
  now rewrite IH, length_insert.
Qed.

End Untouched.

(** C8: whatever the inputs are (no input at all, an input without
    channels, an input that lacks some channel, channels of any lengths,
    samples that are not numbers), [process] on the output block the host
    provides throws nothing and returns [true]; the other outputs are not
    touched, and every channel the input lacks is left as the host
    delivered it, so a zero-filled block stays a zero-filled block. *)
Theorem process_never_throws (this : Bitcrusher.Processor)
    (inputs : list (list Float32Array)) (output : list Float32Array)
    (outputs' : list (list Float32Array)) (parameters : Bitcrusher.Parameters) :
  exists (this' : Bitcrusher.Processor) (output' : list Float32Array),
    Bitcrusher.process this inputs (output :: outputs') parameters =
      Normal (true, this', output' :: outputs')
    /\ length output' = length output
    /\ forall c : nat,
         inputs !! 0%nat = None
         \/ (exists input : list Float32Array,
               inputs !! 0%nat = Some input /\ input !! c = None) ->
         output' !! c = output !! c
         /\ forall n : nat, output !! c = Some (silent n) -> output' !! c = Some (silent n).
Proof.
  unfold Bitcrusher.process.
  destruct (inputs !! 0%nat) as [[|ic input']|] eqn:Hin.
  - exists this, output. split; [reflexivity|]. split; [reflexivity|]. intros c _. auto.
  - cbn [lookup list_lookup].
    pose proof (channel_loop_untouched (floorZ (Bitcrusher.reduction parameters))
                  (Bitcrusher.step (Bitcrusher.bitDepth parameters))
                  (Bitcrusher.mix parameters) (ic :: input') (length output) 0
                  this output) as Hkeep.
    pose proof (channel_loop_length (floorZ (Bitcrusher.reduction parameters))
                  (Bitcrusher.step (Bitcrusher.bitDepth parameters))
                  (Bitcrusher.mix parameters) (ic :: input') (length output) 0
                  this output) as Hlen.
    destruct (Bitcrusher.channel_loop _ _ _ _ _ _ _ _) as [this1 output1].
    cbn [snd] in Hkeep, Hlen.
    exists this1, output1. split; [reflexivity|]. split; [assumption|].
    intros c [Hnone|(input & Hsome & Hc)]; [discriminate|].
    injection Hsome as <-. rewrite (Hkeep c Hc). auto.
  - exists this, output. split; [reflexivity|]. split; [reflexivity|]. intros c _. auto.
Qed.

(** ** The theorems on given blocks *)

Lemma ramp8_numbers : Forall is_number ramp8.
Proof. unfold ramp8. repeat constructor; eexists; reflexivity. Qed.

Lemma process_follows_contract_witness :
  [ramp8] <> []
  /\ same_shape [ramp8] [silent 8]
  /\ Bitcrusher.process Bitcrusher.constructor [[ramp8]] [[silent 8]]
       {| Bitcrusher.bitDepth := 12; Bitcrusher.reduction := 4; Bitcrusher.mix := 1/2 |} =
     let '(s, yss) :=
       Contract.per_block 12 (floorZ 4) (1/2) (decimation_of Bitcrusher.constructor)
         [ramp8] in
     Normal (true, processor_of s, [yss]).
Proof.
  assert (Hne : [ramp8] <> []) by discriminate.
  assert (Hshape : same_shape [ramp8] [silent 8]) by (repeat constructor).
  split; [exact Hne|]. split; [exact Hshape|].
  exact (process_follows_contract Bitcrusher.constructor [ramp8] [silent 8] [] []
           {| Bitcrusher.bitDepth := 12; Bitcrusher.reduction := 4;
              Bitcrusher.mix := 1/2 |} Hne Hshape).
Defined.


Lemma fully_wet_output_on_grid_witness :
  (1 <= 12 <= 16)%Z
  /\ on_grid 12 (Bitcrusher._lastSample Bitcrusher.constructor)
  /\ exists (this' : Bitcrusher.Processor) (output' : list Float32Array),
       Bitcrusher.process Bitcrusher.constructor [[ramp8]] [[silent 8]]
         {| Bitcrusher.bitDepth := 12; Bitcrusher.reduction := 4; Bitcrusher.mix := 1 |} =
       Normal (true, this', [output'])
       /\ Forall (Forall (on_grid 12)) output'
       /\ on_grid 12 (Bitcrusher._lastSample this').
Proof.
  assert (Hb : (1 <= 12 <= 16)%Z) by lia.
  assert (Hheld : on_grid 12 (Bitcrusher._lastSample Bitcrusher.constructor))
    by (apply zero_on_grid; lia).
  split; [exact Hb|]. split; [exact Hheld|].
  refine (proj1 (proj2
    (fully_wet_output_on_grid 12 Bitcrusher.constructor [ramp8] [silent 8] [] []
       {| Bitcrusher.bitDepth := 12; Bitcrusher.reduction := 4; Bitcrusher.mix := 1 |}
       Hb eq_refl eq_refl _ _ _ Hheld))).
  - discriminate.
  - repeat constructor.
  - repeat (first [apply Forall_nil_2 | apply ramp8_numbers | apply Forall_cons_2]).
Defined.

(** ** The audio engine *)

Section EngineFacts.

Import WebAudio AudioEngine Lifecycle.

(** *** Numbers that are finite floats *)

Lemma float_limit_large : 1000000 < float_limit.
Proof. unfold float_limit. apply IZR_lt. reflexivity. Qed.

(** *** Rounding to a float *)

Lemma nearest_in_list (l : list R) (r : R) :
  l <> [] -> exists x : R, x ∈ l /\ forall y : R, y ∈ l -> Rabs (x - r) <= Rabs (y - r).
Proof.
  induction l as [|a l IH]; [congruence|]. intros _.
  destruct l as [|b l'].
  - exists a. split; [apply list_elem_of_here|].
    intros y Hy. apply list_elem_of_singleton in Hy as ->. lra.
  - destruct IH as (x & Hx & Hmin); [discriminate|].
    destruct (Rle_dec (Rabs (a - r)) (Rabs (x - r))) as [Hle|Hgt].
    + exists a. split; [apply list_elem_of_here|].
      intros y Hy. apply elem_of_cons in Hy as [->|Hy]; [lra|].
      specialize (Hmin y Hy). lra.
    + exists x. split; [now apply list_elem_of_further|].
      intros y Hy. apply elem_of_cons in Hy as [->|Hy]; [lra|auto].
Qed.

Lemma elem_of_float32_values (x : R) : x ∈ float32_values <-> is_float32 x.
Proof.
  unfold float32_values, is_float32. rewrite list_elem_of_bind. split.
  - intros (m & Hx & Hm). apply list_elem_of_bind in Hx as (e & Hx & He).
    apply list_elem_of_singleton in Hx. apply elem_of_seqZ in Hm, He.
    exists m, e. split; [lia|]. split; [lia|exact Hx].
  - intros (m & e & Hm & He & ->). exists m. split.
    + apply list_elem_of_bind. exists e.
      split; [apply list_elem_of_singleton; reflexivity|].
      apply elem_of_seqZ. lia.
    + apply elem_of_seqZ. lia.
Qed.

Lemma is_float32_IZR (n : Z) : (Z.abs n < 2 ^ 24)%Z -> is_float32 (IZR n).
Proof.
  intros Hn. exists n, 0%Z. split; [exact Hn|]. split; [lia|].
  change (powerRZ 2 0) with 1. lra.
Qed.

Lemma is_float32_half : is_float32 (1 / 2).
Proof.
  exists 1%Z, (-1)%Z. split; [reflexivity|]. split; [lia|].
  change (powerRZ 2 (-1)) with (/ (2 * 1)). lra.
Qed.

(** Every real has a nearest float, and [fround] is one. *)
Lemma fround_nearest (r : R) : nearest_float32 r (fround r).
Proof.
  unfold fround. apply epsilon_spec.
  destruct (nearest_in_list float32_values r) as (x & Hx & Hmin).
  - intros Hnil.
    pose proof (proj2 (elem_of_float32_values 0) (is_float32_IZR 0 eq_refl)) as H0.
    rewrite Hnil in H0. now apply elem_of_nil in H0.
  - exists x. split; [now apply elem_of_float32_values|].
    intros y Hy. apply Hmin. now apply elem_of_float32_values.
Qed.

(** A float rounds to itself. *)
Lemma fround_float (x : R) : is_float32 x -> fround x = x.
Proof.
  intros Hx. destruct (fround_nearest x) as [_ Hmin]. specialize (Hmin x Hx).
  replace (x - x) with 0 in Hmin by lra. rewrite Rabs_R0 in Hmin.
  pose proof (Rabs_pos (fround x - x)) as Hpos.
  destruct (Req_dec (fround x - x) 0) as [Heq|Hne]; [lra|].
  apply Rabs_no_R0 in Hne. lra.
Qed.

(** Rounding does not cross a float. *)
Lemma fround_between (a b r : R) :
  is_float32 a -> is_float32 b -> a <= r <= b -> a <= fround r <= b.
Proof.
  intros Ha Hb Hr. destruct (fround_nearest r) as [_ Hmin].
  pose proof (Hmin a Ha) as H1. pose proof (Hmin b Hb) as H2. split.
  - destruct (Rle_dec a (fround r)) as [|Hlt]; [assumption|exfalso].
    rewrite (Rabs_left (fround r - r)) in H1 by lra.
    rewrite (Rabs_left1 (a - r)) in H1 by lra. lra.
  - destruct (Rle_dec (fround r) b) as [|Hlt]; [assumption|exfalso].
    rewrite (Rabs_pos_eq (fround r - r)) in H2 by lra.
    rewrite (Rabs_pos_eq (b - r)) in H2 by lra. lra.
Qed.

Lemma to_float_Num (r : R) :
  Rabs r < float_limit -> to_float (Val (Num r)) = Some (fround r).
Proof. intros Hr. cbn. now destruct (Rlt_dec (Rabs r) float_limit). Qed.

Lemma to_float_small (r : R) :
  -1000000 < r < 1000000 -> to_float (Val (Num r)) = Some (fround r).
Proof.
  intros Hr. apply to_float_Num. pose proof float_limit_large.
  unfold Rabs. destruct (Rcase_abs r); lra.
Qed.

Lemma to_float_exact (r : R) :
  is_float32 r -> -1000000 < r < 1000000 -> to_float (Val (Num r)) = Some r.
Proof. intros Hf Hr. now rewrite to_float_small, fround_float. Qed.

Lemma to_float_Some (v : double) (x : R) :
  to_float v = Some x -> exists r : R, v = Val (Num r) /\ x = fround r.
Proof.
  destruct v as [[r|]| |]; cbn; try discriminate.
  destruct (Rlt_dec (Rabs r) float_limit); [|discriminate]. intros [= <-]. eauto.
Qed.

Lemma to_float_beyond (r : R) : float_limit <= Rabs r -> to_float (Val (Num r)) = None.
Proof. intros Hr. cbn. destruct (Rlt_dec (Rabs r) float_limit); [lra|reflexivity]. Qed.

(** *** One parameter *)

Lemma smooth_float (t : R) (v : double) (x : R) (p : AudioParam) :
  to_float v = Some x ->
  smooth t v p =
  ({| value := value p;
      events := cancel t (events p) ++ [SetValue (value p) t; LinearRamp x (t + smoothTime)] |},
   None).
Proof.
  intros Hv. unfold smooth, linearRampToValueAtTime. rewrite Hv.
  cbn [setValueAtTime cancelScheduledValues value events]. now rewrite <- app_assoc.
Qed.

Lemma smooth_refused (t : R) (v : double) (p : AudioParam) :
  to_float v = None ->
  smooth t v p =
  ({| value := value p; events := cancel t (events p) ++ [SetValue (value p) t] |},
   Some NotAFloat).
Proof. intros Hv. unfold smooth, linearRampToValueAtTime. now rewrite Hv. Qed.

Lemma smooth_thrown (t : R) (v : double) (p : AudioParam) :
  (smooth t v p).2 = match to_float v with Some _ => None | None => Some NotAFloat end.
Proof.
  destruct (to_float v) as [x|] eqn:Hv;
    [now rewrite (smooth_float t v x) | now rewrite smooth_refused].
Qed.

Lemma ramp_target_smooth (t : R) (v : double) (p : AudioParam) :
  ramp_target (smooth t v p).1 = to_float v.
Proof.
  destruct (to_float v) as [x|] eqn:Hv.
  - rewrite (smooth_float t v x) by exact Hv. unfold ramp_target. cbn [fst events].
    now rewrite last_app.
  - rewrite smooth_refused by exact Hv. unfold ramp_target. cbn [fst events].
    now rewrite last_app.
Qed.

Lemma same_but_nodes_refl (this : Engine) : same_but_nodes this this.
Proof. unfold same_but_nodes. tauto. Qed.

Lemma same_but_nodes_trans (this this' this'' : Engine) :
  same_but_nodes this this' -> same_but_nodes this' this'' -> same_but_nodes this this''.
Proof.
  unfold same_but_nodes.
  intros (-> & -> & -> & -> & -> & Hg & Hn) (-> & -> & -> & -> & -> & Hg' & Hn'). tauto.
Qed.

Lemma apply_parameter_frame (f : ParamName) (t : R) (this : Engine) :
  same_but_nodes this (apply_parameter f t this).1.
Proof.
  destruct this as [c g n m b l s]. unfold same_but_nodes.
  destruct f; unfold apply_parameter, smooth_gain, smooth_parameter;
    cbn [masterGain bitcrusherNode state];
    try (destruct g as [g|]; [destruct (smooth _ _ _)|]);
    try (destruct n as [n|]; [destruct (parameters n !! _); [destruct (smooth _ _ _)|]|]);
    cbn; repeat split; eauto.
Qed.

(** What one step does to the parameter it takes, and to the others. *)
Lemma apply_parameter_same (f : ParamName) (t : R) (this : Engine) :
  node_param f (apply_parameter f t this).1 =
  (fun p => (smooth t (field f (state this)) p).1) <$> node_param f this.
Proof.
  destruct this as [c g n m b l s].
  destruct f; unfold apply_parameter, smooth_gain, smooth_parameter, node_param;
    cbn [masterGain bitcrusherNode state field];
    try (destruct g as [g|]; [destruct (smooth _ _ _) eqn:Hs|]; cbn; rewrite ?Hs; reflexivity);
    (destruct n as [n|]; [|reflexivity]; cbn;
     destruct (parameters n !! _) as [p|] eqn:Hp; cbn; rewrite ?Hp; [|reflexivity];
     destruct (smooth _ _ _) eqn:Hs; cbn; now rewrite lookup_insert_eq).
Qed.

Lemma apply_parameter_other (f f' : ParamName) (t : R) (this : Engine) :
  f <> f' -> node_param f' (apply_parameter f t this).1 = node_param f' this.
Proof.
  intros Hne. destruct this as [c g n m b l s].
  destruct f, f'; try contradiction;
    unfold apply_parameter, smooth_gain, smooth_parameter, node_param;
    cbn [masterGain bitcrusherNode state field];
    try (destruct g as [g|]; [destruct (smooth _ _ _)|]; reflexivity);
    (destruct n as [n|]; [|reflexivity]; cbn;
     destruct (parameters n !! _) as [p|] eqn:Hp; cbn; [|reflexivity];
     destruct (smooth _ _ _); cbn; try reflexivity;
     now rewrite lookup_insert_ne).
Qed.

Lemma apply_parameter_thrown (f : ParamName) (t : R) (this : Engine) :
  (apply_parameter f t this).2 =
  node_param f this ≫= fun p => (smooth t (field f (state this)) p).2.
Proof.
  destruct this as [c g n m b l s].
  destruct f; unfold apply_parameter, smooth_gain, smooth_parameter, node_param;
    cbn [masterGain bitcrusherNode state field];
    try (destruct g as [g|]; [destruct (smooth _ _ _) eqn:Hs|]; cbn; rewrite ?Hs; reflexivity);
    (destruct n as [n|]; [|reflexivity]; cbn;
     destruct (parameters n !! _) as [p|] eqn:Hp; cbn; rewrite ?Hp; [|reflexivity];
     destruct (smooth _ _ _) eqn:Hs; cbn; now rewrite ?Hs).
Qed.

(** *** The parameters in turn *)

Lemma and_then_fst {A : Type} (r : A * option Error) (rest : A -> A * option Error) :
  (and_then r rest).1 = match r.2 with None => (rest r.1).1 | Some _ => r.1 end.
Proof. now destruct r as [a [e|]]. Qed.

Lemma and_then_snd {A : Type} (r : A * option Error) (rest : A -> A * option Error) :
  (and_then r rest).2 = match r.2 with None => (rest r.1).2 | Some e => Some e end.
Proof. now destruct r as [a [e|]]. Qed.

Lemma in_turn_frame (fs : list ParamName) (t : R) (this : Engine) :
  same_but_nodes this (in_turn fs t this).1.
Proof.
  revert this. induction fs as [|f fs IH]; intros this; cbn [in_turn].
  - apply same_but_nodes_refl.
  - rewrite and_then_fst. pose proof (apply_parameter_frame f t this) as Hf.
    destruct (apply_parameter f t this).2; [exact Hf|].
    eapply same_but_nodes_trans; [exact Hf | apply IH].
Qed.

Lemma in_turn_other (fs : list ParamName) (f : ParamName) (t : R) (this : Engine) :
  f ∉ fs -> node_param f (in_turn fs t this).1 = node_param f this.
Proof.
  revert this. induction fs as [|f' fs IH]; intros this Hf; cbn [in_turn]; [reflexivity|].
  apply not_elem_of_cons in Hf as [Hne Hf].
  rewrite and_then_fst.
  destruct (apply_parameter f' t this).2.
  - apply apply_parameter_other. congruence.
  - rewrite IH by exact Hf. apply apply_parameter_other. congruence.
Qed.

Lemma in_turn_app (l1 l2 : list ParamName) (t : R) (this : Engine) :
  in_turn (l1 ++ l2) t this = and_then (in_turn l1 t this) (in_turn l2 t).
Proof.
  revert this. induction l1 as [|f l1 IH]; intros this; cbn [in_turn app].
  - reflexivity.
  - destruct (apply_parameter f t this) as [this1 [e|]]; cbn [and_then]; [reflexivity|].
    apply IH.
Qed.

(** No ramp throws when every parameter the node has is given a float. *)
Lemma in_turn_returns (fs : list ParamName) (t : R) (this : Engine) :
  NoDup fs ->
  (forall (f : ParamName) (p : AudioParam),
     f ∈ fs -> node_param f this = Some p -> is_Some (to_float (field f (state this)))) ->
  (in_turn fs t this).2 = None.
Proof.
  revert this. induction fs as [|f fs IH]; intros this Hnd Hall; cbn [in_turn]; [reflexivity|].
  apply NoDup_cons in Hnd as [Hf Hnd].
  assert (Hstep : (apply_parameter f t this).2 = None).
  { rewrite apply_parameter_thrown. destruct (node_param f this) as [p|] eqn:Hp; [|reflexivity].
    cbn. rewrite smooth_thrown.
    destruct (Hall f p (list_elem_of_here _ _) Hp) as [x ->]. reflexivity. }
  rewrite and_then_snd, Hstep. apply IH; [exact Hnd|].
  intros f' p' Hin Hp'.
  destruct (apply_parameter_frame f t this) as (_ & _ & _ & _ & -> & _).
  rewrite apply_parameter_other in Hp' by (intros ->; contradiction).
  apply (Hall f' p'); [now apply list_elem_of_further | exact Hp'].
Qed.

(** A parameter is smoothed when no ramp before it throws, whatever
    happens after it. *)
Lemma in_turn_reached (pre post : list ParamName) (f : ParamName) (t : R) (this : Engine) :
  NoDup (pre ++ f :: post) ->
  (forall (f' : ParamName) (p' : AudioParam),
     f' ∈ pre -> node_param f' this = Some p' ->
     is_Some (to_float (field f' (state this)))) ->
  node_param f (in_turn (pre ++ f :: post) t this).1 =
  (fun p => (smooth t (field f (state this)) p).1) <$> node_param f this.
Proof.
  intros Hnd Hpre.
  apply NoDup_app in Hnd as (Hnd1 & Hdisj & Hnd2).
  apply NoDup_cons in Hnd2 as [Hpost _].
  assert (Hf : f ∉ pre) by (intros Hin; apply (Hdisj f Hin), list_elem_of_here).
  rewrite in_turn_app, and_then_fst, (in_turn_returns pre t this Hnd1 Hpre).
  set (this1 := (in_turn pre t this).1).
  assert (Hs : state this1 = state this)
    by (now destruct (in_turn_frame pre t this) as (_ & _ & _ & _ & Hs & _)).
  assert (Hp : node_param f this1 = node_param f this) by (now apply in_turn_other).
  cbn [in_turn]. rewrite and_then_fst.
  destruct (apply_parameter f t this1).2.
  - now rewrite apply_parameter_same, Hs, Hp.
  - rewrite in_turn_other by exact Hpost. now rewrite apply_parameter_same, Hs, Hp.
Qed.

(** At the first parameter that is given no float the ramp throws, and
    the parameters after it are left as they were. *)
Lemma in_turn_stopped (pre post : list ParamName) (f0 : ParamName) (p0 : AudioParam)
    (t : R) (this : Engine) :
  NoDup (pre ++ f0 :: post) ->
  (forall (f' : ParamName) (p' : AudioParam),
     f' ∈ pre -> node_param f' this = Some p' ->
     is_Some (to_float (field f' (state this)))) ->
  node_param f0 this = Some p0 ->
  to_float (field f0 (state this)) = None ->
  (in_turn (pre ++ f0 :: post) t this).2 = Some NotAFloat
  /\ forall f : ParamName,
       f ∈ post -> node_param f (in_turn (pre ++ f0 :: post) t this).1 = node_param f this.
Proof.
  intros Hnd Hpre Hp0 Hv.
  apply NoDup_app in Hnd as (Hnd1 & Hdisj & Hnd2).
  apply NoDup_cons in Hnd2 as [Hpost _].
  assert (Hf : f0 ∉ pre) by (intros Hin; apply (Hdisj f0 Hin), list_elem_of_here).
  rewrite in_turn_app, and_then_fst, and_then_snd, (in_turn_returns pre t this Hnd1 Hpre).
  set (this1 := (in_turn pre t this).1).
  assert (Hs : state this1 = state this)
    by (now destruct (in_turn_frame pre t this) as (_ & _ & _ & _ & Hs & _)).
  assert (Hp : node_param f0 this1 = Some p0) by (unfold this1; now rewrite in_turn_other).
  assert (Hthrown : (apply_parameter f0 t this1).2 = Some NotAFloat).
  { rewrite apply_parameter_thrown, Hp. cbn. now rewrite smooth_thrown, Hs, Hv. }
  cbn [in_turn]. rewrite and_then_fst, and_then_snd, Hthrown.
  split; [reflexivity|].
  intros f Hin.
  assert (Hne : f0 <> f) by (intros ->; contradiction).
  rewrite apply_parameter_other by exact Hne.
  apply in_turn_other. intros Hin'. apply (Hdisj f Hin'). now apply list_elem_of_further.
Qed.

Lemma NoDup_order : NoDup order.
Proof. apply (bool_decide_unpack _). reflexivity. Qed.

(** The parameters before and after a parameter in the order of
    [applyState]. *)
Lemma order_split (f : ParamName) :
  exists pre post : list ParamName,
    order = pre ++ f :: post
    /\ (forall f' : ParamName, f' ∈ pre <-> (rank f' < rank f)%nat)
    /\ (forall f' : ParamName, f' ∈ post <-> (rank f < rank f')%nat).
Proof.
  destruct f;
    [exists [], [BitDepth; Reduction; Mix]
    |exists [MasterVolume], [Reduction; Mix]
    |exists [MasterVolume; BitDepth], [Mix]
    |exists [MasterVolume; BitDepth; Reduction], []];
    (split; [reflexivity|]);
    split; intros []; apply (bool_decide_unpack _); reflexivity.
Qed.

(** *** [applyState] *)

Lemma applyState_in_turn (this : Engine) :
  applyState this =
  match ctx this, bitcrusherNode this, masterGain this with
  | Some c, Some _, Some _ => in_turn order (currentTime c) this
  | _, _, _ => (this, None)
  end.
Proof.
  unfold applyState. destruct (ctx this) as [c|]; [|reflexivity].
  destruct (bitcrusherNode this); [|reflexivity].
  destruct (masterGain this); [|reflexivity].
  cbn [in_turn order apply_parameter]. unfold and_then.
  destruct (smooth_gain _ _) as [this1 [e|]]; [reflexivity|].
  destruct (smooth_parameter "bitDepth" _ _ _) as [this2 [e|]]; [reflexivity|].
  destruct (smooth_parameter "reduction" _ _ _) as [this3 [e|]]; [reflexivity|].
  now destruct (smooth_parameter "mix" _ _ _) as [this4 [e|]].
Qed.

Lemma applyState_unwired (this : Engine) :
  ctx this = None \/ bitcrusherNode this = None \/ masterGain this = None ->
  applyState this = (this, None).
Proof.
  rewrite applyState_in_turn. intros [-> | [-> | ->]]; [reflexivity| |].
  - now destruct (ctx this).
  - destruct (ctx this); [|reflexivity]. now destruct (bitcrusherNode this).
Qed.

Lemma applyState_frame (this : Engine) : same_but_nodes this (applyState this).1.
Proof.
  rewrite applyState_in_turn.
  destruct (ctx this) as [c|]; [|apply same_but_nodes_refl].
  destruct (bitcrusherNode this); [|apply same_but_nodes_refl].
  destruct (masterGain this); [|apply same_but_nodes_refl].
  apply in_turn_frame.
Qed.

(** [applyState] returns when every parameter the graph has is given a
    finite float. *)
Lemma applyState_returns (this : Engine) :
  (forall (f : ParamName) (p : AudioParam),
     node_param f this = Some p -> is_Some (to_float (field f (state this)))) ->
  (applyState this).2 = None.
Proof.
  intros Hall. rewrite applyState_in_turn.
  destruct (ctx this) as [c|]; [|reflexivity].
  destruct (bitcrusherNode this); [|reflexivity].
  destruct (masterGain this); [|reflexivity].
  apply in_turn_returns; [apply NoDup_order | eauto].
Qed.

(** On an engine that has its context and nodes, [applyState] smooths a
    parameter of the graph towards the value the state holds for it when no
    ramp before it throws. *)
Lemma applyState_reached (f : ParamName) (this : Engine) (c : AudioContext)
    (g : GainNode) (node : AudioWorkletNode) :
  ctx this = Some c -> masterGain this = Some g -> bitcrusherNode this = Some node ->
  (forall (f' : ParamName) (p' : AudioParam),
     (rank f' < rank f)%nat -> node_param f' this = Some p' ->
     is_Some (to_float (field f' (state this)))) ->
  node_param f (applyState this).1 =
  (fun p => (smooth (currentTime c) (field f (state this)) p).1) <$> node_param f this.
Proof.
  intros Hc Hg Hn Hpre. rewrite applyState_in_turn, Hc, Hg, Hn.
  destruct (order_split f) as (pre & post & Horder & Hin_pre & _).
  pose proof NoDup_order as Hnd. rewrite Horder in *.
  apply in_turn_reached; [exact Hnd|].
  intros f' p' Hin. apply Hpre. now apply Hin_pre.
Qed.

Lemma applyState_stopped (f0 : ParamName) (p0 : AudioParam) (this : Engine)
    (c : AudioContext) (g : GainNode) (node : AudioWorkletNode) :
  ctx this = Some c -> masterGain this = Some g -> bitcrusherNode this = Some node ->
  (forall (f' : ParamName) (p' : AudioParam),
     (rank f' < rank f0)%nat -> node_param f' this = Some p' ->
     is_Some (to_float (field f' (state this)))) ->
  node_param f0 this = Some p0 ->
  to_float (field f0 (state this)) = None ->
  (applyState this).2 = Some NotAFloat
  /\ forall f : ParamName,
       (rank f0 < rank f)%nat -> node_param f (applyState this).1 = node_param f this.
Proof.
  intros Hc Hg Hn Hpre Hp0 Hv. rewrite applyState_in_turn, Hc, Hg, Hn.
  destruct (order_split f0) as (pre & post & Horder & Hin_pre & Hin_post).
  pose proof NoDup_order as Hnd. rewrite Horder in *.
  destruct (in_turn_stopped pre post f0 p0 (currentTime c) this Hnd) as [Hthrown Hafter];
    try assumption.
  { intros f' p' Hin. apply Hpre. now apply Hin_pre. }
  split; [exact Hthrown|]. intros f Hlt. apply Hafter. now apply Hin_post.
Qed.

(** What [applyState] throws is the [TypeError] of a ramp. *)
Lemma applyState_thrown (this : Engine) (e : Error) :
  (applyState this).2 = Some e ->
  e = NotAFloat
  /\ exists (f : ParamName) (p : AudioParam),
       node_param f this = Some p /\ to_float (field f (state this)) = None.
Proof.
  rewrite applyState_in_turn.
  destruct (ctx this) as [c|]; [|discriminate].
  destruct (bitcrusherNode this) as [node|] eqn:Hn; [|discriminate].
  destruct (masterGain this) as [g|] eqn:Hg; [|discriminate].
  clear Hn Hg. generalize order. intros fs. revert this.
  induction fs as [|f fs IH]; intros this; cbn [in_turn]; [discriminate|].
  rewrite and_then_snd.
  destruct (apply_parameter f (currentTime c) this).2 as [e'|] eqn:Hstep.
  - intros [= <-]. rewrite apply_parameter_thrown in Hstep.
    destruct (node_param f this) as [p|] eqn:Hp; [|discriminate]. cbn in Hstep.
    rewrite smooth_thrown in Hstep.
    destruct (to_float (field f (state this))) eqn:Hv; [discriminate|].
    injection Hstep as <-. eauto.
  - intros Hrest.
    destruct (apply_parameter_frame f (currentTime c) this) as (_ & _ & _ & _ & Hs & _).
    destruct (IH _ Hrest) as (-> & f0 & p0 & Hp0 & Hv0).
    split; [reflexivity|]. rewrite Hs in Hv0.
    destruct (decide (f = f0)) as [->|Hne].
    + rewrite apply_parameter_same in Hp0.
      destruct (node_param f0 this) as [p|] eqn:Hp; [|discriminate]. eauto.
    + rewrite apply_parameter_other in Hp0 by exact Hne. eauto.
Qed.

(** *** The invariant of the reachable states *)

Lemma node_param_ext (f : ParamName) (this this' : Engine) :
  masterGain this' = masterGain this -> bitcrusherNode this' = bitcrusherNode this ->
  node_param f this' = node_param f this.
Proof. intros Hg Hn. destruct f; cbn [node_param]; now rewrite ?Hg, ?Hn. Qed.

Lemma node_param_gain (f : ParamName) (this : Engine) (p : AudioParam) :
  node_param f this = Some p -> is_Some (masterGain this) \/ is_Some (bitcrusherNode this).
Proof.
  destruct f; cbn [node_param];
    [destruct (masterGain this); [eauto|discriminate]
    |destruct (bitcrusherNode this); [eauto|discriminate]..].
Qed.

Lemma invariant_ext (this this' : Engine) :
  masterGain this' = masterGain this -> bitcrusherNode this' = bitcrusherNode this ->
  isInitialized this' = isInitialized this -> state this' = state this ->
  (is_Some (ctx this) -> is_Some (ctx this')) ->
  wired this /\ in_sync this -> wired this' /\ in_sync this'.
Proof.
  intros Hg Hn Hi Hs Hc [(Hw1 & Hw2 & Hw3) Hsync]. split.
  - unfold wired. rewrite Hi, Hg, Hn. auto.
  - intros f p Hp. rewrite Hs. apply Hsync.
    now rewrite <- (node_param_ext f this this').
Qed.

Lemma in_sync_unwired (this : Engine) :
  masterGain this = None -> bitcrusherNode this = None -> in_sync this.
Proof.
  intros Hg Hn f p. destruct f; cbn [node_param]; rewrite ?Hg, ?Hn; discriminate.
Qed.

(** After [applyState] on an engine that has its context and nodes,
    whether it returned or threw, every parameter it reached heads for the
    value the state holds. *)
Lemma in_sync_applyState (this : Engine) (c : AudioContext) (g : GainNode)
    (node : AudioWorkletNode) :
  ctx this = Some c -> masterGain this = Some g -> bitcrusherNode this = Some node ->
  in_sync (applyState this).1.
Proof.
  intros Hc Hg Hn f p' Hp' Happ.
  destruct (applyState_frame this) as (_ & _ & _ & _ & Hs & _). rewrite Hs in *.
  rewrite (applyState_reached f this c g node) in Hp' by
    (try assumption; intros f' p0 Hlt _; apply Happ; lia).
  destruct (node_param f this) as [p|]; [|discriminate].
  injection Hp' as <-. apply ramp_target_smooth.
Qed.

Lemma wired_same_but_nodes (this this' : Engine) :
  same_but_nodes this this' -> wired this -> wired this'.
Proof.
  unfold same_but_nodes, wired.
  intros (-> & _ & -> & _ & _ & Hg & Hn) (Hw1 & Hw2 & Hw3). rewrite Hg, Hn. auto.
Qed.

Lemma applyState_invariant (this : Engine) :
  wired this -> in_sync this ->
  wired (applyState this).1 /\ in_sync (applyState this).1.
Proof.
  intros Hw Hsync.
  split; [exact (wired_same_but_nodes _ _ (applyState_frame this) Hw)|].
  destruct (ctx this) as [c|] eqn:Hc;
    [|now rewrite applyState_unwired by auto].
  destruct (bitcrusherNode this) as [node|] eqn:Hn;
    [|now rewrite applyState_unwired by auto].
  destruct (masterGain this) as [g|] eqn:Hg;
    [|now rewrite applyState_unwired by auto].
  now apply (in_sync_applyState this c g node).
Qed.

Lemma setState_engine (this : Engine) (newState : PartialState) :
  (setState this newState).1 = (applyState (with_state (spread (state this) newState) this)).1
  /\ (setState this newState).2.2 =
     (applyState (with_state (spread (state this) newState) this)).2.
Proof.
  unfold setState.
  now destruct (applyState (with_state (spread (state this) newState) this)) as [this2 [e|]].
Qed.

Lemma setState_invariant (this : Engine) (newState : PartialState) :
  wired this /\ in_sync this ->
  wired (setState this newState).1 /\ in_sync (setState this newState).1.
Proof.
  intros [Hw Hsync]. destruct (setState_engine this newState) as [-> _].
  set (this1 := with_state _ this).
  assert (Hw1 : wired this1) by exact Hw.
  split; [exact (wired_same_but_nodes _ _ (applyState_frame this1) Hw1)|].
  destruct Hw as (_ & Hw2 & Hw3).
  destruct (bitcrusherNode this) as [node|] eqn:Hn.
  - destruct (proj1 Hw2 (mk_is_Some _ _ eq_refl)) as [g Hg].
    destruct (Hw3 (mk_is_Some _ _ eq_refl)) as [c Hc].
    now apply (in_sync_applyState this1 c g node).
  - assert (Hg : masterGain this = None).
    { destruct (masterGain this) as [g|]; [|reflexivity].
      destruct (proj2 Hw2 (mk_is_Some _ _ eq_refl)) as [node Hnode]. discriminate. }
    rewrite (applyState_unwired this1) by (right; left; exact Hn).
    now apply in_sync_unwired.
Qed.

Lemma resume_invariant (host : Host) (this : Engine) :
  wired this /\ in_sync this ->
  wired (resume host this).1 /\ in_sync (resume host this).1.
Proof.
  apply invariant_ext; unfold resume;
    destruct (ctx this) as [c|] eqn:Hc; try destruct (WebAudio.state c);
    try destruct (resumes host); cbn; rewrite ?Hc; eauto.
Qed.

Lemma init_invariant (host : Host) (this : Engine) :
  wired this /\ in_sync this -> wired (init host this).1 /\ in_sync (init host this).1.
Proof.
  intros Hinv. unfold init.
  destruct (isInitialized this) eqn:Hi; [now apply resume_invariant|].
  destruct (newAudioContext host) as [c|e]; [|exact Hinv].
  assert (Hfail : wired (with_ctx (Some c) this) /\ in_sync (with_ctx (Some c) this)).
  { revert Hinv. apply invariant_ext; cbn; eauto. }
  destruct (addModule host) as [[]|e]; [|exact Hfail].
  destruct (newAudioWorkletNode host) as [node|e]; [|exact Hfail].
  unfold set_value.
  destruct (to_float (masterVolume (state _))) as [x|] eqn:Hv.
  - set (this4 := with_masterGain _ _).
    assert (Hw4 : wired this4).
    { unfold wired. cbn. rewrite Hi. repeat split; eauto; discriminate. }
    pose proof (in_sync_applyState this4 c _ node eq_refl eq_refl eq_refl) as Hsync.
    pose proof (wired_same_but_nodes _ _ (applyState_frame this4) Hw4) as Hw5.
    destruct (applyState_frame this4) as (_ & _ & _ & _ & _ & _ & Hnode).
    destruct (applyState this4) as [this5 [e|]]; cbn [fst] in *; [auto|].
    split.
    + destruct Hw5 as (_ & Hw2 & Hw3). unfold wired.
      cbn [with_isInitialized isInitialized bitcrusherNode masterGain ctx].
      split; [|auto]. intros _. apply Hnode. cbn. eauto.
    + intros f p Hp. apply Hsync. exact Hp.
  - cbn [fst]. split.
    + unfold wired. cbn. rewrite Hi. repeat split; eauto; discriminate.
    + intros f p _ Happ. exfalso.
      destruct (Happ MasterVolume ltac:(cbn; lia)) as [x Hx].
      cbn [field with_masterGain with_bitcrusherNode with_ctx state] in Hx, Hv.
      congruence.
Qed.

Lemma ramp_target_events (p p' : AudioParam) :
  events p' = events p -> ramp_target p' = ramp_target p.
Proof. intros He. unfold ramp_target. now rewrite He. Qed.

Lemma host_step_invariant (this this' : Engine) :
  host_step this this' -> wired this /\ in_sync this -> wired this' /\ in_sync this'.
Proof.
  intros [c c' Hc Hd|g g' node node' Hg Hn Hev Hevs] Hinv.
  - revert Hinv. apply invariant_ext; cbn; eauto.
  - destruct Hinv as [(Hw1 & Hw2 & Hw3) Hsync]. split.
    + unfold wired.
      cbn [with_bitcrusherNode with_masterGain isInitialized ctx masterGain bitcrusherNode].
      rewrite Hn in Hw3. repeat split; eauto.
    + intros f p'. cbn [with_bitcrusherNode with_masterGain state].
      destruct f; cbn [node_param with_bitcrusherNode with_masterGain masterGain
                       bitcrusherNode fmap option_fmap option_map mbind option_bind].
      * intros [= <-]. rewrite (ramp_target_events (gain g) (gain g') Hev).
        apply Hsync. cbn [node_param]. now rewrite Hg.
      * intros Hp'. pose proof (Hevs "bitDepth") as He. rewrite Hp' in He.
        destruct (parameters node !! "bitDepth") as [p|] eqn:Hp; [|discriminate].
        injection He as He. rewrite (ramp_target_events p p' He).
        apply Hsync. cbn [node_param]. rewrite Hn. exact Hp.
      * intros Hp'. pose proof (Hevs "reduction") as He. rewrite Hp' in He.
        destruct (parameters node !! "reduction") as [p|] eqn:Hp; [|discriminate].
        injection He as He. rewrite (ramp_target_events p p' He).
        apply Hsync. cbn [node_param]. rewrite Hn. exact Hp.
      * intros Hp'. pose proof (Hevs "mix") as He. rewrite Hp' in He.
        destruct (parameters node !! "mix") as [p|] eqn:Hp; [|discriminate].
        injection He as He. rewrite (ramp_target_events p p' He).
        apply Hsync. cbn [node_param]. rewrite Hn. exact Hp.
Qed.

Lemma step_invariant (this this' : Engine) :
  step this this' -> wired this /\ in_sync this -> wired this' /\ in_sync this'.
Proof.
  intros [host e|host e|e pad file|e pad|e newState|e cb|e cb|e e' Hhost].
  - apply init_invariant.
  - apply resume_invariant.
  - apply invariant_ext; unfold loadSample;
      destruct (ctx e) as [c|] eqn:Hc; try destruct (decodeAudioData c (arrayBuffer file));
      cbn; rewrite ?Hc; eauto.
  - apply invariant_ext; unfold triggerPad;
      destruct (ctx e) as [c|] eqn:Hc; try destruct (bitcrusherNode e) eqn:Hn;
      try destruct (samples e !! pad); cbn; rewrite ?Hc, ?Hn; eauto.
  - apply setState_invariant.
  - apply invariant_ext; cbn; eauto.
  - apply invariant_ext; cbn; eauto.
  - now apply host_step_invariant.
Qed.

(** In every reachable state an initialized engine has its context and
    nodes, and every parameter of the graph that [applyState] reaches with
    the state as it is heads for the value the state holds: that is every
    parameter when the state holds finite floats only. *)
Lemma reachable_invariant (this : Engine) :
  reachable this -> wired this /\ in_sync this.
Proof.
  unfold reachable. revert this.
  apply (rtc_ind_r (fun e : Engine => wired e /\ in_sync e) new).
  - split; [|now apply in_sync_unwired].
    unfold wired. cbn. repeat split; try discriminate; intros [x Hx]; discriminate.
  - intros e e' _ Hstep IH. now apply (step_invariant e e').
Qed.

Lemma wired_nodes (this : Engine) :
  wired this -> isInitialized this = true ->
  exists (c : AudioContext) (g : GainNode) (node : AudioWorkletNode),
    ctx this = Some c /\ masterGain this = Some g /\ bitcrusherNode this = Some node.
Proof.
  intros (Hw1 & Hw2 & Hw3) Hi.
  destruct (Hw1 Hi) as [node Hn].
  destruct (proj1 Hw2 (mk_is_Some _ _ Hn)) as [g Hg].
  destruct (Hw3 (mk_is_Some _ _ Hn)) as [c Hc]. eauto 7.
Qed.

(** ** Parameter updates *)

Lemma field_spread (f : ParamName) (s : AudioEngineState) (newState : PartialState) :
  field f (spread s newState) = default (field f s) (named f newState).
Proof. now destruct f. Qed.

Lemma field_getState (f : ParamName) (this : Engine) :
  field f (getState this) = field f (state this).
Proof. now destruct f. Qed.

Lemma getState_state (this : Engine) : getState this = state this.
Proof. unfold getState. now destruct (state this). Qed.

Lemma setState_frame (this : Engine) (newState : PartialState) :
  state (setState this newState).1 = spread (state this) newState
  /\ ctx (setState this newState).1 = ctx this
  /\ samples (setState this newState).1 = samples this
  /\ isInitialized (setState this newState).1 = isInitialized this
  /\ stateSubscribers (setState this newState).1 = stateSubscribers this.
Proof.
  destruct (setState_engine this newState) as [-> _].
  destruct (applyState_frame (with_state (spread (state this) newState) this))
    as (-> & -> & -> & -> & -> & _).
  auto.
Qed.

Lemma state_setState (this : Engine) (newState : PartialState) :
  state (setState this newState).1 = spread (state this) newState.
Proof. apply setState_frame. Qed.

(** [setState] on an engine that has its context and nodes smooths a
    parameter towards the merged value when no ramp before it throws, and
    leaves the parameters after a ramp that throws as they were. *)
Lemma setState_reached (f : ParamName) (this : Engine) (newState : PartialState)
    (c : AudioContext) (g : GainNode) (node : AudioWorkletNode) :
  ctx this = Some c -> masterGain this = Some g -> bitcrusherNode this = Some node ->
  (forall (f' : ParamName) (p' : AudioParam),
     (rank f' < rank f)%nat -> node_param f' this = Some p' ->
     is_Some (to_float (field f' (spread (state this) newState)))) ->
  node_param f (setState this newState).1 =
  (fun p => (smooth (currentTime c) (field f (spread (state this) newState)) p).1)
    <$> node_param f this.
Proof.
  intros Hc Hg Hn Hpre. destruct (setState_engine this newState) as [-> _].
  now rewrite (applyState_reached f _ c g node).
Qed.

Lemma setState_stopped (f0 : ParamName) (p0 : AudioParam) (this : Engine)
    (newState : PartialState) (c : AudioContext) (g : GainNode) (node : AudioWorkletNode) :
  ctx this = Some c -> masterGain this = Some g -> bitcrusherNode this = Some node ->
  (forall (f' : ParamName) (p' : AudioParam),
     (rank f' < rank f0)%nat -> node_param f' this = Some p' ->
     is_Some (to_float (field f' (spread (state this) newState)))) ->
  node_param f0 this = Some p0 ->
  to_float (field f0 (spread (state this) newState)) = None ->
  (setState this newState).2 = ([], Some NotAFloat)
  /\ forall f : ParamName,
       (rank f0 < rank f)%nat -> node_param f (setState this newState).1 = node_param f this.
Proof.
  intros Hc Hg Hn Hpre Hp0 Hv.
  destruct (applyState_stopped f0 p0 (with_state (spread (state this) newState) this)
              c g node Hc Hg Hn Hpre Hp0 Hv) as [Hthrown Hafter].
  unfold setState.
  destruct (applyState (with_state (spread (state this) newState) this)) as [this2 [e|]];
    cbn [fst snd] in *; [|discriminate].
  injection Hthrown as ->. auto.
Qed.

Lemma setState_returns (this : Engine) (newState : PartialState) :
  (forall f : ParamName, is_Some (to_float (field f (spread (state this) newState)))) ->
  (setState this newState).2 =
  (map (fun cb : StateSubscriber => (cb, spread (state this) newState))
     (stateSubscribers this), None).
Proof.
  intros Hall. unfold setState.
  pose proof (applyState_returns (with_state (spread (state this) newState) this)
                (fun f p _ => Hall f)) as Hnone.
  destruct (applyState_frame (with_state (spread (state this) newState) this))
    as (_ & _ & _ & Hsubs & Hstate & _).
  destruct (applyState (with_state (spread (state this) newState) this)) as [this2 [e|]];
    cbn [fst snd] in *; [discriminate|].
  unfold notifySubscribers. now rewrite getState_state, Hsubs, Hstate.
Qed.

(** C4, as the code has it: [setState] stores every value it is given as
    it is, whatever the value, and [getState] returns it; on an engine that
    has its nodes, when the value and the values stored for the parameters
    that [applyState] takes before it are finite floats, the parameter of
    the graph gets its pending events cancelled, its current value set at
    the current time, and a linear ramp to that same value, unclamped (as
    the 32-bit float it converts to), ending 20 ms later; when instead the
    value is no finite float, the ramp throws a [TypeError] after the
    events were cancelled and the current value set, [setState] throws it
    and calls no subscriber. *)
Theorem setState_stores_verbatim (this : Engine) (newState : PartialState)
    (f : ParamName) (v : double) :
  named f newState = Some v ->
  field f (state (setState this newState).1) = v
  /\ field f (getState (setState this newState).1) = v
  /\ (forall (c : AudioContext) (g : GainNode) (node : AudioWorkletNode) (p : AudioParam)
       (x : R),
       ctx this = Some c -> masterGain this = Some g -> bitcrusherNode this = Some node ->
       node_param f this = Some p ->
       applies f (spread (state this) newState) ->
       to_float v = Some x ->
       exists p' : AudioParam,
         node_param f (setState this newState).1 = Some p'
         /\ value p' = value p
         /\ events p' =
            cancel (currentTime c) (events p) ++
            [SetValue (value p) (currentTime c);
             LinearRamp x (currentTime c + smoothTime)]
         /\ target f (setState this newState).1 = Some x)
  /\ forall (c : AudioContext) (g : GainNode) (node : AudioWorkletNode) (p : AudioParam),
       ctx this = Some c -> masterGain this = Some g -> bitcrusherNode this = Some node ->
       node_param f this = Some p ->
       (forall f' : ParamName,
          (rank f' < rank f)%nat ->
          is_Some (to_float (field f' (spread (state this) newState)))) ->
       to_float v = None ->
       (setState this newState).2 = ([], Some NotAFloat)
       /\ node_param f (setState this newState).1 =
          Some {| value := value p;
                  events := cancel (currentTime c) (events p) ++
                            [SetValue (value p) (currentTime c)] |}.
Proof.
  intros Hnamed.
  assert (Hfield : field f (state (setState this newState).1) = v).
  { rewrite state_setState, field_spread, Hnamed. reflexivity. }
  split; [exact Hfield|]. split; [now rewrite field_getState|].
  split; cycle 1.
  { intros c g node p Hc Hg Hn Hp Hpre Hv.
    assert (Hv' : to_float (field f (spread (state this) newState)) = None)
      by (now rewrite field_spread, Hnamed).
    split.
    - apply (setState_stopped f p this newState c g node); auto.
    - rewrite (setState_reached f this newState c g node Hc Hg Hn), Hp by auto.
      cbn. now rewrite (smooth_refused _ _ p Hv'). }
  intros c g node p x Hc Hg Hn Hp Happ Hx.
  assert (Hnode : node_param f (setState this newState).1 =
                  Some (smooth (currentTime c) v p).1).
  { rewrite (setState_reached f this newState c g node Hc Hg Hn), Hp.
    - cbn. now rewrite field_spread, Hnamed.
    - intros f' p' Hlt _. apply Happ. lia. }
  rewrite (smooth_float _ v x p Hx) in Hnode. cbn [fst] in Hnode.
  eexists. split; [exact Hnode|]. split; [reflexivity|]. split; [reflexivity|].
  unfold target. rewrite Hnode. cbn. unfold ramp_target. cbn [events].
  now rewrite last_app.
Qed.

(** ** Initialization *)

(** When a step of starting audio fails on the host, [init] rethrows the
    host's error and leaves all but the context as it was. *)
Lemma init_failure (host : Host) (this : Engine) (e : DOMException) :
  isInitialized this = false ->
  failure host = Some e ->
  (init host this).2 = Some (HostError e)
  /\ isInitialized (init host this).1 = false
  /\ samples (init host this).1 = samples this
  /\ state (init host this).1 = state this
  /\ masterGain (init host this).1 = masterGain this
  /\ bitcrusherNode (init host this).1 = bitcrusherNode this.
Proof.
  intros Hi. unfold failure, init. rewrite Hi.
  destruct (newAudioContext host) as [c|e1]; [|intros [= <-]; auto 7].
  destruct (addModule host) as [[]|e2]; [|intros [= <-]; auto 7].
  destruct (newAudioWorkletNode host) as [node|e3]; [discriminate|intros [= <-]; auto 7].
Qed.

(** When the host's steps succeed and the stored master volume is a
    float, [init] assembles the graph and is initialized if [applyState]
    returns. *)
Lemma init_assembles (host : Host) (this : Engine) (c : AudioContext)
    (node : AudioWorkletNode) (x : R) :
  isInitialized this = false ->
  newAudioContext host = Fulfilled c ->
  addModule host = Fulfilled tt ->
  newAudioWorkletNode host = Fulfilled node ->
  to_float (masterVolume (state this)) = Some x ->
  init host this =
  match applyState (assembled c node x this) with
  | (this5, Some e) => (this5, Some e)
  | (this5, None) => (with_isInitialized true this5, None)
  end.
Proof.
  intros Hi Hc Hm Hn Hx. unfold init, set_value. rewrite Hi, Hc, Hm, Hn.
  cbn [with_masterGain with_bitcrusherNode with_ctx state]. rewrite Hx. reflexivity.
Qed.

(** When the stored master volume is no float, [init] throws at line 71,
    with the context, the node and the gain assigned. *)
Lemma init_refused (host : Host) (this : Engine) (c : AudioContext)
    (node : AudioWorkletNode) :
  isInitialized this = false ->
  newAudioContext host = Fulfilled c ->
  addModule host = Fulfilled tt ->
  newAudioWorkletNode host = Fulfilled node ->
  to_float (masterVolume (state this)) = None ->
  init host this =
  (with_masterGain (Some createGain)
     (with_bitcrusherNode (Some node) (with_ctx (Some c) this)),
   Some NotAFloat).
Proof.
  intros Hi Hc Hm Hn Hx. unfold init, set_value. rewrite Hi, Hc, Hm, Hn.
  cbn [with_masterGain with_bitcrusherNode with_ctx state]. rewrite Hx. reflexivity.
Qed.

Lemma init_success (host : Host) (this : Engine) (c : AudioContext)
    (node : AudioWorkletNode) :
  isInitialized this = false ->
  newAudioContext host = Fulfilled c ->
  addModule host = Fulfilled tt ->
  newAudioWorkletNode host = Fulfilled node ->
  (forall f : ParamName, is_Some (to_float (field f (state this)))) ->
  exists x : R,
    to_float (masterVolume (state this)) = Some x
    /\ init host this = (with_isInitialized true (applyState (assembled c node x this)).1, None)
    /\ ctx (init host this).1 = Some c
    /\ samples (init host this).1 = samples this
    /\ state (init host this).1 = state this
    /\ stateSubscribers (init host this).1 = stateSubscribers this
    /\ isInitialized (init host this).1 = true
    /\ forall f : ParamName,
         node_param f (init host this).1 =
         (fun p => (smooth (currentTime c) (field f (state this)) p).1)
           <$> node_param f (assembled c node x this).
Proof.
  intros Hi Hc Hm Hn Hall.
  destruct (Hall MasterVolume) as [x Hx]. cbn [field] in Hx. exists x.
  split; [exact Hx|].
  rewrite (init_assembles host this c node x Hi Hc Hm Hn Hx).
  assert (Hall' : forall f : ParamName,
             is_Some (to_float (field f (state (assembled c node x this)))))
    by exact Hall.
  pose proof (applyState_returns (assembled c node x this) (fun f p _ => Hall' f)) as Hnone.
  destruct (applyState_frame (assembled c node x this)) as (Hc5 & Hs5 & _ & Hl5 & Hst5 & _).
  assert (Hpar : forall f : ParamName,
             node_param f (applyState (assembled c node x this)).1 =
             (fun p => (smooth (currentTime c) (field f (state this)) p).1)
               <$> node_param f (assembled c node x this)).
  { intros f. change (state this) with (state (assembled c node x this)).
    eapply (applyState_reached f _ c _ node); try reflexivity.
    intros f' p' _ _. apply Hall'. }
  destruct (applyState (assembled c node x this)) as [this5 [e|]];
    cbn [fst snd] in *; [discriminate|].
  split; [reflexivity|].
  cbn [fst with_isInitialized ctx samples state stateSubscribers isInitialized].
  repeat (split; [assumption || reflexivity|]).
  intros f. rewrite <- Hpar. now apply node_param_ext.
Qed.

Lemma new_floats (f : ParamName) : is_Some (to_float (field f (state new))).
Proof.
  destruct f; cbn [field state new masterVolume bitDepth reduction mix];
    rewrite to_float_small by lra; eauto.
Qed.

(** The engine started on the demo host, in either state of the context. *)
Lemma demo_engine (s : AudioContextState) :
  (init (demo_host s) new).2 = None
  /\ ctx (init (demo_host s) new).1 = Some (demo_context s)
  /\ samples (init (demo_host s) new).1 = ∅
  /\ state (init (demo_host s) new).1 = state new
  /\ isInitialized (init (demo_host s) new).1 = true
  /\ reachable (init (demo_host s) new).1
  /\ forall f : ParamName,
       exists (p : AudioParam) (x : R),
         node_param f (init (demo_host s) new).1 = Some p
         /\ to_float (field f (state new)) = Some x
         /\ ramp_target p = Some x.
Proof.
  destruct (init_success (demo_host s) new (demo_context s) bitcrusher_node
              eq_refl eq_refl eq_refl eq_refl new_floats)
    as (x & Hx & Hinit & Hc & Hs & Hst & _ & Hi & Hpar).
  split; [now rewrite Hinit|]. repeat (split; [assumption|]).
  split; [apply rtc_once, step_init|].
  intros f. destruct (new_floats f) as [y Hy].
  assert (Hp : is_Some (node_param f (assembled (demo_context s) bitcrusher_node x new)))
    by (destruct f; cbn; eauto).
  destruct Hp as [p Hp].
  eexists _, y. rewrite Hpar, Hp. split; [reflexivity|]. split; [exact Hy|].
  now rewrite ramp_target_smooth.
Qed.

Lemma reachable_nodes (this : Engine) :
  reachable this -> isInitialized this = true ->
  exists (c : AudioContext) (g : GainNode) (node : AudioWorkletNode),
    ctx this = Some c /\ masterGain this = Some g /\ bitcrusherNode this = Some node.
Proof.
  intros Hreach. apply wired_nodes. now destruct (reachable_invariant this Hreach).
Qed.

(** C4, counterexample: on an engine started on the demo host, whose
    state is within the ranges, [setState({ bitDepth: 100 })] leaves a bit
    depth of 100 in the state, outside [1,16], and ramps the parameter of
    the node to 100. *)
Lemma setState_stores_out_of_range :
  (forall f : ParamName,
     exists r : R,
       field f (state (init (demo_host running) new).1) = Val (Num r) /\ in_range f r)
  /\ field BitDepth
       (getState (setState (init (demo_host running) new).1
                    (only BitDepth (Val (Num 100)))).1) = Val (Num 100)
  /\ ~ in_range BitDepth 100
  /\ target BitDepth
       (setState (init (demo_host running) new).1 (only BitDepth (Val (Num 100)))).1 =
     Some 100.
Proof.
  destruct (demo_engine running) as (_ & Hc & _ & Hst & Hi & Hreach & Hpar).
  destruct (reachable_nodes _ Hreach Hi) as (c & g & node & Hc' & Hg & Hn).
  set (e := (init (demo_host running) new).1) in *.
  split; [|split; [|split]].
  - intros f. rewrite Hst. destruct f; eexists; (split; [reflexivity|]); cbn; lra.
  - rewrite field_getState, state_setState, field_spread. reflexivity.
  - cbn. lra.
  - destruct (Hpar BitDepth) as (p & x & Hp & _ & _).
    unfold target.
    rewrite (setState_reached BitDepth e _ c g node Hc' Hg Hn), Hp.
    + cbn [fmap option_fmap option_map mbind option_bind].
      rewrite ramp_target_smooth, field_spread. cbn [named only default].
      apply to_float_exact; [apply (is_float32_IZR 100); reflexivity | lra].
    + intros f' p' Hlt _. rewrite field_spread, Hst.
      destruct f'; cbn in Hlt; try lia.
      cbn [named only default from_option id field state new masterVolume bitDepth reduction mix masterVolume_opt bitDepth_opt reduction_opt mix_opt]. rewrite to_float_small by lra. eauto.
Qed.

Lemma setState_stores_verbatim_witness :
  named BitDepth (only BitDepth (Val (Num 100))) = Some (Val (Num 100))
  /\ field BitDepth
       (state (setState (init (demo_host running) new).1
                 (only BitDepth (Val (Num 100)))).1) = Val (Num 100)
  /\ exists p' : AudioParam,
       node_param BitDepth
         (setState (init (demo_host running) new).1 (only BitDepth (Val (Num 100)))).1 =
       Some p'
       /\ last (events p') = Some (LinearRamp 100 (0 + smoothTime)).
Proof.
  destruct (demo_engine running) as (_ & Hc & _ & Hst & Hi & Hreach & Hpar).
  destruct (reachable_nodes _ Hreach Hi) as (c & g & node & Hc' & Hg & Hn).
  destruct (Hpar BitDepth) as (p & x & Hp & _ & _).
  pose proof (setState_stores_verbatim (init (demo_host running) new).1
                (only BitDepth (Val (Num 100))) BitDepth (Val (Num 100)) eq_refl)
    as (Hfield & _ & Hramp & _).
  split; [reflexivity|]. split; [exact Hfield|].
  assert (Happ : applies BitDepth
                   (spread (state (init (demo_host running) new).1)
                      (only BitDepth (Val (Num 100))))).
  { intros f' Hle. rewrite field_spread, Hst.
    destruct f'; cbn in Hle; try lia;
      cbn [named only default from_option id field state new masterVolume bitDepth reduction mix masterVolume_opt bitDepth_opt reduction_opt mix_opt];
      unfold Datatypes.id; rewrite to_float_small by lra; eauto. }
  destruct (Hramp c g node p 100 Hc' Hg Hn Hp Happ
              (to_float_exact 100 (is_float32_IZR 100 eq_refl) ltac:(lra)))
    as (p' & Hp' & _ & Hev & _).
  exists p'. split; [exact Hp'|].
  rewrite Hev, last_app. cbn.
  assert (Hcc : c = demo_context running) by congruence.
  now rewrite Hcc.
Defined.

(** ** Samples and pads *)

Lemma triggerPad_plays (this : Engine) (c : AudioContext) (node : AudioWorkletNode)
    (buf : AudioBuffer) (padIndex : Z) :
  ctx this = Some c -> bitcrusherNode this = Some node ->
  samples this !! padIndex = Some buf ->
  triggerPad this padIndex =
  with_ctx (Some {| WebAudio.state := WebAudio.state c;
                    currentTime := currentTime c;
                    sources := sources c ++ [{| buffer := buf; startTime := 0 |}];
                    decodeAudioData := decodeAudioData c |}) this.
Proof.
  intros Hc Hn Hs. unfold triggerPad. rewrite Hc, Hn, Hs. reflexivity.
Qed.

Lemma triggerPad_samples (this : Engine) (padIndex : Z) :
  samples (triggerPad this padIndex) = samples this
  /\ bitcrusherNode (triggerPad this padIndex) = bitcrusherNode this.
Proof.
  unfold triggerPad.
  destruct (ctx this), (bitcrusherNode this) eqn:Hn; try destruct (samples this !! padIndex);
    cbn; rewrite ?Hn; auto.
Qed.

Lemma loadSample_decoded (this : Engine) (c : AudioContext) (padIndex : Z) (file : File)
    (buf : AudioBuffer) :
  ctx this = Some c -> decodeAudioData c (arrayBuffer file) = Some buf ->
  loadSample this padIndex file =
  (with_samples (<[padIndex := buf]> (samples this)) this, None).
Proof. intros Hc Hd. unfold loadSample. now rewrite Hc, Hd. Qed.

Lemma loadSample_rejected (this : Engine) (c : AudioContext) (padIndex : Z) (file : File) :
  ctx this = Some c -> decodeAudioData c (arrayBuffer file) = None ->
  loadSample this padIndex file = (this, Some EncodingError).
Proof. intros Hc Hd. unfold loadSample. now rewrite Hc, Hd. Qed.

(** C5, as the code has it: when a step of starting audio fails on the
    host, [init] on an engine that is not initialized throws the host's
    error and the engine is still not initialized; on an engine that has no
    audio context [triggerPad] does nothing and [loadSample] rejects with
    the engine's own error and changes nothing; and on an initialized
    engine, whether its context is running or suspended, [loadSample]
    binds the sample that the bytes decode to and [triggerPad] on a pad
    that has a sample starts a source that plays it. *)
Theorem init_failure_and_calls_without_context (host : Host) (this : Engine)
    (padIndex : Z) (file : File) :
  (forall e : DOMException,
     isInitialized this = false -> failure host = Some e ->
     (init host this).2 = Some (HostError e)
     /\ initialized (init host this).1 = false
     /\ phase (init host this).1 = Uninitialized)
  /\ (ctx this = None ->
      triggerPad this padIndex = this
      /\ loadSample this padIndex file = (this, Some NotInitialized))
  /\ (reachable this -> initialized this = true ->
      exists c : AudioContext,
        ctx this = Some c
        /\ (phase this = Ready \/ phase this = Suspended)
        /\ (forall buf : AudioBuffer,
              decodeAudioData c (arrayBuffer file) = Some buf ->
              (loadSample this padIndex file).2 = None
              /\ samples (loadSample this padIndex file).1 !! padIndex = Some buf)
        /\ (forall buf : AudioBuffer,
              samples this !! padIndex = Some buf ->
              exists c' : AudioContext,
                ctx (triggerPad this padIndex) = Some c'
                /\ sources c' = sources c ++ [{| buffer := buf; startTime := 0 |}])).
Proof.
  split; [|split].
  - intros e Hi Hfail.
    destruct (init_failure host this e Hi Hfail) as (Herr & Hi' & _).
    split; [exact Herr|]. split; [exact Hi'|].
    unfold phase. now rewrite Hi'.
  - intros Hc. unfold triggerPad, loadSample. now rewrite Hc.
  - intros Hreach Hi. unfold initialized in Hi.
    destruct (reachable_nodes this Hreach Hi) as (c & g & node & Hc & _ & Hn).
    exists c. split; [exact Hc|]. split; [|split].
    + unfold phase. rewrite Hi, Hc. destruct (WebAudio.state c); auto.
    + intros buf Hd. rewrite (loadSample_decoded this c padIndex file buf Hc Hd).
      split; [reflexivity|]. apply lookup_insert_eq.
    + intros buf Hs. rewrite (triggerPad_plays this c node buf padIndex Hc Hn Hs).
      eexists. split; reflexivity.
Qed.

Lemma init_failure_and_calls_without_context_witness :
  (init deaf_host new).2 = Some (HostError "NotSupportedError")
  /\ initialized (init deaf_host new).1 = false
  /\ triggerPad new 0 = new
  /\ loadSample new 0 (demo_file "kick.wav" [Byte.x00]) = (new, Some NotInitialized)
  /\ phase (init (demo_host suspended) new).1 = Suspended
  /\ (loadSample (init (demo_host suspended) new).1 0
        (demo_file "kick.wav" [Byte.x00])).2 = None
  /\ samples (loadSample (init (demo_host suspended) new).1 0
                (demo_file "kick.wav" [Byte.x00])).1 !! 0%Z =
     Some {| sampleRate := 44100; channelData := [[Num 0]] |}.
Proof.
  pose proof (init_failure_and_calls_without_context deaf_host new 0
                (demo_file "kick.wav" [Byte.x00])) as (Hinit & Hcalls & _).
  destruct (Hinit "NotSupportedError" eq_refl eq_refl) as (Herr & Hi & _).
  destruct (Hcalls eq_refl) as [Htrigger Hload].
  destruct (demo_engine suspended) as (_ & Hc & _ & _ & Hi' & Hreach & _).
  pose proof (init_failure_and_calls_without_context deaf_host
                (init (demo_host suspended) new).1 0
                (demo_file "kick.wav" [Byte.x00])) as (_ & _ & Hstarted).
  destruct (Hstarted Hreach Hi') as (c & Hc' & _ & Hbinds & _).
  assert (Hcc : c = demo_context suspended) by congruence. subst c.
  destruct (Hbinds {| sampleRate := 44100; channelData := [[Num 0]] |} eq_refl)
    as [Hnone Hbound].
  repeat (split; [assumption|]).
  split; [unfold phase; now rewrite Hi', Hc|]. split; assumption.
Defined.

(** C5, counterexample: an engine initialized on a host whose context
    starts suspended is in the state Suspended, and there [loadSample]
    binds the decoded sample to the pad and [triggerPad] starts a source
    that plays it. *)
Lemma suspended_engine_loads_and_plays :
  phase (init (demo_host suspended) new).1 = Suspended
  /\ samples (init (demo_host suspended) new).1 !! 0%Z = None
  /\ exists buf : AudioBuffer,
       samples (loadSample (init (demo_host suspended) new).1 0
                  (demo_file "kick.wav" [Byte.x00])).1 !! 0%Z = Some buf
       /\ sources <$> ctx (triggerPad
                             (loadSample (init (demo_host suspended) new).1 0
                                (demo_file "kick.wav" [Byte.x00])).1 0) =
          Some [{| buffer := buf; startTime := 0 |}].
Proof.
  destruct (demo_engine suspended) as (_ & Hc & Hs & _ & Hi & Hreach & _).
  destruct (reachable_nodes _ Hreach Hi) as (c & g & node & Hc' & _ & Hn).
  set (e := (init (demo_host suspended) new).1) in *.
  split; [unfold phase; now rewrite Hi, Hc|].
  split; [now rewrite Hs|].
  exists {| sampleRate := 44100; channelData := [[Num 0]] |}.
  rewrite (loadSample_decoded e (demo_context suspended) 0
             (demo_file "kick.wav" [Byte.x00])
             {| sampleRate := 44100; channelData := [[Num 0]] |} Hc eq_refl).
  cbn [fst with_samples samples]. split; [apply lookup_insert_eq|].
  rewrite (triggerPad_plays _ (demo_context suspended) node
             {| sampleRate := 44100; channelData := [[Num 0]] |} 0);
    [reflexivity | exact Hc | exact Hn | apply lookup_insert_eq].
Qed.

(** C6, as the code has it: on an engine that has no audio context
    [loadSample] rejects with the engine's own error, whatever the bytes,
    and changes nothing; on an engine that has its context it rejects with
    the decoder's error exactly when the decoder rejects the bytes of the
    file, and then no field of the engine has changed; when the bytes
    decode, the call succeeds and the only change is that the pad is bound
    to the decoded sample, the other pads keeping their bindings; after two
    such calls for one pad the bindings are those of the second call alone,
    and on an initialized engine a trigger of the pad then plays the second
    sample. *)
Theorem loadSample_binds_or_leaves (this : Engine) (padIndex : Z) (file : File) :
  (ctx this = None ->
   loadSample this padIndex file = (this, Some NotInitialized))
  /\ forall c : AudioContext,
       ctx this = Some c ->
       ((loadSample this padIndex file).2 = Some EncodingError <->
        decodeAudioData c (arrayBuffer file) = None)
       /\ ((loadSample this padIndex file).2 = None <->
           is_Some (decodeAudioData c (arrayBuffer file)))
       /\ (decodeAudioData c (arrayBuffer file) = None ->
           (loadSample this padIndex file).1 = this)
       /\ (forall buf : AudioBuffer,
             decodeAudioData c (arrayBuffer file) = Some buf ->
             (loadSample this padIndex file).1 =
               with_samples (<[padIndex := buf]> (samples this)) this
             /\ samples (loadSample this padIndex file).1 !! padIndex = Some buf
             /\ (forall other : Z, other <> padIndex ->
                   samples (loadSample this padIndex file).1 !! other =
                   samples this !! other)
             /\ forall (file2 : File) (buf2 : AudioBuffer),
                  decodeAudioData c (arrayBuffer file2) = Some buf2 ->
                  (loadSample (loadSample this padIndex file).1 padIndex file2).1 =
                    with_samples (<[padIndex := buf2]> (samples this)) this
                  /\ (reachable this -> isInitialized this = true ->
                      sources <$> ctx (triggerPad
                        (loadSample (loadSample this padIndex file).1 padIndex file2).1
                        padIndex) =
                      Some (sources c ++ [{| buffer := buf2; startTime := 0 |}]))).
Proof.
  split; [intros Hc; unfold loadSample; now rewrite Hc|].
  intros c Hc. split; [|split; [|split]].
  - unfold loadSample. rewrite Hc.
    destruct (decodeAudioData c (arrayBuffer file)); cbn; split; congruence.
  - unfold loadSample. rewrite Hc.
    destruct (decodeAudioData c (arrayBuffer file)); cbn; split;
      try congruence; eauto.
    intros [x Hx]. discriminate.
  - intros Hd. now rewrite (loadSample_rejected this c).
  - intros buf Hd. rewrite (loadSample_decoded this c padIndex file buf Hc Hd).
    cbn [fst]. split; [reflexivity|]. split; [apply lookup_insert_eq|].
    split; [intros other Hne; now apply lookup_insert_ne|].
    intros file2 buf2 Hd2.
    rewrite (loadSample_decoded (with_samples (<[padIndex := buf]> (samples this)) this)
               c padIndex file2 buf2 Hc Hd2).
    cbn [fst with_samples samples ctx masterGain bitcrusherNode isInitialized
         stateSubscribers state].
    rewrite insert_insert_eq. split; [reflexivity|].
    intros Hreach Hi.
    destruct (reachable_nodes this Hreach Hi) as (c' & g & node & _ & _ & Hn).
    rewrite (triggerPad_plays _ c node buf2 padIndex);
      [reflexivity | exact Hc | exact Hn | apply lookup_insert_eq].
Qed.

Lemma loadSample_binds_or_leaves_witness :
  loadSample new 3 (demo_file "empty.wav" []) = (new, Some NotInitialized)
  /\ ((loadSample (init (demo_host running) new).1 3 (demo_file "empty.wav" [])).2 =
        Some EncodingError <->
      decodeAudioData (demo_context running) (arrayBuffer (demo_file "empty.wav" [])) =
        None).
Proof.
  destruct (demo_engine running) as (_ & Hc & _).
  split.
  - exact (proj1 (loadSample_binds_or_leaves new 3 (demo_file "empty.wav" [])) eq_refl).
  - exact (proj1 (proj2 (loadSample_binds_or_leaves (init (demo_host running) new).1
                           3 (demo_file "empty.wav" []))
                    (demo_context running) Hc)).
Defined.

(** C6, counterexample: on a new engine, which has no audio context,
    [loadSample] with bytes that the decoder of a context takes for audio
    data fails all the same, and with the engine's own error, not a decode
    error. *)
Lemma loadSample_without_context_fails :
  is_Some (demo_decoder (arrayBuffer (demo_file "kick.wav" [Byte.x00])))
  /\ (loadSample new 0 (demo_file "kick.wav" [Byte.x00])).2 = Some NotInitialized
  /\ NotInitialized <> EncodingError
  /\ (loadSample new 0 (demo_file "kick.wav" [Byte.x00])).1 = new.
Proof.
  split; [cbn; eauto|]. split; [reflexivity|]. split; [discriminate|reflexivity].
Qed.

(** ** The paths on which a ramp throws *)

Lemma apply_parameter_keeps (f f' : ParamName) (t : R) (this : Engine) :
  is_Some (node_param f' (apply_parameter f t this).1) <-> is_Some (node_param f' this).
Proof.
  destruct (decide (f = f')) as [<-|Hne].
  - rewrite apply_parameter_same. apply fmap_is_Some.
  - now rewrite apply_parameter_other.
Qed.

Lemma in_turn_keeps (fs : list ParamName) (f' : ParamName) (t : R) (this : Engine) :
  is_Some (node_param f' (in_turn fs t this).1) <-> is_Some (node_param f' this).
Proof.
  revert this. induction fs as [|f fs IH]; intros this; cbn [in_turn]; [reflexivity|].
  rewrite and_then_fst.
  destruct (apply_parameter f t this).2; [|rewrite IH]; apply apply_parameter_keeps.
Qed.

Lemma setState_keeps (f : ParamName) (this : Engine) (newState : PartialState) :
  is_Some (node_param f (setState this newState).1) <-> is_Some (node_param f this).
Proof.
  destruct (setState_engine this newState) as [-> _].
  set (this1 := with_state (spread (state this) newState) this).
  assert (Hsame : node_param f this1 = node_param f this) by now apply node_param_ext.
  rewrite <- Hsame, applyState_in_turn.
  destruct (ctx this1), (bitcrusherNode this1), (masterGain this1); try reflexivity.
  apply in_turn_keeps.
Qed.

Lemma reachable_setState (this : Engine) (newState : PartialState) :
  reachable this -> reachable (setState this newState).1.
Proof. intros Hreach. eapply rtc_r; [exact Hreach | apply step_setState]. Qed.

Ltac stored :=
  rewrite ?field_spread, ?state_setState, ?field_spread;
  cbn [named only default from_option field state new masterVolume bitDepth reduction mix
       masterVolume_opt bitDepth_opt reduction_opt mix_opt];
  unfold Datatypes.id.

(** Where [triggerPad] does nothing: without context, without node, or
    on a pad without sample. *)
Lemma triggerPad_idle (this : Engine) (padIndex : Z) :
  ctx this = None \/ bitcrusherNode this = None \/ samples this !! padIndex = None ->
  triggerPad this padIndex = this.
Proof.
  unfold triggerPad. intros [-> | [Hn | Hs]]; [reflexivity | |].
  - rewrite Hn. now destruct (ctx this).
  - rewrite Hs. now destruct (ctx this), (bitcrusherNode this).
Qed.

(** C7, the failing input: an engine is given a master volume that is no
    number and audio is then started on a host where every step succeeds.
    [init] throws at the assignment of the gain's value, after the
    context, the node and the gain were assigned, and the engine is not
    initialized.  [loadSample] binds a sample to pad 0 all the same, and
    [triggerPad] on this uninitialized engine starts a source. *)
Lemma triggerPad_after_failed_init :
  half_started.2 = Some NotAFloat
  /\ initialized half_started.1 = false
  /\ phase half_started.1 = Uninitialized
  /\ sources <$> ctx half_started.1 = Some []
  /\ samples (loadSample half_started.1 0 (demo_file "kick.wav" [Byte.x00])).1 !! 0%Z =
     Some {| sampleRate := 44100; channelData := [[Num 0]] |}
  /\ sources <$> ctx (triggerPad
                        (loadSample half_started.1 0 (demo_file "kick.wav" [Byte.x00])).1
                        0) =
     Some [{| buffer := {| sampleRate := 44100; channelData := [[Num 0]] |};
              startTime := 0 |}].
Proof.
  assert (Hinit : half_started =
                  (with_masterGain (Some createGain)
                     (with_bitcrusherNode (Some bitcrusher_node)
                        (with_ctx (Some (demo_context running))
                           (setState new (only MasterVolume (Val NaN))).1)),
                   Some NotAFloat))
    by (apply init_refused; reflexivity).
  rewrite Hinit. cbn [fst snd].
  set (e := with_masterGain _ _).
  assert (Hc : ctx e = Some (demo_context running)) by reflexivity.
  assert (Hn : bitcrusherNode e = Some bitcrusher_node) by reflexivity.
  split; [reflexivity|]. split; [reflexivity|]. split; [reflexivity|].
  split; [reflexivity|].
  rewrite (loadSample_decoded e (demo_context running) 0 (demo_file "kick.wav" [Byte.x00])
             {| sampleRate := 44100; channelData := [[Num 0]] |} Hc eq_refl).
  cbn [fst]. split; [apply lookup_insert_eq|].
  rewrite (triggerPad_plays _ (demo_context running) bitcrusher_node
             {| sampleRate := 44100; channelData := [[Num 0]] |} 0);
    [reflexivity | exact Hc | exact Hn | apply lookup_insert_eq].
Qed.

(** What [setState] keeps of a parameter its argument does not name:
    the stored value always, and the target of the ramp when the state and
    the graph are in step up to this parameter. *)
Lemma setState_keeps_unnamed_fields (this : Engine) (newState : PartialState)
    (f : ParamName) :
  named f newState = None ->
  field f (state (setState this newState).1) = field f (state this)
  /\ field f (getState (setState this newState).1) = field f (getState this).
Proof.
  intros Hnamed. rewrite !field_getState, state_setState, field_spread, Hnamed. auto.
Qed.

Lemma setState_keeps_unnamed_targets (this : Engine) (newState : PartialState)
    (f : ParamName) :
  reachable this ->
  named f newState = None ->
  applies f (state this) ->
  applies f (spread (state this) newState) ->
  target f (setState this newState).1 = target f this.
Proof.
  intros Hreach Hnamed Hold Hnew.
  destruct (reachable_invariant this Hreach) as [(_ & Hgn & Hnc) Hsync].
  unfold target. destruct (node_param f this) as [p|] eqn:Hp; cycle 1.
  { destruct (node_param f (setState this newState).1) eqn:H; [|reflexivity].
    apply mk_is_Some in H. rewrite setState_keeps, Hp in H. now destruct H. }
  assert (Hnode : is_Some (bitcrusherNode this)).
  { destruct (node_param_gain f this p Hp) as [Hg|Hn]; [now apply Hgn | exact Hn]. }
  destruct Hnode as [node Hn].
  destruct (proj1 Hgn (mk_is_Some _ _ Hn)) as [g Hg].
  destruct (Hnc (mk_is_Some _ _ Hn)) as [c Hc].
  rewrite (setState_reached f this newState c g node Hc Hg Hn), Hp
    by (intros f' p' Hlt _; apply Hnew; lia).
  cbn [fmap option_fmap option_map mbind option_bind].
  rewrite ramp_target_smooth, field_spread, Hnamed. cbn [default from_option].
  symmetry. now apply Hsync.
Qed.

(** C10, the failing input: on a started engine a bit depth that is no
    number makes [setState] throw at the ramp of the bit depth; a mix of
    one half given next is stored, but [setState] throws again at the bit
    depth, before the ramp of the mix, whose parameter still heads for 1.
    A valid bit depth given then, in a call that names the bit depth
    alone, moves the target of the mix from 1 to one half. *)
Lemma setState_after_thrown_ramp :
  (setState (init (demo_host running) new).1 (only BitDepth (Val NaN))).2 =
    ([], Some NotAFloat)
  /\ (setState (setState (init (demo_host running) new).1 (only BitDepth (Val NaN))).1
        (only Mix (Val (Num (1 / 2))))).2 = ([], Some NotAFloat)
  /\ field Mix (getState out_of_step) = Val (Num (1 / 2))
  /\ target Mix out_of_step = Some 1
  /\ named Mix (only BitDepth (Val (Num 8))) = None
  /\ (setState out_of_step (only BitDepth (Val (Num 8)))).2 = ([], None)
  /\ field Mix (getState (setState out_of_step (only BitDepth (Val (Num 8)))).1) =
     Val (Num (1 / 2))
  /\ target Mix (setState out_of_step (only BitDepth (Val (Num 8)))).1 = Some (1 / 2).
Proof.
  destruct (demo_engine running) as (_ & _ & _ & Hst & Hi & Hreach & Hpar).
  unfold out_of_step.
  set (e0 := (init (demo_host running) new).1) in *.
  set (e1 := (setState e0 (only BitDepth (Val NaN))).1).
  set (e2 := (setState e1 (only Mix (Val (Num (1 / 2))))).1).
  assert (Hst1 : state e1 = spread (state new) (only BitDepth (Val NaN)))
    by (unfold e1; now rewrite state_setState, Hst).
  assert (Hst2 : state e2 =
                 spread (spread (state new) (only BitDepth (Val NaN)))
                   (only Mix (Val (Num (1 / 2)))))
    by (unfold e2; now rewrite state_setState, Hst1).
  assert (Hreach1 : reachable e1) by now apply reachable_setState.
  assert (Hreach2 : reachable e2) by now apply reachable_setState.
  assert (Hi1 : isInitialized e1 = true)
    by (unfold e1; now destruct (setState_frame e0 (only BitDepth (Val NaN)))
                     as (_ & _ & _ & -> & _)).
  assert (Hi2 : isInitialized e2 = true)
    by (unfold e2; now destruct (setState_frame e1 (only Mix (Val (Num (1 / 2)))))
                     as (_ & _ & _ & -> & _)).
  destruct (reachable_nodes e0 Hreach Hi) as (c0 & g0 & n0 & Hc0 & Hg0 & Hn0).
  destruct (reachable_nodes e1 Hreach1 Hi1) as (c1 & g1 & n1 & Hc1 & Hg1 & Hn1).
  destruct (reachable_nodes e2 Hreach2 Hi2) as (c2 & g2 & n2 & Hc2 & Hg2 & Hn2).
  destruct (Hpar BitDepth) as (pb & xb & Hpb & _ & _).
  destruct (Hpar Mix) as (pm & xm & Hpm & Hxm & Htm).
  assert (Hxm1 : xm = 1).
  { revert Hxm. stored.
    rewrite (to_float_exact 1 (is_float32_IZR 1 eq_refl)) by lra. now intros [= <-]. }
  subst xm.
  destruct (setState_stopped BitDepth pb e0 (only BitDepth (Val NaN)) c0 g0 n0
              Hc0 Hg0 Hn0) as [Hthrown1 Hafter1]; [| exact Hpb | rewrite Hst; reflexivity |].
  { intros f' p' Hlt _. rewrite Hst. destruct f'; cbn in Hlt; try lia.
    stored. rewrite to_float_small by lra. eauto. }
  assert (Hpb1 : is_Some (node_param BitDepth e1))
    by (unfold e1; rewrite setState_keeps, Hpb; eauto).
  destruct Hpb1 as [pb1 Hpb1].
  destruct (setState_stopped BitDepth pb1 e1 (only Mix (Val (Num (1 / 2)))) c1 g1 n1
              Hc1 Hg1 Hn1) as [Hthrown2 Hafter2]; [| exact Hpb1 | rewrite Hst1; reflexivity |].
  { intros f' p' Hlt _. rewrite Hst1. destruct f'; cbn in Hlt; try lia.
    stored. rewrite to_float_small by lra. eauto. }
  assert (Hpm2 : node_param Mix e2 = Some pm).
  { unfold e2. rewrite Hafter2 by (cbn; lia). unfold e1.
    rewrite Hafter1 by (cbn; lia). exact Hpm. }
  assert (Hfloats : forall f : ParamName,
             is_Some (to_float (field f (spread (state e2) (only BitDepth (Val (Num 8))))))).
  { intros f. rewrite Hst2. destruct f; stored; rewrite to_float_small by lra; eauto. }
  split; [exact Hthrown1|]. split; [exact Hthrown2|].
  split; [rewrite field_getState, Hst2; reflexivity|].
  split; [unfold target; rewrite Hpm2; exact Htm|].
  split; [reflexivity|].
  split.
  { rewrite (setState_returns e2 _ Hfloats).
    destruct (setState_frame e1 (only Mix (Val (Num (1 / 2))))) as (_ & _ & _ & _ & Hs2).
    destruct (setState_frame e0 (only BitDepth (Val NaN))) as (_ & _ & _ & _ & Hs1).
    fold e2 in Hs2. fold e1 in Hs2, Hs1. rewrite Hs2, Hs1.
    destruct (init_success (demo_host running) new (demo_context running) bitcrusher_node
                eq_refl eq_refl eq_refl eq_refl new_floats)
      as (_ & _ & _ & _ & _ & _ & Hsubs & _).
    fold e0 in Hsubs. rewrite Hsubs. reflexivity. }
  split; [rewrite field_getState, state_setState, Hst2; reflexivity|].
  unfold target.
  rewrite (setState_reached Mix e2 _ c2 g2 n2 Hc2 Hg2 Hn2), Hpm2
    by (intros f' p' _ _; apply Hfloats).
  cbn [fmap option_fmap option_map mbind option_bind].
  rewrite ramp_target_smooth, Hst2. stored.
  apply to_float_exact; [apply is_float32_half | lra].
Qed.

End EngineFacts.

(** * Further properties of the processor *)

(** ** The quantizer *)

Lemma floorZ_mono (x y : R) : x <= y -> (floorZ x <= floorZ y)%Z.
Proof.
  intros Hxy. destruct (floorZ_spec x) as [Hx _]. destruct (floorZ_spec y) as [_ Hy].
  assert (Hlt : IZR (floorZ x) < IZR (floorZ y + 1)) by (rewrite plus_IZR; lra).
  apply lt_IZR in Hlt. lia.
Qed.

Lemma quantize_floor (bitDepth x : R) :
  -1 <= x <= 1 ->
  exists k : Z,
    Bitcrusher.quantize (Bitcrusher.step bitDepth) (Num x) = Num (grid_point bitDepth k)
    /\ grid_point bitDepth k <= x < grid_point bitDepth k + Bitcrusher.step bitDepth
    /\ -1 <= grid_point bitDepth k.
Proof.
  intros Hx. rewrite quantize_Num. unfold grid_point.
  pose proof (step_pos bitDepth) as Hst.
  set (st := Bitcrusher.step bitDepth) in *.
  destruct (floorZ_spec ((x + 1) / st)) as [Hlo Hhi].
  set (k := floorZ ((x + 1) / st)) in *.
  assert (Hmul : (x + 1) / st * st = x + 1) by (field; lra).
  assert (Hk1 : IZR k * st <= x + 1) by nra.
  assert (Hk2 : x + 1 < (IZR k + 1) * st) by nra.
  assert (Hk0 : (0 <= k)%Z).
  { assert (Hlt : IZR (-1) < IZR k); [|apply lt_IZR in Hlt; lia].
    assert (0 <= (x + 1) / st) by (apply Rmult_le_pos; [lra|left; now apply Rinv_0_lt_compat]).
    lra. }
  assert (0 <= IZR k) by (apply IZR_le; lia).
  exists k. rewrite Rmin_right by nra. rewrite Rmax_right by nra.
  split; [f_equal; lra|]. split; [lra|nra].
Qed.

(** X1.  At a whole bit depth b from 1 to 16, the quantized value of a
    sample in [-1,1] is one of the grid points 0 to 2^b, lies in [-1,1],
    and is less than one step away from the sample. *)
Theorem quantize_within_a_step (b : Z) (x : R) :
  (1 <= b <= 16)%Z ->
  -1 <= x <= 1 ->
  exists k : Z,
    (0 <= k <= 2 ^ b)%Z
    /\ Bitcrusher.quantize (Bitcrusher.step (IZR b)) (Num x) = Num (grid_point (IZR b) k)
    /\ -1 <= grid_point (IZR b) k <= 1
    /\ grid_point (IZR b) k - Bitcrusher.step (IZR b) < x
       < grid_point (IZR b) k + Bitcrusher.step (IZR b).
Proof.
  intros Hb Hx.
  destruct (quantize_on_grid b x ltac:(lia)) as (k & Hk & Hq).
  destruct (quantize_floor (IZR b) x Hx) as (k' & Hq' & Hcell & _).
  rewrite Hq in Hq'. injection Hq' as Hkk'.
  pose proof (step_pos (IZR b)) as Hst.
  exists k. split; [exact Hk|]. split; [exact Hq|].
  split; [apply grid_point_range; lia|]. rewrite Hkk'. lra.
Qed.

Lemma quantize_within_a_step_witness :
  exists k : Z,
    (0 <= k <= 2 ^ 12)%Z
    /\ Bitcrusher.quantize (Bitcrusher.step 12) (Num (1 / 3)) = Num (grid_point 12 k)
    /\ -1 <= grid_point 12 k <= 1
    /\ grid_point 12 k - Bitcrusher.step 12 < 1 / 3 < grid_point 12 k + Bitcrusher.step 12.
Proof.
  apply (quantize_within_a_step 12 (1 / 3)); [lia | lra].
Defined.

(** X2.  Quantization keeps the order of samples. *)
Theorem quantize_monotone (bitDepth x y : R) :
  x <= y ->
  exists qx qy : R,
    Bitcrusher.quantize (Bitcrusher.step bitDepth) (Num x) = Num qx
    /\ Bitcrusher.quantize (Bitcrusher.step bitDepth) (Num y) = Num qy
    /\ qx <= qy.
Proof.
  intros Hxy. rewrite !quantize_Num. eexists _, _. split; [reflexivity|].
  split; [reflexivity|].
  pose proof (step_pos bitDepth) as Hst.
  set (st := Bitcrusher.step bitDepth) in *.
  assert (Hdiv : (x + 1) / st <= (y + 1) / st).
  { unfold Rdiv. apply Rmult_le_compat_r; [left; now apply Rinv_0_lt_compat | lra]. }
  apply floorZ_mono, IZR_le in Hdiv.
  assert (Hv : IZR (floorZ ((x + 1) / st)) * st - 1 <= IZR (floorZ ((y + 1) / st)) * st - 1)
    by nra.
  unfold Rmax, Rmin. repeat destruct (Rle_dec _ _); lra.
Qed.

Lemma quantize_monotone_witness :
  (1 / 4 <= 1 / 2)
  /\ exists qx qy : R,
       Bitcrusher.quantize (Bitcrusher.step 12) (Num (1 / 4)) = Num qx
       /\ Bitcrusher.quantize (Bitcrusher.step 12) (Num (1 / 2)) = Num qy
       /\ qx <= qy.
Proof.
  assert (H : 1 / 4 <= 1 / 2) by lra.
  split; [exact H|]. exact (quantize_monotone 12 (1 / 4) (1 / 2) H).
Defined.

(** X3.  At a whole bit depth from 1 to 16, quantizing twice is quantizing
    once, for every sample. *)
Theorem quantize_idempotent (b : Z) (x : R) :
  (1 <= b <= 16)%Z ->
  exists q : R,
    Bitcrusher.quantize (Bitcrusher.step (IZR b)) (Num x) = Num q
    /\ Bitcrusher.quantize (Bitcrusher.step (IZR b)) (Num q) = Num q.
Proof.
  intros Hb.
  destruct (quantize_on_grid b x ltac:(lia)) as (k & Hk & Hq).
  exists (grid_point (IZR b) k). split; [exact Hq|].
  apply grid_point_fixed; lia.
Qed.

Lemma quantize_idempotent_witness :
  exists q : R,
    Bitcrusher.quantize (Bitcrusher.step 12) (Num (1 / 3)) = Num q
    /\ Bitcrusher.quantize (Bitcrusher.step 12) (Num q) = Num q.
Proof.
  apply (quantize_idempotent 12 (1 / 3)). lia.
Defined.

(** ** Properties that hold sample by sample *)

Lemma per_sample_output (bitDepth : R) (reductionFactor : Z) (mix : R)
    (s : Contract.Decimation) (x : number) :
  snd (Contract.per_sample bitDepth reductionFactor mix s x) =
  blend mix x (Contract.heldSample (fst (Contract.per_sample bitDepth reductionFactor mix s x))).
Proof. reflexivity. Qed.

Section Pointwise.

Variables (bitDepth : R) (reductionFactor : Z) (mix : R).
Variables (Inv : Contract.Decimation -> Prop) (Pin : number -> Prop)
          (Rel : number -> number -> Prop).
Hypothesis per_sample_ok :
  forall (s : Contract.Decimation) (x : number), Inv s -> Pin x ->
    Inv (fst (Contract.per_sample bitDepth reductionFactor mix s x))
    /\ Rel x (snd (Contract.per_sample bitDepth reductionFactor mix s x)).

Lemma per_channel_pointwise (xs : Float32Array) :
  forall s : Contract.Decimation, Inv s -> Forall Pin xs ->
  Inv (fst (Contract.per_channel bitDepth reductionFactor mix s xs))
  /\ Forall2 Rel xs (snd (Contract.per_channel bitDepth reductionFactor mix s xs)).
Proof.
  induction xs as [|x xs IH]; intros s Hs Hxs.
  - cbn. auto.
  - apply Forall_cons in Hxs as [Hx Hxs]. cbn [Contract.per_channel].
    destruct (per_sample_ok s x Hs Hx) as [H1 H2].
    destruct (Contract.per_sample bitDepth reductionFactor mix s x) as [s1 y].
    cbn [fst snd] in H1, H2. specialize (IH s1 H1 Hxs).
    destruct (Contract.per_channel bitDepth reductionFactor mix s1 xs) as [s2 ys].
    cbn [fst snd] in *. destruct IH. auto.
Qed.

Lemma per_block_pointwise (input : list Float32Array) :
  forall s : Contract.Decimation, Inv s -> Forall (Forall Pin) input ->
  Inv (fst (Contract.per_block bitDepth reductionFactor mix s input))
  /\ Forall2 (Forall2 Rel) input
       (snd (Contract.per_block bitDepth reductionFactor mix s input)).
Proof.
  induction input as [|xs input IH]; intros s Hs Hin.
  - cbn. auto.
  - apply Forall_cons in Hin as [Hxs Hin]. cbn [Contract.per_block].
    destruct (per_channel_pointwise xs s Hs Hxs) as [H1 H2].
    destruct (Contract.per_channel bitDepth reductionFactor mix s xs) as [s1 ys].
    cbn [fst snd] in H1, H2. specialize (IH s1 H1 Hin).
    destruct (Contract.per_block bitDepth reductionFactor mix s1 input) as [s2 yss].
    cbn [fst snd] in *. destruct IH. auto.
Qed.

(** The same for a call of [process] on a block of matching shape. *)
Lemma process_pointwise (this : Bitcrusher.Processor) (input output : list Float32Array)
    (inputs' outputs' : list (list Float32Array)) (parameters : Bitcrusher.Parameters) :
  Bitcrusher.bitDepth parameters = bitDepth ->
  floorZ (Bitcrusher.reduction parameters) = reductionFactor ->
  Bitcrusher.mix parameters = mix ->
  input <> [] -> same_shape input output ->
  Inv (decimation_of this) -> Forall (Forall Pin) input ->
  exists (this' : Bitcrusher.Processor) (output' : list Float32Array),
    Bitcrusher.process this (input :: inputs') (output :: outputs') parameters =
      Normal (true, this', output' :: outputs')
    /\ Inv (decimation_of this')
    /\ Forall2 (Forall2 Rel) input output'.
Proof.
  intros Hbd Hrf Hmix Hne Hshape Hinv Hin. unfold Bitcrusher.process.
  cbn [lookup list_lookup].
  destruct input as [|ic input']; [congruence|].
  rewrite channel_loop_per_block by (cbn [drop]; auto).
  cbn [drop take app]. rewrite Hbd, Hrf, Hmix.
  destruct (per_block_pointwise (ic :: input') (decimation_of this) Hinv Hin) as [H1 H2].
  destruct (Contract.per_block _ _ _ _ _) as [s yss]. cbn [fst snd] in H1, H2.
  exists (processor_of s), yss. rewrite decimation_of_processor. auto.
Qed.

End Pointwise.

Lemma Forall2_eq_lists {A : Type} (xs ys : list A) :
  Forall2 (fun x y : A => y = x) xs ys -> ys = xs.
Proof.
  induction 1 as [|x y xs ys Hxy _ IH]; [reflexivity|]. now rewrite Hxy, IH.
Qed.

Lemma Forall2_eq_blocks {A : Type} (xss yss : list (list A)) :
  Forall2 (Forall2 (fun x y : A => y = x)) xss yss -> yss = xss.
Proof.
  induction 1 as [|xs ys xss yss Hxy _ IH]; [reflexivity|].
  now rewrite (Forall2_eq_lists xs ys Hxy), IH.
Qed.

Lemma blend_dry (x h : number) : is_number x -> is_number h -> blend 0 x h = x.
Proof.
  intros [r ->] [q ->]. unfold blend. cbn [nadd nmul lift2]. f_equal. lra.
Qed.

(** X4.  With mix = 0 the processor is a bypass: on a block of numbers, with a
    number held on entry, the output block is the input block, sample for
    sample.  (The counter and the held sample move on all the same.) *)
Theorem dry_process_is_bypass (this : Bitcrusher.Processor)
    (input output : list Float32Array) (inputs' outputs' : list (list Float32Array))
    (parameters : Bitcrusher.Parameters) :
  Bitcrusher.mix parameters = 0 ->
  input <> [] ->
  same_shape input output ->
  Forall (Forall is_number) input ->
  is_number (Bitcrusher._lastSample this) ->
  exists this' : Bitcrusher.Processor,
    Bitcrusher.process this (input :: inputs') (output :: outputs') parameters =
      Normal (true, this', input :: outputs')
    /\ is_number (Bitcrusher._lastSample this').
Proof.
  intros Hmix Hne Hshape Hnum Hheld.
  destruct (process_pointwise (Bitcrusher.bitDepth parameters)
              (floorZ (Bitcrusher.reduction parameters)) 0
              (fun s => is_number (Contract.heldSample s)) is_number
              (fun x y => y = x)) with
    (this := this) (input := input) (output := output) (inputs' := inputs')
    (outputs' := outputs') (parameters := parameters)
    as (this' & output' & Hrun & Hinv & Hrel); auto.
  - intros s x Hs Hx. rewrite per_sample_output, per_sample_state.
    destruct Hx as [r ->].
    destruct (Z_ge_dec _ _); cbn [Contract.heldSample].
    + split; [apply quantize_is_number|].
      apply blend_dry; [eexists; reflexivity | apply quantize_is_number].
    + split; [exact Hs|]. apply blend_dry; [eexists; reflexivity | exact Hs].
  - exists this'. apply Forall2_eq_blocks in Hrel. subst output'. auto.
Qed.

Lemma dry_process_is_bypass_witness :
  exists this' : Bitcrusher.Processor,
    Bitcrusher.process Bitcrusher.constructor [[ramp8]] [[silent 8]]
      {| Bitcrusher.bitDepth := 12; Bitcrusher.reduction := 4; Bitcrusher.mix := 0 |} =
    Normal (true, this', [[ramp8]])
    /\ is_number (Bitcrusher._lastSample this').
Proof.
  refine (dry_process_is_bypass Bitcrusher.constructor [ramp8] [silent 8] [] []
            {| Bitcrusher.bitDepth := 12; Bitcrusher.reduction := 4; Bitcrusher.mix := 0 |}
            eq_refl _ _ _ _).
  - discriminate.
  - repeat constructor.
  - repeat (first [apply Forall_nil_2 | apply ramp8_numbers | apply Forall_cons_2]).
  - eexists. reflexivity.
Defined.

Lemma quantize_in_unit (st : R) (x : number) :
  is_number x -> in_unit (Bitcrusher.quantize st x).
Proof.
  intros [r ->]. rewrite quantize_Num. eexists. split; [reflexivity|].
  unfold Rmax, Rmin. repeat destruct (Rle_dec _ _); lra.
Qed.

Lemma blend_in_unit (mix : R) (x h : number) :
  0 <= mix <= 1 -> in_unit x -> in_unit h -> in_unit (blend mix x h).
Proof.
  intros Hmix (r & -> & Hr) (q & -> & Hq). unfold blend. cbn [nadd nmul lift2].
  eexists. split; [reflexivity|]. nra.
Qed.

Lemma Forall2_Forall_right {A B : Type} (P : B -> Prop) (xs : list A) (ys : list B) :
  Forall2 (fun (_ : A) (y : B) => P y) xs ys -> Forall P ys.
Proof. induction 1; constructor; auto. Qed.

(** X5.  With mix in [0,1], samples in [-1,1] and a held sample in [-1,1] give
    output samples in [-1,1], and leave a held sample in [-1,1]: the
    processor never makes the signal louder than full scale. *)
Theorem output_stays_in_unit (this : Bitcrusher.Processor)
    (input output : list Float32Array) (inputs' outputs' : list (list Float32Array))
    (parameters : Bitcrusher.Parameters) :
  0 <= Bitcrusher.mix parameters <= 1 ->
  input <> [] ->
  same_shape input output ->
  Forall (Forall in_unit) input ->
  in_unit (Bitcrusher._lastSample this) ->
  exists (this' : Bitcrusher.Processor) (output' : list Float32Array),
    Bitcrusher.process this (input :: inputs') (output :: outputs') parameters =
      Normal (true, this', output' :: outputs')
    /\ Forall (Forall in_unit) output'
    /\ in_unit (Bitcrusher._lastSample this').
Proof.
  intros Hmix Hne Hshape Hin Hheld.
  destruct (process_pointwise (Bitcrusher.bitDepth parameters)
              (floorZ (Bitcrusher.reduction parameters)) (Bitcrusher.mix parameters)
              (fun s => in_unit (Contract.heldSample s)) in_unit
              (fun _ y => in_unit y)) with
    (this := this) (input := input) (output := output) (inputs' := inputs')
    (outputs' := outputs') (parameters := parameters)
    as (this' & output' & Hrun & Hinv & Hrel); auto.
  - intros s x Hs Hx. rewrite per_sample_output, per_sample_state.
    assert (Hnum : is_number x) by (destruct Hx as (r & -> & _); eexists; reflexivity).
    destruct (Z_ge_dec _ _); cbn [Contract.heldSample].
    + split; [now apply quantize_in_unit|].
      apply blend_in_unit; auto using quantize_in_unit.
    + split; [exact Hs|]. now apply blend_in_unit.
  - exists this', output'. split; [exact Hrun|]. split; [|exact Hinv].
    clear -Hrel. induction Hrel as [|xs ys input output' Hxy _ IH]; constructor; auto.
    now apply Forall2_Forall_right in Hxy.
Qed.

Lemma ramp8_in_unit : Forall in_unit ramp8.
Proof. unfold ramp8. repeat constructor; eexists; (split; [reflexivity | lra]). Qed.

Lemma output_stays_in_unit_witness :
  (0 <= 1 / 2 <= 1)
  /\ exists (this' : Bitcrusher.Processor) (output' : list Float32Array),
       Bitcrusher.process Bitcrusher.constructor [[ramp8]] [[silent 8]]
         {| Bitcrusher.bitDepth := 12; Bitcrusher.reduction := 4; Bitcrusher.mix := 1/2 |} =
       Normal (true, this', [output'])
       /\ Forall (Forall in_unit) output'
       /\ in_unit (Bitcrusher._lastSample this').
Proof.
  assert (Hmix : 0 <= 1 / 2 <= 1) by lra.
  split; [exact Hmix|].
  refine (output_stays_in_unit Bitcrusher.constructor [ramp8] [silent 8] [] []
            {| Bitcrusher.bitDepth := 12; Bitcrusher.reduction := 4;
               Bitcrusher.mix := 1/2 |} Hmix _ _ _ _).
  - discriminate.
  - repeat constructor.
  - repeat (first [apply Forall_nil_2 | apply ramp8_in_unit | apply Forall_cons_2]).
  - exists 0. split; [reflexivity | lra].
Defined.

Lemma Forall2_map_right {A : Type} (f : A -> A) (xs ys : list A) :
  Forall2 (fun x y : A => y = f x) xs ys -> ys = map f xs.
Proof.
  induction 1 as [|x y xs ys Hxy _ IH]; [reflexivity|]. cbn. now rewrite Hxy, IH.
Qed.

(** X6.  A reduction parameter below 2, values below 1 included (the code does
    not clamp it), gives no decimation at all: from a counter that is not
    negative, every output sample is the blend of its own input sample with
    the quantization of that same sample, whatever was held before. *)
Theorem no_hold_below_reduction_2 (this : Bitcrusher.Processor)
    (input output : list Float32Array) (inputs' outputs' : list (list Float32Array))
    (parameters : Bitcrusher.Parameters) :
  Bitcrusher.reduction parameters < 2 ->
  (0 <= Bitcrusher._sampleCounter this)%Z ->
  input <> [] ->
  same_shape input output ->
  exists this' : Bitcrusher.Processor,
    Bitcrusher.process this (input :: inputs') (output :: outputs') parameters =
      Normal (true, this',
              map (map (fun x : number =>
                          blend (Bitcrusher.mix parameters) x
                            (Bitcrusher.quantize
                               (Bitcrusher.step (Bitcrusher.bitDepth parameters)) x)))
                  input :: outputs')
    /\ (0 <= Bitcrusher._sampleCounter this')%Z.
Proof.
  intros Hred Hcount Hne Hshape.
  assert (Hrf : (floorZ (Bitcrusher.reduction parameters) <= 1)%Z).
  { destruct (floorZ_spec (Bitcrusher.reduction parameters)) as [Hlo _].
    assert (Hlt : IZR (floorZ (Bitcrusher.reduction parameters)) < IZR 2) by lra.
    apply lt_IZR in Hlt. lia. }
  destruct (process_pointwise (Bitcrusher.bitDepth parameters)
              (floorZ (Bitcrusher.reduction parameters)) (Bitcrusher.mix parameters)
              (fun s => (0 <= Contract.counter s)%Z) (fun _ => True)
              (fun x y => y = blend (Bitcrusher.mix parameters) x
                                (Bitcrusher.quantize
                                   (Bitcrusher.step (Bitcrusher.bitDepth parameters)) x)))
    with (this := this) (input := input) (output := output) (inputs' := inputs')
         (outputs' := outputs') (parameters := parameters)
    as (this' & output' & Hrun & Hinv & Hrel); auto.
  - intros s x Hs _. rewrite per_sample_output, per_sample_state.
    destruct (Z_ge_dec _ _); cbn [Contract.heldSample Contract.counter]; [|lia].
    split; [lia | reflexivity].
  - clear. induction input as [|xs input IH]; constructor; [|exact IH].
    induction xs; constructor; auto.
  - exists this'. split; [|exact Hinv]. rewrite Hrun. do 3 f_equal.
    clear -Hrel. induction Hrel as [|xs ys input output' Hxy _ IH]; [reflexivity|].
    cbn [map]. rewrite IH. f_equal. now apply Forall2_map_right.
Qed.

Lemma no_hold_below_reduction_2_witness :
  (3 / 10 < 2)
  /\ exists this' : Bitcrusher.Processor,
       Bitcrusher.process Bitcrusher.constructor [[ramp8]] [[silent 8]]
         {| Bitcrusher.bitDepth := 12; Bitcrusher.reduction := 3/10; Bitcrusher.mix := 1 |} =
       Normal (true, this',
               [map (map (fun x : number =>
                            blend 1 x (Bitcrusher.quantize (Bitcrusher.step 12) x)))
                    [ramp8]])
       /\ (0 <= Bitcrusher._sampleCounter this')%Z.
Proof.
  assert (Hred : 3 / 10 < 2) by lra.
  split; [exact Hred|].
  refine (no_hold_below_reduction_2 Bitcrusher.constructor [ramp8] [silent 8] [] []
            {| Bitcrusher.bitDepth := 12; Bitcrusher.reduction := 3/10;
               Bitcrusher.mix := 1 |} Hred _ _ _).
  - cbn. lia.
  - discriminate.
  - repeat constructor.
Defined.

(** ** Sample and hold in closed form *)

Lemma mod_self_add (rf t : Z) : ((rf + t) mod rf = t mod rf)%Z.
Proof.
  replace (rf + t)%Z with (t + 1 * rf)%Z by lia. apply Z_mod_plus_full.
Qed.

Lemma mod_below_twice (rf x : Z) :
  (0 <= x < 2 * rf)%Z -> (x mod rf = if x <? rf then x else x - rf)%Z.
Proof.
  intros Hx. destruct (Z.ltb_spec x rf).
  - apply Z.mod_small. lia.
  - replace x with ((x - rf) + 1 * rf)%Z at 1 by lia. rewrite Z_mod_plus_full.
    apply Z.mod_small. lia.
Qed.

Lemma read_cons_S (x : number) (xs : Float32Array) (i : nat) :
  read (x :: xs) (S i) = read xs i.
Proof. reflexivity. Qed.

Section ClosedForm.

Variables (bitDepth : R) (reductionFactor : Z) (mix : R).

Lemma per_channel_held_at (xs : Float32Array) :
  forall (s : Contract.Decimation) (i : nat) (x : number),
  (0 <= Contract.counter s < reductionFactor)%Z ->
  xs !! i = Some x ->
  (Contract.per_channel bitDepth reductionFactor mix s xs).2 !! i =
  Some (blend mix x
          (held_at reductionFactor (Bitcrusher.step bitDepth) (processor_of s) xs i)).
Proof.
  induction xs as [|x0 xs IH]; intros s i x Hc Hx; [discriminate|].
  cbn [Contract.per_channel].
  pose proof (per_sample_output bitDepth reductionFactor mix s x0) as Hy.
  pose proof (per_sample_state bitDepth reductionFactor mix s x0) as Hs1.
  destruct (Contract.per_sample bitDepth reductionFactor mix s x0) as [s1 y].
  cbn [fst snd] in Hy, Hs1.
  assert (Hc1 : (0 <= Contract.counter s1 < reductionFactor)%Z).
  { rewrite Hs1. destruct (Z_ge_dec _ _); cbn [Contract.counter]; lia. }
  specialize (IH s1).
  destruct (Contract.per_channel bitDepth reductionFactor mix s1 xs) as [s2 ys].
  cbn [snd] in *. unfold held_at in *.
  cbn [processor_of Bitcrusher._sampleCounter Bitcrusher._lastSample] in *.
  destruct i as [|i'].
  - (* the first frame *)
    injection Hx as <-. change ((y :: ys) !! 0%nat) with (Some y).
    rewrite Hy. do 2 f_equal.
    rewrite Hs1. change (Z.of_nat 0) with 0%Z. rewrite Z.add_0_r.
    destruct (Z_ge_dec (Contract.counter s + 1) reductionFactor) as [Hge|Hlt];
      cbn [Contract.heldSample].
    + replace (Contract.counter s + 1)%Z with reductionFactor by lia.
      rewrite Z_mod_same_full. reflexivity.
    + rewrite Z.mod_small by lia.
      destruct (Z.ltb_spec 0 (Contract.counter s + 1)); [reflexivity | lia].
  - (* a later frame *)
    change ((x0 :: xs) !! S i') with (xs !! i') in Hx.
    change ((y :: ys) !! S i') with (ys !! i').
    rewrite (IH i' x Hc1 Hx). do 2 f_equal.
    set (a := (Contract.counter s + 1)%Z) in *.
    set (t := Z.of_nat (S i')).
    assert (Ht : t = (Z.of_nat i' + 1)%Z) by (unfold t; lia).
    assert (Hm : ((Contract.counter s1 + Z.of_nat i' + 1) mod reductionFactor =
                  (Contract.counter s + t + 1) mod reductionFactor)%Z).
    { rewrite Hs1. destruct (Z_ge_dec a reductionFactor); cbn [Contract.counter].
      - replace (Contract.counter s + t + 1)%Z with (reductionFactor + t)%Z
          by (unfold a in *; lia).
        rewrite mod_self_add. f_equal. lia.
      - f_equal. unfold a. lia. }
    rewrite Hm. set (m := ((Contract.counter s + t + 1) mod reductionFactor)%Z).
    assert (Hmb : (0 <= m < reductionFactor)%Z) by (apply Z.mod_pos_bound; lia).
    assert (Hrec : (a >= reductionFactor)%Z -> (m <= t)%Z).
    { intros Hge. unfold m.
      replace (Contract.counter s + t + 1)%Z with (reductionFactor + t)%Z
        by (unfold a in *; lia).
      rewrite mod_self_add. apply Z.mod_le; lia. }
    assert (Hnorec : ~ (a >= reductionFactor)%Z -> m <> t).
    { intros Hlt Heq. unfold m in Heq.
      rewrite mod_below_twice in Heq by (unfold a in *; lia).
      destruct (Z.ltb_spec (Contract.counter s + t + 1) reductionFactor);
        unfold a in *; lia. }
    destruct (Z.ltb_spec (Z.of_nat i') m) as [Hi|Hi];
      destruct (Z.ltb_spec t m) as [Ht'|Ht'].
    + (* still the sample held on entry *)
      rewrite Hs1. destruct (Z_ge_dec a reductionFactor) as [Hge|Hlt]; [|reflexivity].
      specialize (Hrec Hge). lia.
    + (* recomputed at the first frame *)
      assert (Hmt : m = t) by lia.
      rewrite Hs1. destruct (Z_ge_dec a reductionFactor) as [Hge|Hlt].
      * cbn [Contract.heldSample]. f_equal.
        replace (S i' - Z.to_nat m)%nat with 0%nat by lia. reflexivity.
      * now specialize (Hnorec Hlt).
    + lia.
    + (* recomputed at a later frame *)
      replace (S i' - Z.to_nat m)%nat with (S (i' - Z.to_nat m)) by lia.
      now rewrite read_cons_S.
Qed.

Lemma per_channel_counter (xs : Float32Array) :
  forall s : Contract.Decimation,
  (0 <= Contract.counter s < reductionFactor)%Z ->
  Contract.counter (Contract.per_channel bitDepth reductionFactor mix s xs).1 =
  ((Contract.counter s + Z.of_nat (length xs)) mod reductionFactor)%Z.
Proof.
  induction xs as [|x0 xs IH]; intros s Hc.
  - cbn. rewrite Z.add_0_r. symmetry. apply Z.mod_small. exact Hc.
  - cbn [Contract.per_channel].
    pose proof (per_sample_state bitDepth reductionFactor mix s x0) as Hs1.
    destruct (Contract.per_sample bitDepth reductionFactor mix s x0) as [s1 y].
    cbn [fst] in Hs1.
    assert (Hc1 : (0 <= Contract.counter s1 < reductionFactor)%Z).
    { rewrite Hs1. destruct (Z_ge_dec _ _); cbn [Contract.counter]; lia. }
    specialize (IH s1 Hc1).
    destruct (Contract.per_channel bitDepth reductionFactor mix s1 xs) as [s2 ys].
    cbn [fst length] in *. rewrite IH, Hs1.
    destruct (Z_ge_dec _ _); cbn [Contract.counter].
    + replace (Contract.counter s + Z.of_nat (S (length xs)))%Z
        with (reductionFactor + Z.of_nat (length xs))%Z by lia.
      rewrite mod_self_add. f_equal.
    + f_equal. lia.
Qed.

End ClosedForm.

(** X7.  On a single-channel block, from a counter c within [0, reduction):
    frame i of the output blends the input sample with the quantization
    of the input sample at the last frame j <= i where c + j + 1 is a
    multiple of the reduction factor (j = i - (c + i + 1) mod reduction), or
    with the sample held on entry when there is no such frame; afterwards
    the counter stands at (c + number of frames) mod reduction. *)
Theorem sample_and_hold_closed_form (this : Bitcrusher.Processor)
    (xs outputChannel : Float32Array) (inputs' outputs' : list (list Float32Array))
    (parameters : Bitcrusher.Parameters) :
  (0 <= Bitcrusher._sampleCounter this < floorZ (Bitcrusher.reduction parameters))%Z ->
  length xs = length outputChannel ->
  exists (this' : Bitcrusher.Processor) (ys : Float32Array),
    Bitcrusher.process this ([xs] :: inputs') ([outputChannel] :: outputs') parameters =
      Normal (true, this', [ys] :: outputs')
    /\ (forall (i : nat) (x : number), xs !! i = Some x ->
          ys !! i =
          Some (blend (Bitcrusher.mix parameters) x
                  (held_at (floorZ (Bitcrusher.reduction parameters))
                     (Bitcrusher.step (Bitcrusher.bitDepth parameters)) this xs i)))
    /\ Bitcrusher._sampleCounter this' =
       ((Bitcrusher._sampleCounter this + Z.of_nat (length xs))
          mod floorZ (Bitcrusher.reduction parameters))%Z.
Proof.
  intros Hc Hlen. unfold Bitcrusher.process. cbn [lookup list_lookup].
  rewrite channel_loop_per_block
    by (cbn [drop length]; first [reflexivity | repeat constructor; exact Hlen]).
  cbn [drop take app Contract.per_block].
  pose proof (per_channel_held_at (Bitcrusher.bitDepth parameters)
                (floorZ (Bitcrusher.reduction parameters)) (Bitcrusher.mix parameters)
                xs (decimation_of this)) as Hheld.
  pose proof (per_channel_counter (Bitcrusher.bitDepth parameters)
                (floorZ (Bitcrusher.reduction parameters)) (Bitcrusher.mix parameters)
                xs (decimation_of this) Hc) as Hcount.
  destruct (Contract.per_channel _ _ _ _ xs) as [s ys]. cbn [fst snd] in *.
  exists (processor_of s), ys. split; [reflexivity|]. split.
  - intros i x Hx. specialize (Hheld i x Hc Hx).
    now rewrite processor_of_decimation in Hheld.
  - exact Hcount.
Qed.

Lemma sample_and_hold_closed_form_witness :
  (0 <= Bitcrusher._sampleCounter Bitcrusher.constructor < floorZ 4)%Z
  /\ exists (this' : Bitcrusher.Processor) (ys : Float32Array),
       Bitcrusher.process Bitcrusher.constructor [[ramp8]] [[silent 8]]
         {| Bitcrusher.bitDepth := 12; Bitcrusher.reduction := 4; Bitcrusher.mix := 1 |} =
       Normal (true, this', [[ys]])
       /\ (forall (i : nat) (x : number), ramp8 !! i = Some x ->
             ys !! i =
             Some (blend 1 x
                     (held_at (floorZ 4) (Bitcrusher.step 12) Bitcrusher.constructor
                        ramp8 i)))
       /\ Bitcrusher._sampleCounter this' =
          ((Bitcrusher._sampleCounter Bitcrusher.constructor + Z.of_nat (length ramp8))
             mod floorZ 4)%Z.
Proof.
  assert (Hc : (0 <= Bitcrusher._sampleCounter Bitcrusher.constructor < floorZ 4)%Z)
    by (rewrite floorZ_IZR; cbn; lia).
  split; [exact Hc|].
  exact (sample_and_hold_closed_form Bitcrusher.constructor ramp8 (silent 8) [] []
           {| Bitcrusher.bitDepth := 12; Bitcrusher.reduction := 4; Bitcrusher.mix := 1 |}
           Hc eq_refl).
Defined.

(** ** What [process] keeps on blocks of any shape *)

Section AnyShape.

Variables (reduction : Z) (st mix : R).

Lemma sample_loop_length (inputChannel : Float32Array) (todo : nat) :
  forall (i : nat) (this : Bitcrusher.Processor) (outputChannel : Float32Array),
  length (Bitcrusher.sample_loop reduction st mix inputChannel todo i this outputChannel).2 =
  length outputChannel.
Proof.
  induction todo as [|todo IH]; intros i this outputChannel; [reflexivity|].
  cbn [Bitcrusher.sample_loop]. unfold Bitcrusher.sample_body.
  rewrite IH. apply length_insert.
Qed.

Lemma channel_loop_shape (input : list Float32Array) (todo : nat) :
  forall (channel : nat) (this : Bitcrusher.Processor) (output : list Float32Array),
  map length (Bitcrusher.channel_loop reduction st mix input todo channel this output).2 =
  map length output.
Proof.
  induction todo as [|todo IH]; intros channel this output; [reflexivity|].
  cbn [Bitcrusher.channel_loop].
  destruct (input !! channel) as [ic|]; [|apply IH].
  destruct (output !! channel) as [oc|] eqn:Hoc; [|apply IH].
  pose proof (sample_loop_length ic (length oc) 0 this oc) as Hlen.
  destruct (Bitcrusher.sample_loop reduction st mix ic (length oc) 0 this oc)
    as [this1 oc1].
  cbn [snd] in Hlen. rewrite IH.
  change (map length) with (fmap (M := list) (length (A := number))).
  rewrite list_fmap_insert, Hlen. apply list_insert_id.
  now rewrite list_lookup_fmap, Hoc.
Qed.

Variable Inv : Bitcrusher.Processor -> Prop.
Hypothesis sample_body_ok :
  forall (inputChannel : Float32Array) (i : nat) (this : Bitcrusher.Processor)
         (outputChannel : Float32Array),
  Inv this ->
  Inv (Bitcrusher.sample_body reduction st mix inputChannel i this outputChannel).1.

Lemma sample_loop_invariant (inputChannel : Float32Array) (todo : nat) :
  forall (i : nat) (this : Bitcrusher.Processor) (outputChannel : Float32Array),
  Inv this ->
  Inv (Bitcrusher.sample_loop reduction st mix inputChannel todo i this outputChannel).1.
Proof.
  induction todo as [|todo IH]; intros i this outputChannel Hinv; [exact Hinv|].
  cbn [Bitcrusher.sample_loop].
  pose proof (sample_body_ok inputChannel i this outputChannel Hinv) as H1.
  destruct (Bitcrusher.sample_body reduction st mix inputChannel i this outputChannel)
    as [this1 oc1].
  now apply IH.
Qed.

Lemma channel_loop_invariant (input : list Float32Array) (todo : nat) :
  forall (channel : nat) (this : Bitcrusher.Processor) (output : list Float32Array),
  Inv this ->
  Inv (Bitcrusher.channel_loop reduction st mix input todo channel this output).1.
Proof.
  induction todo as [|todo IH]; intros channel this output Hinv; [exact Hinv|].
  cbn [Bitcrusher.channel_loop].
  destruct (input !! channel) as [ic|]; [|now apply IH].
  destruct (output !! channel) as [oc|]; [|now apply IH].
  pose proof (sample_loop_invariant ic (length oc) 0 this oc Hinv) as H1.
  destruct (Bitcrusher.sample_loop reduction st mix ic (length oc) 0 this oc)
    as [this1 oc1].
  now apply IH.
Qed.

End AnyShape.

(** X8.  Whatever the inputs, [process] leaves the output block with the same
    channels of the same lengths: it writes frames in place and never adds
    or drops one. *)
Theorem process_keeps_the_shape (this : Bitcrusher.Processor)
    (inputs : list (list Float32Array)) (output : list Float32Array)
    (outputs' : list (list Float32Array)) (parameters : Bitcrusher.Parameters) :
  exists (this' : Bitcrusher.Processor) (output' : list Float32Array),
    Bitcrusher.process this inputs (output :: outputs') parameters =
      Normal (true, this', output' :: outputs')
    /\ map length output' = map length output.
Proof.
  unfold Bitcrusher.process.
  destruct (inputs !! 0%nat) as [[|ic input']|]; cbn [lookup list_lookup];
    try (exists this, output; split; reflexivity).
  pose proof (channel_loop_shape (floorZ (Bitcrusher.reduction parameters))
                (Bitcrusher.step (Bitcrusher.bitDepth parameters))
                (Bitcrusher.mix parameters) (ic :: input') (length output) 0
                this output) as Hshape.
  destruct (Bitcrusher.channel_loop _ _ _ _ _ _ _ _) as [this1 output1].
  exists this1, output1. split; [reflexivity | exact Hshape].
Qed.

Lemma sample_body_counter (reduction : Z) (st mix : R) (inputChannel : Float32Array)
    (i : nat) (this : Bitcrusher.Processor) (outputChannel : Float32Array) :
  (0 <= Bitcrusher._sampleCounter this < reduction)%Z ->
  (0 <= Bitcrusher._sampleCounter
          (Bitcrusher.sample_body reduction st mix inputChannel i this outputChannel).1
   < reduction)%Z.
Proof.
  intros Hc. unfold Bitcrusher.sample_body. cbn zeta. cbn [fst].
  destruct (Z.geb_spec (Bitcrusher._sampleCounter this + 1) reduction);
    cbn [Bitcrusher._sampleCounter]; lia.
Qed.

(** X9.  Once the counter lies in [0, reduction) it stays there, whatever the
    inputs: it is reset to 0 the moment it would reach the reduction
    factor. *)
Theorem counter_stays_below_reduction (this : Bitcrusher.Processor)
    (inputs : list (list Float32Array)) (output : list Float32Array)
    (outputs' : list (list Float32Array)) (parameters : Bitcrusher.Parameters) :
  (0 <= Bitcrusher._sampleCounter this < floorZ (Bitcrusher.reduction parameters))%Z ->
  exists (this' : Bitcrusher.Processor) (output' : list Float32Array),
    Bitcrusher.process this inputs (output :: outputs') parameters =
      Normal (true, this', output' :: outputs')
    /\ (0 <= Bitcrusher._sampleCounter this'
        < floorZ (Bitcrusher.reduction parameters))%Z.
Proof.
  intros Hc. unfold Bitcrusher.process.
  destruct (inputs !! 0%nat) as [[|ic input']|]; cbn [lookup list_lookup];
    try (exists this, output; split; [reflexivity | exact Hc]).
  pose proof (channel_loop_invariant (floorZ (Bitcrusher.reduction parameters))
                (Bitcrusher.step (Bitcrusher.bitDepth parameters))
                (Bitcrusher.mix parameters)
                (fun p => (0 <= Bitcrusher._sampleCounter p
                           < floorZ (Bitcrusher.reduction parameters))%Z)) as Hinv.
  specialize (Hinv (sample_body_counter _ _ _) (ic :: input') (length output) 0%nat
                this output Hc).
  destruct (Bitcrusher.channel_loop _ _ _ _ _ _ _ _) as [this1 output1].
  exists this1, output1. split; [reflexivity | exact Hinv].
Qed.

Lemma counter_stays_below_reduction_witness :
  (0 <= Bitcrusher._sampleCounter Bitcrusher.constructor < floorZ 4)%Z
  /\ exists (this' : Bitcrusher.Processor) (output' : list Float32Array),
       Bitcrusher.process Bitcrusher.constructor [[ramp8; ramp8]] [[silent 8]]
         {| Bitcrusher.bitDepth := 12; Bitcrusher.reduction := 4; Bitcrusher.mix := 1 |} =
       Normal (true, this', [output'])
       /\ (0 <= Bitcrusher._sampleCounter this' < floorZ 4)%Z.
Proof.
  assert (Hc : (0 <= Bitcrusher._sampleCounter Bitcrusher.constructor < floorZ 4)%Z)
    by (rewrite floorZ_IZR; cbn; lia).
  split; [exact Hc|].
  exact (counter_stays_below_reduction Bitcrusher.constructor [[ramp8; ramp8]]
           [silent 8] []
           {| Bitcrusher.bitDepth := 12; Bitcrusher.reduction := 4; Bitcrusher.mix := 1 |}
           Hc).
Defined.

(** ** Samples that are not numbers *)

Lemma per_channel_NaN (bitDepth : R) (reductionFactor : Z) (mix : R) (xs : Float32Array) :
  forall (s : Contract.Decimation) (i : nat),
  xs !! i = Some NaN ->
  (Contract.per_channel bitDepth reductionFactor mix s xs).2 !! i = Some NaN.
Proof.
  induction xs as [|x0 xs IH]; intros s i Hx; [discriminate|].
  cbn [Contract.per_channel].
  pose proof (per_sample_output bitDepth reductionFactor mix s x0) as Hy.
  destruct (Contract.per_sample bitDepth reductionFactor mix s x0) as [s1 y].
  specialize (IH s1).
  destruct (Contract.per_channel bitDepth reductionFactor mix s1 xs) as [s2 ys].
  cbn [fst snd] in *. destruct i as [|i'].
  - injection Hx as ->. rewrite Hy. reflexivity.
  - now apply IH.
Qed.

Section OneChannel.

Variables (reduction : Z) (bitDepth mix : R) (input : list Float32Array).

Lemma channel_loop_before (todo : nat) :
  forall (channel : nat) (this : Bitcrusher.Processor) (output : list Float32Array)
         (c : nat),
  (c < channel)%nat ->
  (Bitcrusher.channel_loop reduction (Bitcrusher.step bitDepth) mix input todo channel
     this output).2 !! c = output !! c.
Proof.
  induction todo as [|todo IH]; intros channel this output c Hc; [reflexivity|].
  cbn [Bitcrusher.channel_loop].
  destruct (input !! channel) as [ic|]; [|apply IH; lia].
  destruct (output !! channel) as [oc|]; [|apply IH; lia].
  destruct (Bitcrusher.sample_loop _ _ _ ic (length oc) 0 this oc) as [this1 oc1].
  rewrite IH by lia. apply list_lookup_insert_ne. lia.
Qed.

(** The channel [c] of the output after the loop over the channels is
    what the loop over its frames made of it, from the fields as the
    channels before it left them. *)
Lemma channel_loop_lookup (todo : nat) :
  forall (channel : nat) (this : Bitcrusher.Processor) (output : list Float32Array)
         (c : nat) (ic oc : Float32Array),
  (channel <= c < channel + todo)%nat ->
  input !! c = Some ic -> output !! c = Some oc ->
  exists s : Contract.Decimation,
    (Bitcrusher.channel_loop reduction (Bitcrusher.step bitDepth) mix input todo channel
       this output).2 !! c =
    Some (Contract.per_channel bitDepth reduction mix s
            (map (read ic) (seq 0 (length oc)))).2.
Proof.
  induction todo as [|todo IH]; intros channel this output c ic oc Hc Hic Hoc; [lia|].
  cbn [Bitcrusher.channel_loop].
  destruct (decide (channel = c)) as [->|Hne].
  - rewrite Hic, Hoc.
    rewrite sample_loop_per_channel by reflexivity.
    destruct (Contract.per_channel bitDepth reduction mix (decimation_of this)
                (map (read ic) (seq 0 (length oc)))) as [s1 ys] eqn:Hrun.
    cbn [take app]. rewrite channel_loop_before by lia.
    rewrite list_lookup_insert_eq by (eapply lookup_lt_Some; eauto).
    exists (decimation_of this). now rewrite Hrun.
  - destruct (input !! channel) as [ic0|]; [|apply IH; auto; lia].
    destruct (output !! channel) as [oc0|]; [|apply IH; auto; lia].
    destruct (Bitcrusher.sample_loop _ _ _ ic0 (length oc0) 0 this oc0) as [this1 oc1].
    apply IH; [lia | exact Hic |]. now rewrite list_lookup_insert_ne.
Qed.

End OneChannel.

(** X10.  A frame whose input sample is not a number is written as not a
    number, whatever the parameters and the held sample; so is a frame
    the input channel is too short to have (reading it yields [undefined]). *)
Theorem NaN_in_NaN_out (this : Bitcrusher.Processor) (input output : list Float32Array)
    (inputs' outputs' : list (list Float32Array)) (parameters : Bitcrusher.Parameters)
    (c i : nat) (inputChannel outputChannel : Float32Array) :
  input !! c = Some inputChannel ->
  output !! c = Some outputChannel ->
  (i < length outputChannel)%nat ->
  read inputChannel i = NaN ->
  exists (this' : Bitcrusher.Processor) (output' : list Float32Array)
         (outputChannel' : Float32Array),
    Bitcrusher.process this (input :: inputs') (output :: outputs') parameters =
      Normal (true, this', output' :: outputs')
    /\ output' !! c = Some outputChannel'
    /\ outputChannel' !! i = Some NaN.
Proof.
  intros Hic Hoc Hi Hread. unfold Bitcrusher.process. cbn [lookup list_lookup].
  destruct input as [|ic0 input']; [discriminate|].
  destruct (channel_loop_lookup (floorZ (Bitcrusher.reduction parameters))
              (Bitcrusher.bitDepth parameters) (Bitcrusher.mix parameters)
              (ic0 :: input') (length output) 0 this output c inputChannel outputChannel)
    as [s Hs]; [|exact Hic|exact Hoc|].
  { split; [lia|]. apply lookup_lt_Some in Hoc. lia. }
  destruct (Bitcrusher.channel_loop _ _ _ _ _ _ _ _) as [this1 output1].
  cbn [snd] in Hs. eexists this1, output1, _. split; [reflexivity|].
  split; [exact Hs|].
  apply per_channel_NaN. rewrite list_lookup_fmap, lookup_seq_lt by exact Hi.
  cbn. now rewrite Hread.
Qed.

Lemma NaN_in_NaN_out_witness :
  exists (this' : Bitcrusher.Processor) (output' : list Float32Array)
         (outputChannel' : Float32Array),
    Bitcrusher.process Bitcrusher.constructor [[ [Num 0; Num 1] ]] [[silent 8]]
      {| Bitcrusher.bitDepth := 12; Bitcrusher.reduction := 4; Bitcrusher.mix := 0 |} =
    Normal (true, this', [output'])
    /\ output' !! 0%nat = Some outputChannel'
    /\ outputChannel' !! 5%nat = Some NaN.
Proof.
  refine (NaN_in_NaN_out Bitcrusher.constructor [ [Num 0; Num 1] ] [silent 8] [] []
            {| Bitcrusher.bitDepth := 12; Bitcrusher.reduction := 4; Bitcrusher.mix := 0 |}
            0 5 [Num 0; Num 1] (silent 8) eq_refl eq_refl _ eq_refl).
  cbn. lia.
Defined.

(** ** Block boundaries on a single channel *)

(** X11.  A single-channel stream gives the same output samples and leaves the
    same fields however it is cut into blocks. *)
Theorem mono_stream_ignores_block_boundaries (this : Bitcrusher.Processor)
    (parameters : Bitcrusher.Parameters) (blocks blocks' : list Float32Array) :
  concat blocks = concat blocks' ->
  exists (this' : Bitcrusher.Processor) (outputs outputs' : list (list Float32Array)),
    render_blocks this parameters (map (fun xs : Float32Array => [xs]) blocks) =
      Normal (this', outputs)
    /\ render_blocks this parameters (map (fun xs : Float32Array => [xs]) blocks') =
       Normal (this', outputs')
    /\ channel_stream 0 outputs = channel_stream 0 outputs'.
Proof.
  intros Hcat.
  assert (Hmono : forall bs : list Float32Array,
            Forall (fun block : list Float32Array => length block = 1%nat)
              (map (fun xs : Float32Array => [xs]) bs)
            /\ processing_order (map (fun xs : Float32Array => [xs]) bs) = concat bs).
  { intros bs. unfold processing_order. induction bs as [|b bs [IH1 IH2]]; cbn.
    - split; [constructor | reflexivity].
    - split; [constructor; auto|]. now rewrite IH2. }
  assert (Hout : forall (outs ins : list (list Float32Array)),
            Forall2 (fun (o i : list Float32Array) => length o = length i) outs ins ->
            Forall (fun block : list Float32Array => length block = 1%nat) ins ->
            Forall (fun block : list Float32Array => length block = 1%nat) outs).
  { intros outs ins H2. induction H2 as [|o i outs ins Hoi _ IH]; intros Hins.
    - constructor.
    - apply Forall_cons in Hins as [Hi Hins]. constructor; [congruence | auto]. }
  destruct (render_blocks_per_channel parameters
              (map (fun xs : Float32Array => [xs]) blocks) this)
    as (s & outputs & Hrun & Hspec & Hshape).
  destruct (render_blocks_per_channel parameters
              (map (fun xs : Float32Array => [xs]) blocks') this)
    as (s' & outputs' & Hrun' & Hspec' & Hshape').
  destruct (Hmono blocks) as [Hm1 Hm2]. destruct (Hmono blocks') as [Hm1' Hm2'].
  rewrite Hm2 in Hspec. rewrite Hm2', <- Hcat, Hspec in Hspec'.
  injection Hspec' as <- Hstream.
  exists (processor_of s), outputs, outputs'.
  split; [exact Hrun|]. split; [exact Hrun'|].
  rewrite !channel_stream_mono by eauto. exact Hstream.
Qed.

Lemma mono_stream_ignores_block_boundaries_witness :
  concat [ramp8; ramp8] = concat [take 3 ramp8; drop 3 ramp8 ++ ramp8]
  /\ exists (this' : Bitcrusher.Processor) (outputs outputs' : list (list Float32Array)),
       render_blocks Bitcrusher.constructor
         {| Bitcrusher.bitDepth := 12; Bitcrusher.reduction := 4; Bitcrusher.mix := 1 |}
         (map (fun xs : Float32Array => [xs]) [ramp8; ramp8]) = Normal (this', outputs)
       /\ render_blocks Bitcrusher.constructor
            {| Bitcrusher.bitDepth := 12; Bitcrusher.reduction := 4; Bitcrusher.mix := 1 |}
            (map (fun xs : Float32Array => [xs]) [take 3 ramp8; drop 3 ramp8 ++ ramp8]) =
          Normal (this', outputs')
       /\ channel_stream 0 outputs = channel_stream 0 outputs'.
Proof.
  assert (Hcat : concat [ramp8; ramp8] = concat [take 3 ramp8; drop 3 ramp8 ++ ramp8])
    by reflexivity.
  split; [exact Hcat|].
  exact (mono_stream_ignores_block_boundaries Bitcrusher.constructor
           {| Bitcrusher.bitDepth := 12; Bitcrusher.reduction := 4; Bitcrusher.mix := 1 |}
           [ramp8; ramp8] [take 3 ramp8; drop 3 ramp8 ++ ramp8] Hcat).
Defined.

(** * Further properties of the engine *)

Ltac floats :=
  rewrite ?field_spread, ?state_setState, ?field_spread;
  cbn [assign Lifecycle.named Lifecycle.only default from_option Lifecycle.field
       AudioEngine.state AudioEngine.new
       AudioEngine.masterVolume AudioEngine.bitDepth AudioEngine.reduction AudioEngine.mix
       AudioEngine.masterVolume_opt AudioEngine.bitDepth_opt AudioEngine.reduction_opt
       AudioEngine.mix_opt];
  unfold Datatypes.id;
  rewrite ?to_float_small by lra.

Section EngineExtras.

Import WebAudio AudioEngine Lifecycle.

(** ** Updates made at the same moment *)

Lemma cancel_app (t : R) (l1 l2 : list AutomationEvent) :
  cancel t (l1 ++ l2) = cancel t l1 ++ cancel t l2.
Proof.
  induction l1 as [|ev l1 IH]; [reflexivity|]. cbn [app cancel].
  destruct (Rlt_dec (event_time ev) t); cbn [app]; now rewrite IH.
Qed.

Lemma cancel_before (t : R) (evs : list AutomationEvent) :
  Forall (fun ev : AutomationEvent => event_time ev < t) (cancel t evs).
Proof.
  induction evs as [|ev evs IH]; cbn [cancel]; [constructor|].
  destruct (Rlt_dec (event_time ev) t); [constructor; assumption | assumption].
Qed.

Lemma cancel_idempotent (t : R) (evs : list AutomationEvent) :
  cancel t (cancel t evs) = cancel t evs.
Proof.
  induction evs as [|ev evs IH]; [reflexivity|]. cbn [cancel].
  destruct (Rlt_dec (event_time ev) t) as [Hlt|Hge]; [|exact IH].
  cbn [cancel]. destruct (Rlt_dec (event_time ev) t); [now rewrite IH | contradiction].
Qed.

Lemma smoothTime_pos : 0 < smoothTime.
Proof. unfold smoothTime. lra. Qed.

(** What [smooth] makes of a parameter depends on the value of the
    parameter and on the events before the current time alone. *)
Lemma smooth_cancel (t : R) (v : double) (p p' : AudioParam) :
  value p' = value p -> cancel t (events p') = cancel t (events p) ->
  smooth t v p' = smooth t v p.
Proof.
  unfold smooth, linearRampToValueAtTime, setValueAtTime, cancelScheduledValues.
  cbn [value events]. now intros -> ->.
Qed.

(** [smooth] leaves them as they were, whether the ramp throws or not. *)
Lemma smooth_kept (t : R) (v : double) (p : AudioParam) :
  value (smooth t v p).1 = value p
  /\ cancel t (events (smooth t v p).1) = cancel t (events p).
Proof.
  pose proof smoothTime_pos.
  unfold smooth, linearRampToValueAtTime, setValueAtTime, cancelScheduledValues.
  cbn [value events].
  destruct (to_float v); cbn [fst value events]; (split; [reflexivity|]);
    rewrite ?cancel_app, cancel_idempotent; cbn [cancel event_time];
    destruct (Rlt_dec t t); try lra;
    try (destruct (Rlt_dec (t + smoothTime) t); try lra);
    now rewrite ?app_nil_r.
Qed.

Lemma apply_parameter_kept (f0 f : ParamName) (t : R) (this : Engine) (p : AudioParam) :
  node_param f this = Some p ->
  exists p' : AudioParam,
    node_param f (apply_parameter f0 t this).1 = Some p'
    /\ value p' = value p
    /\ cancel t (events p') = cancel t (events p).
Proof.
  intros Hp. destruct (decide (f0 = f)) as [->|Hne].
  - rewrite apply_parameter_same, Hp. eexists. split; [reflexivity|]. apply smooth_kept.
  - rewrite apply_parameter_other by exact Hne. eauto.
Qed.

Lemma in_turn_kept (fs : list ParamName) (f : ParamName) (t : R) (this : Engine)
    (p : AudioParam) :
  node_param f this = Some p ->
  exists p' : AudioParam,
    node_param f (in_turn fs t this).1 = Some p'
    /\ value p' = value p
    /\ cancel t (events p') = cancel t (events p).
Proof.
  revert this p. induction fs as [|f0 fs IH]; intros this p Hp; cbn [in_turn]; [eauto|].
  rewrite and_then_fst.
  destruct (apply_parameter_kept f0 f t this p Hp) as (p1 & Hp1 & Hv1 & Hc1).
  destruct (apply_parameter f0 t this).2; [eauto|].
  destruct (IH _ p1 Hp1) as (p2 & Hp2 & Hv2 & Hc2).
  exists p2. split; [exact Hp2|]. split; congruence.
Qed.

Lemma setState_kept (f : ParamName) (this : Engine) (newState : PartialState)
    (c : AudioContext) (p : AudioParam) :
  ctx this = Some c -> node_param f this = Some p ->
  exists p' : AudioParam,
    node_param f (setState this newState).1 = Some p'
    /\ value p' = value p
    /\ cancel (currentTime c) (events p') = cancel (currentTime c) (events p).
Proof.
  intros Hc Hp. destruct (setState_engine this newState) as [-> _].
  set (this1 := with_state (spread (state this) newState) this).
  assert (Hp1 : node_param f this1 = Some p)
    by (rewrite <- Hp; now apply node_param_ext).
  rewrite applyState_in_turn.
  change (ctx this1) with (ctx this). rewrite Hc.
  destruct (bitcrusherNode this1); [|eauto].
  destruct (masterGain this1); [|eauto].
  now apply in_turn_kept.
Qed.

(** A ramp that throws makes [applyState] throw. *)
Lemma in_turn_throws (fs : list ParamName) (f : ParamName) (t : R) (this : Engine)
    (p : AudioParam) :
  f ∈ fs -> node_param f this = Some p -> to_float (field f (state this)) = None ->
  (in_turn fs t this).2 = Some NotAFloat.
Proof.
  revert this p. induction fs as [|f0 fs IH]; intros this p Hin Hp Hv;
    [now apply elem_of_nil in Hin|].
  cbn [in_turn]. rewrite and_then_snd.
  destruct (apply_parameter f0 t this).2 as [e|] eqn:Hstep.
  - rewrite apply_parameter_thrown in Hstep.
    destruct (node_param f0 this) as [p0|]; [|discriminate]. cbn in Hstep.
    rewrite smooth_thrown in Hstep.
    destruct (to_float (field f0 (state this))); [discriminate|]. congruence.
  - destruct (decide (f0 = f)) as [->|Hne].
    + rewrite apply_parameter_thrown, Hp in Hstep. cbn in Hstep.
      rewrite smooth_thrown, Hv in Hstep. discriminate.
    + apply elem_of_cons in Hin as [Heq|Hin]; [congruence|].
      destruct (apply_parameter_frame f0 t this) as (_ & _ & _ & _ & Hs & _).
      apply (IH _ p Hin).
      * now rewrite apply_parameter_other.
      * now rewrite Hs.
Qed.

Lemma elem_of_order (f : ParamName) : f ∈ order.
Proof. destruct f; unfold order; set_solver. Qed.

Lemma applyState_throws (f : ParamName) (this : Engine) (c : AudioContext)
    (g : GainNode) (node : AudioWorkletNode) (p : AudioParam) :
  ctx this = Some c -> masterGain this = Some g -> bitcrusherNode this = Some node ->
  node_param f this = Some p -> to_float (field f (state this)) = None ->
  (applyState this).2 = Some NotAFloat.
Proof.
  intros Hc Hg Hn Hp Hv. rewrite applyState_in_turn, Hc, Hg, Hn.
  apply (in_turn_throws order f _ this p (elem_of_order f) Hp Hv).
Qed.

Lemma setState_throws (f : ParamName) (this : Engine) (newState : PartialState)
    (c : AudioContext) (g : GainNode) (node : AudioWorkletNode) (p : AudioParam) :
  ctx this = Some c -> masterGain this = Some g -> bitcrusherNode this = Some node ->
  node_param f this = Some p ->
  to_float (field f (spread (state this) newState)) = None ->
  (setState this newState).2 = ([], Some NotAFloat).
Proof.
  intros Hc Hg Hn Hp Hv.
  pose proof (applyState_throws f (with_state (spread (state this) newState) this)
                c g node p Hc Hg Hn Hp Hv) as Hthrown.
  unfold setState.
  destruct (applyState (with_state (spread (state this) newState) this)) as [this2 [e|]];
    cbn [fst snd] in *; [|discriminate].
  now injection Hthrown as ->.
Qed.

Lemma spread_assign (s : AudioEngineState) (first second : PartialState) :
  spread (spread s first) second = spread s (assign first second).
Proof.
  destruct first as [a b c d], second as [a' b' c' d']. unfold spread, assign.
  cbn. destruct a', b', c', d'; reflexivity.
Qed.

(** X12.  When the second of two calls of [setState] made at the same
    moment is given finite floats for all parameters (so that it does
    not throw), the two calls leave the engine as the single call with the
    merged argument does, whether the first call threw or not: the same
    state, the same timeline on each of the four parameters (the second
    call cancels what the first one scheduled and ramps from the same
    values); and the second call notifies the subscribers as the single
    call does. *)
Theorem setState_twice_is_setState_merged (this : Engine) (first second : PartialState) :
  (forall f : ParamName,
     is_Some (to_float (field f (spread (spread (state this) first) second)))) ->
  state (setState (setState this first).1 second).1 =
    state (setState this (assign first second)).1
  /\ ctx (setState (setState this first).1 second).1 =
     ctx (setState this (assign first second)).1
  /\ samples (setState (setState this first).1 second).1 =
     samples (setState this (assign first second)).1
  /\ isInitialized (setState (setState this first).1 second).1 =
     isInitialized (setState this (assign first second)).1
  /\ stateSubscribers (setState (setState this first).1 second).1 =
     stateSubscribers (setState this (assign first second)).1
  /\ (forall f : ParamName,
        node_param f (setState (setState this first).1 second).1 =
        node_param f (setState this (assign first second)).1)
  /\ (setState (setState this first).1 second).2 =
     (setState this (assign first second)).2.
Proof.
  intros Hall.
  destruct (setState_frame this first) as (Hs1 & Hc1 & Hm1 & Hi1 & Hl1).
  destruct (setState_frame (setState this first).1 second) as (Hs2 & Hc2 & Hm2 & Hi2 & Hl2).
  destruct (setState_frame this (assign first second)) as (Hs & Hc & Hm & Hi & Hl).
  set (e1 := (setState this first).1) in *.
  assert (Hs2' : spread (state e1) second = spread (state this) (assign first second))
    by (now rewrite Hs1, spread_assign).
  split; [congruence|]. split; [congruence|]. split; [congruence|].
  split; [congruence|]. split; [congruence|]. split.
  - intros f.
    destruct (ctx this) as [c|] eqn:Hctx, (masterGain this) as [g|] eqn:Hg,
      (bitcrusherNode this) as [node|] eqn:Hnode.
    2-8: (destruct (setState_engine this first) as [He1 _];
          destruct (setState_engine this (assign first second)) as [Hem _];
          rewrite applyState_unwired in He1, Hem
            by (cbn [with_state ctx bitcrusherNode masterGain]; auto);
          cbn [fst] in He1, Hem;
          destruct (setState_engine e1 second) as [He2 _];
          unfold e1 in He2 |- *; rewrite He1 in He2 |- *;
          rewrite applyState_unwired in He2
            by (cbn [with_state ctx bitcrusherNode masterGain]; auto);
          cbn [fst] in He2; rewrite He2, Hem; now apply node_param_ext).
    assert (Hc1' : ctx e1 = Some c) by congruence.
    assert (Hg1 : is_Some (masterGain e1) /\ is_Some (bitcrusherNode e1)).
    { destruct (setState_engine this first) as [He1 _]. unfold e1. rewrite He1.
      destruct (applyState_frame (with_state (spread (state this) first) this))
        as (_ & _ & _ & _ & _ & Hgg & Hnn).
      split; [apply Hgg | apply Hnn]; cbn [with_state masterGain bitcrusherNode];
        rewrite ?Hg, ?Hnode; eauto. }
    destruct Hg1 as [[g1 Hg1] [n1 Hn1]].
    assert (Hpre1 : forall (f' : ParamName) (p' : AudioParam),
               (rank f' < rank f)%nat -> node_param f' e1 = Some p' ->
               is_Some (to_float (field f' (spread (state e1) second))))
      by (intros f' p' _ _; rewrite Hs2', <- spread_assign; apply Hall).
    assert (Hpre : forall (f' : ParamName) (p' : AudioParam),
               (rank f' < rank f)%nat -> node_param f' this = Some p' ->
               is_Some (to_float (field f' (spread (state this) (assign first second)))))
      by (intros f' p' _ _; rewrite <- spread_assign; apply Hall).
    rewrite (setState_reached f e1 second c g1 n1 Hc1' Hg1 Hn1 Hpre1).
    rewrite (setState_reached f this (assign first second) c g node Hctx Hg Hnode Hpre).
    rewrite Hs2'.
    destruct (node_param f this) as [p|] eqn:Hp.
    + destruct (setState_kept f this first c p Hctx Hp) as (p1 & Hp1 & Hv1 & Hk1).
      fold e1 in Hp1. rewrite Hp1. cbn [fmap option_fmap option_map].
      now rewrite (smooth_cancel _ _ p p1).
    + assert (H1 : node_param f e1 = None).
      { destruct (node_param f e1) eqn:H; [|reflexivity].
        apply mk_is_Some in H. unfold e1 in H. rewrite setState_keeps, Hp in H.
        now destruct H. }
      now rewrite H1.
  - rewrite (setState_returns e1 second)
      by (intros f; rewrite Hs2', <- spread_assign; apply Hall).
    rewrite (setState_returns this (assign first second))
      by (intros f; rewrite <- spread_assign; apply Hall).
    now rewrite Hs2', Hl1.
Qed.

Lemma setState_twice_is_setState_merged_witness :
  node_param BitDepth
    (setState (setState (init (demo_host running) new).1 (only BitDepth (Val NaN))).1
       (only BitDepth (Val (Num 8)))).1 =
  node_param BitDepth
    (setState (init (demo_host running) new).1
       (assign (only BitDepth (Val NaN)) (only BitDepth (Val (Num 8))))).1.
Proof.
  destruct (demo_engine running) as (_ & _ & _ & Hst & _).
  refine (proj1 (proj2 (proj2 (proj2 (proj2 (proj2
            (setState_twice_is_setState_merged (init (demo_host running) new).1
               (only BitDepth (Val NaN)) (only BitDepth (Val (Num 8))) _))))))
            BitDepth).
  intros f. rewrite Hst. destruct f; floats; eauto.
Defined.

(** X13.  What [setState] does to the timeline of a parameter of the
    graph, on an engine that has its nodes.  When no ramp before it throws,
    the timeline holds the events that were scheduled before the current
    time, then the start point of this call, and then the ramp to the
    stored value if that is a finite float, and nothing else: whatever was
    pending is gone; if the stored value is no finite float the call throws
    there.  When the ramp of a parameter before it throws, the timeline is
    as it was. *)
Theorem setState_supersedes_pending_events (this : Engine) (newState : PartialState)
    (f : ParamName) (c : AudioContext) (g : GainNode) (node : AudioWorkletNode)
    (p : AudioParam) :
  ctx this = Some c -> masterGain this = Some g -> bitcrusherNode this = Some node ->
  node_param f this = Some p ->
  ((forall f' : ParamName,
      (rank f' < rank f)%nat ->
      is_Some (to_float (field f' (spread (state this) newState)))) ->
   exists p' : AudioParam,
     node_param f (setState this newState).1 = Some p'
     /\ value p' = value p
     /\ Forall (fun ev : AutomationEvent => event_time ev < currentTime c)
          (cancel (currentTime c) (events p))
     /\ match to_float (field f (spread (state this) newState)) with
        | Some x =>
            events p' =
            cancel (currentTime c) (events p) ++
            [SetValue (value p) (currentTime c);
             LinearRamp x (currentTime c + smoothTime)]
        | None =>
            events p' =
            cancel (currentTime c) (events p) ++ [SetValue (value p) (currentTime c)]
            /\ (setState this newState).2 = ([], Some NotAFloat)
        end)
  /\ (forall (f0 : ParamName) (p0 : AudioParam),
        (rank f0 < rank f)%nat ->
        node_param f0 this = Some p0 ->
        (forall f' : ParamName,
           (rank f' < rank f0)%nat ->
           is_Some (to_float (field f' (spread (state this) newState)))) ->
        to_float (field f0 (spread (state this) newState)) = None ->
        node_param f (setState this newState).1 = Some p
        /\ (setState this newState).2 = ([], Some NotAFloat)).
Proof.
  intros Hc Hg Hn Hp. split.
  - intros Hpre.
    rewrite (setState_reached f this newState c g node Hc Hg Hn), Hp by auto.
    cbn [fmap option_fmap option_map].
    destruct (to_float (field f (spread (state this) newState))) as [x|] eqn:Hv.
    + rewrite (smooth_float _ _ x p Hv). eexists. split; [reflexivity|].
      cbn [fst value events]. split; [reflexivity|].
      split; [apply cancel_before | reflexivity].
    + rewrite (smooth_refused _ _ p Hv). eexists. split; [reflexivity|].
      cbn [fst value events]. split; [reflexivity|].
      split; [apply cancel_before|]. split; [reflexivity|].
      now apply (setState_throws f this newState c g node p).
  - intros f0 p0 Hlt Hp0 Hpre Hv.
    destruct (setState_stopped f0 p0 this newState c g node Hc Hg Hn) as [Hthrown Hafter];
      auto.
    split; [now rewrite Hafter | exact Hthrown].
Qed.

Lemma setState_supersedes_pending_events_witness :
  exists (c : AudioContext) (p p' : AudioParam),
    ctx (init (demo_host running) new).1 = Some c
    /\ node_param MasterVolume (init (demo_host running) new).1 = Some p
    /\ node_param MasterVolume
         (setState (init (demo_host running) new).1 (only BitDepth (Val (Num 8)))).1 =
       Some p'
    /\ events p' =
       cancel (currentTime c) (events p) ++
       [SetValue (value p) (currentTime c);
        LinearRamp (fround (8 / 10)) (currentTime c + smoothTime)].
Proof.
  destruct (demo_engine running) as (_ & Hc & _ & Hst & Hi & Hreach & Hpar).
  destruct (reachable_nodes _ Hreach Hi) as (c & g & node & Hc' & Hg & Hn).
  destruct (Hpar MasterVolume) as (p & x & Hp & _ & _).
  destruct (setState_supersedes_pending_events (init (demo_host running) new).1
              (only BitDepth (Val (Num 8))) MasterVolume c g node p Hc' Hg Hn Hp)
    as [Hdone _].
  destruct Hdone as (p' & Hp' & _ & _ & Hev); [intros f' Hlt; cbn in Hlt; lia|].
  exists c, p, p'. split; [exact Hc'|]. split; [exact Hp|]. split; [exact Hp'|].
  revert Hev. rewrite Hst. floats. auto.
Defined.

(** ** Subscribers *)


(** X14.  [setState] stores the merged state whether it throws or not.  It
    throws exactly when the graph has a parameter for which the merged
    state holds no finite float, and then calls no subscriber; otherwise
    it calls every subscribed callback, once for each time it was
    subscribed and in the order of subscription, with one and the same
    snapshot: the state after the call. *)
Theorem setState_notifies_every_subscriber (this : Engine) (newState : PartialState) :
  getState (setState this newState).1 = spread (state this) newState
  /\ stateSubscribers (setState this newState).1 = stateSubscribers this
  /\ ((setState this newState).2 =
        (map (fun cb : StateSubscriber => (cb, getState (setState this newState).1))
           (stateSubscribers this), None)
      \/ (setState this newState).2 = ([], Some NotAFloat))
  /\ ((setState this newState).2.2 = Some NotAFloat <->
      is_Some (ctx this) /\ is_Some (masterGain this) /\ is_Some (bitcrusherNode this)
      /\ exists (f : ParamName) (p : AudioParam),
           node_param f this = Some p
           /\ to_float (field f (spread (state this) newState)) = None).
Proof.
  destruct (setState_frame this newState) as (Hs & _ & _ & _ & Hl).
  assert (Hget : getState (setState this newState).1 = spread (state this) newState)
    by (now rewrite getState_state).
  split; [exact Hget|]. split; [exact Hl|].
  destruct (setState_engine this newState) as [_ Herr].
  set (this1 := with_state (spread (state this) newState) this) in *.
  assert (Hcalls : (setState this newState).2 =
                   match (applyState this1).2 with
                   | None =>
                       (map (fun cb : StateSubscriber =>
                               (cb, getState (setState this newState).1))
                          (stateSubscribers this), None)
                   | Some e => ([], Some e)
                   end).
  { rewrite Hget. unfold setState. fold this1.
    destruct (applyState_frame this1) as (_ & _ & _ & Hsubs & Hstate & _).
    destruct (applyState this1) as [this2 [e|]]; cbn [fst snd] in *; [reflexivity|].
    unfold notifySubscribers. now rewrite getState_state, Hsubs, Hstate. }
  split.
  - rewrite Hcalls. destruct (applyState this1).2 as [e|] eqn:He; [|now left].
    right. now destruct (applyState_thrown this1 e He) as [-> _].
  - rewrite Herr. split.
    + intros He. destruct (applyState_thrown this1 _ He) as (_ & f & p & Hp & Hv).
      rewrite applyState_in_turn in He. cbn [this1 with_state ctx bitcrusherNode masterGain] in He.
      destruct (ctx this); [|discriminate].
      destruct (bitcrusherNode this); [|discriminate].
      destruct (masterGain this); [|discriminate].
      repeat (split; [eauto|]). exists f, p. split; [|exact Hv].
      rewrite <- Hp. symmetry. now apply node_param_ext.
    + intros ([c Hc] & [g Hg] & [node Hn] & f & p & Hp & Hv).
      apply (applyState_throws f this1 c g node p); assumption.
Qed.



(** ** Initialization *)

(** X16.  [init] on an engine that is initialized consults the host for
    nothing but the resumption of a suspended context and builds nothing:
    it keeps the nodes, the samples, the state, the subscribers and the
    sources that are playing.  On a running context it does nothing.  On a
    suspended context it resumes the context and leaves the engine in the
    state Ready, or, when the host rejects the resumption, rethrows the
    host's error and leaves the engine as it was, suspended. *)
Theorem init_again_only_resumes (host : Host) (this : Engine) :
  reachable this ->
  isInitialized this = true ->
  init host this = resume host this
  /\ isInitialized (init host this).1 = true
  /\ masterGain (init host this).1 = masterGain this
  /\ bitcrusherNode (init host this).1 = bitcrusherNode this
  /\ samples (init host this).1 = samples this
  /\ state (init host this).1 = state this
  /\ stateSubscribers (init host this).1 = stateSubscribers this
  /\ sources <$> ctx (init host this).1 = sources <$> ctx this
  /\ (phase this = Ready -> init host this = (this, None))
  /\ (phase this = Suspended ->
      match resumes host with
      | Fulfilled _ =>
          (init host this).2 = None
          /\ phase (init host this).1 = Ready
          /\ init host (init host this).1 = ((init host this).1, None)
      | Rejected e => init host this = (this, Some (HostError e))
      end)
  /\ (phase this = Ready \/ phase this = Suspended).
Proof.
  intros Hreach Hi.
  destruct (reachable_nodes this Hreach Hi) as (c & g & node & Hc & Hg & Hn).
  unfold init. rewrite Hi. split; [reflexivity|].
  unfold resume, phase. rewrite Hi, Hc.
  destruct (WebAudio.state c) eqn:Hs; [destruct (resumes host) as [u|e]|];
    cbn [fst snd with_ctx isInitialized ctx masterGain bitcrusherNode samples state
         stateSubscribers in_state WebAudio.state sources fmap option_fmap option_map];
    rewrite ?Hi, ?Hc, ?Hs;
    cbn [fst snd with_ctx isInitialized ctx masterGain bitcrusherNode samples state
         stateSubscribers in_state WebAudio.state sources fmap option_fmap option_map];
    repeat (split; [try reflexivity; try (intros; discriminate); auto|]);
    try (intros; discriminate); auto.
Qed.

Lemma init_again_only_resumes_witness :
  init stubborn_host (init stubborn_host new).1 =
    ((init stubborn_host new).1, Some (HostError "NotAllowedError"))
  /\ (init (demo_host suspended) (init stubborn_host new).1).2 = None
  /\ phase (init (demo_host suspended) (init stubborn_host new).1).1 = Ready.
Proof.
  destruct (init_success stubborn_host new (demo_context suspended) bitcrusher_node
              eq_refl eq_refl eq_refl eq_refl new_floats)
    as (x & _ & _ & Hc & _ & _ & _ & Hi & _).
  assert (Hreach : reachable (init stubborn_host new).1) by (apply rtc_once, step_init).
  assert (Hphase : phase (init stubborn_host new).1 = Suspended)
    by (unfold phase; now rewrite Hi, Hc).
  destruct (init_again_only_resumes stubborn_host (init stubborn_host new).1 Hreach Hi)
    as (_ & _ & _ & _ & _ & _ & _ & _ & _ & Hrejected & _).
  destruct (init_again_only_resumes (demo_host suspended) (init stubborn_host new).1
              Hreach Hi)
    as (_ & _ & _ & _ & _ & _ & _ & _ & _ & Hresumed & _).
  split; [exact (Hrejected Hphase)|].
  destruct (Hresumed Hphase) as (H1 & H2 & _). split; [exact H1 | exact H2].
Defined.

(** X17.  When every step of starting audio succeeds on the host and the
    state holds a finite float for each of the four parameters, [init] on
    an engine that is not initialized throws nothing, marks the engine
    initialized, keeps the state, the samples and the subscribers, sets the
    gain to the master volume (as a float), and schedules on every
    parameter the host's node has a ramp to the float of the value the
    state holds, ending 20 ms after the
    context's current time: values stored by [setState] before [init] reach
    the graph then.  When the state holds no finite float for a parameter
    the graph has, [init] throws a [TypeError] and the engine is not
    initialized, although the context, the node and the gain are
    assigned. *)
Theorem init_applies_the_stored_state (host : Host) (this : Engine)
    (c : AudioContext) (node : AudioWorkletNode) :
  isInitialized this = false ->
  newAudioContext host = Fulfilled c ->
  addModule host = Fulfilled tt ->
  newAudioWorkletNode host = Fulfilled node ->
  ((forall f : ParamName, is_Some (to_float (field f (state this)))) ->
   (init host this).2 = None
   /\ isInitialized (init host this).1 = true
   /\ ctx (init host this).1 = Some c
   /\ state (init host this).1 = state this
   /\ samples (init host this).1 = samples this
   /\ stateSubscribers (init host this).1 = stateSubscribers this
   /\ (value <$> node_param MasterVolume (init host this).1) =
      to_float (masterVolume (state this))
   /\ (forall (f : ParamName) (p : AudioParam),
         node_param f (init host this).1 = Some p ->
         exists x : R,
           to_float (field f (state this)) = Some x
           /\ last (events p) = Some (LinearRamp x (currentTime c + smoothTime))))
  /\ (forall f : ParamName,
        f = MasterVolume \/ is_Some (node_param f (with_bitcrusherNode (Some node) this)) ->
        to_float (field f (state this)) = None ->
        (init host this).2 = Some NotAFloat
        /\ isInitialized (init host this).1 = false
        /\ ctx (init host this).1 = Some c
        /\ is_Some (bitcrusherNode (init host this).1)
        /\ is_Some (masterGain (init host this).1)
        /\ state (init host this).1 = state this).
Proof.
  intros Hi Hc Hm Hn. split.
  - intros Hall.
    destruct (init_success host this c node Hi Hc Hm Hn Hall)
      as (x & Hx & Hinit & Hc' & Hs & Hst & Hsubs & Hi' & Hpar).
    split; [now rewrite Hinit|]. repeat (split; [assumption|]). split.
    + assert (Hgain : node_param MasterVolume (assembled c node x this) =
                      Some {| value := x; events := [SetValue x (currentTime c)] |})
        by reflexivity.
      rewrite Hpar, Hgain.
      destruct (smooth_kept (currentTime c) (field MasterVolume (state this))
                  {| value := x; events := [SetValue x (currentTime c)] |}) as [Hval _].
      cbn [fmap option_fmap option_map]. rewrite Hval.
      cbn [value]. now rewrite Hx.
    + intros f p. rewrite Hpar.
      destruct (node_param f (assembled c node x this)) as [p0|]; [|discriminate].
      intros [= <-]. destruct (Hall f) as [y Hy]. exists y.
      split; [exact Hy|].
      rewrite (smooth_float _ _ y p0 Hy). cbn [fst events]. now rewrite last_app.
  - intros f Hf Hv.
    destruct (to_float (masterVolume (state this))) as [x|] eqn:Hx; cycle 1.
    { rewrite (init_refused host this c node Hi Hc Hm Hn Hx).
      cbn [fst snd with_masterGain with_bitcrusherNode with_ctx isInitialized ctx
           bitcrusherNode masterGain state].
      repeat (split; [eauto|]). reflexivity. }
    rewrite (init_assembles host this c node x Hi Hc Hm Hn Hx).
    assert (Hp : is_Some (node_param f (assembled c node x this))).
    { destruct Hf as [->|Hf]; [cbn; eauto|].
      destruct f; [cbn; eauto | exact Hf | exact Hf | exact Hf]. }
    destruct Hp as [p Hp].
    pose proof (applyState_throws f (assembled c node x this) c _ node p
                  eq_refl eq_refl eq_refl Hp Hv) as Hthrown.
    destruct (applyState_frame (assembled c node x this))
      as (Hc5 & _ & Hi5 & _ & Hs5 & Hg5 & Hn5).
    destruct (applyState (assembled c node x this)) as [this5 [e|]];
      cbn [fst snd] in *; [|discriminate].
    split; [exact Hthrown|]. split; [now rewrite Hi5|]. split; [now rewrite Hc5|].
    split; [apply Hn5; cbn; eauto|]. split; [apply Hg5; cbn; eauto | now rewrite Hs5].
Qed.

Lemma init_applies_the_stored_state_witness :
  isInitialized (setState new (only BitDepth (Val (Num 8)))).1 = false
  /\ (init (demo_host running) (setState new (only BitDepth (Val (Num 8)))).1).2 = None
  /\ isInitialized
       (init (demo_host running) (setState new (only BitDepth (Val (Num 8)))).1).1 = true
  /\ bitDepth
       (state (init (demo_host running) (setState new (only BitDepth (Val (Num 8)))).1).1) =
     Val (Num 8).
Proof.
  assert (Hi : isInitialized (setState new (only BitDepth (Val (Num 8)))).1 = false)
    by reflexivity.
  split; [exact Hi|].
  destruct (init_applies_the_stored_state (demo_host running)
              (setState new (only BitDepth (Val (Num 8)))).1 (demo_context running)
              bitcrusher_node Hi eq_refl eq_refl eq_refl) as [Hstarts _].
  destruct Hstarts as (H1 & H2 & _ & H4 & _).
  { intros f. destruct f; floats; eauto. }
  split; [exact H1|]. split; [exact H2|]. rewrite H4. reflexivity.
Defined.

(** ** Voices *)

Lemma triggerPad_frame (this : Engine) (padIndex : Z) :
  samples (triggerPad this padIndex) = samples this
  /\ bitcrusherNode (triggerPad this padIndex) = bitcrusherNode this
  /\ masterGain (triggerPad this padIndex) = masterGain this
  /\ state (triggerPad this padIndex) = state this
  /\ isInitialized (triggerPad this padIndex) = isInitialized this
  /\ stateSubscribers (triggerPad this padIndex) = stateSubscribers this.
Proof.
  destruct this as [c g n m b l s]. unfold triggerPad.
  cbn [ctx bitcrusherNode samples].
  destruct c, n; try destruct (m !! padIndex); repeat split.
Qed.



End EngineExtras.

(** * The store and the engine it drives *)

Section StoreFacts.

Import WebAudio AudioEngine Lifecycle.

Lemma resume_frame (host : Host) (this : Engine) :
  state (resume host this).1 = state this
  /\ samples (resume host this).1 = samples this
  /\ isInitialized (resume host this).1 = isInitialized this.
Proof.
  unfold resume. destruct (ctx this) as [c|]; [|auto].
  destruct (WebAudio.state c); [destruct (resumes host)|]; auto.
Qed.

Lemma init_frame (host : Host) (this : Engine) :
  state (init host this).1 = state this
  /\ samples (init host this).1 = samples this
  /\ match (init host this).2 with
     | None => isInitialized (init host this).1 = true
     | Some _ => isInitialized (init host this).1 = isInitialized this
     end.
Proof.
  unfold init. destruct (isInitialized this) eqn:Hi.
  - destruct (resume_frame host this) as (-> & -> & ->).
    rewrite Hi. now destruct (resume host this).2.
  - destruct (newAudioContext host) as [c|e]; [|cbn; auto].
    destruct (addModule host) as [[]|e]; [|cbn; auto].
    destruct (newAudioWorkletNode host) as [node|e]; [|cbn; auto].
    cbn zeta. destruct (set_value _ _ _) as [p|]; [|cbn; auto].
    set (this4 := with_masterGain _ _).
    destruct (applyState_frame this4) as (_ & Hs & Hi4 & _ & Hst & _).
    destruct (applyState this4) as [this5 [e|]]; cbn [fst snd] in *.
    + rewrite Hs, Hst, Hi4. auto.
    + cbn [with_isInitialized state samples isInitialized]. rewrite Hs, Hst. auto.
Qed.

Lemma loadSample_frame (this : Engine) (padIndex : Z) (file : File) :
  state (loadSample this padIndex file).1 = state this
  /\ isInitialized (loadSample this padIndex file).1 = isInitialized this
  /\ match (loadSample this padIndex file).2 with
     | None => exists buf : AudioBuffer,
         samples (loadSample this padIndex file).1 = <[padIndex := buf]> (samples this)
     | Some _ => samples (loadSample this padIndex file).1 = samples this
     end.
Proof.
  unfold loadSample. destruct (ctx this) as [c|]; [|cbn; auto].
  destruct (decodeAudioData c (arrayBuffer file)) as [buf|]; cbn; eauto.
Qed.

Lemma host_step_frame (this this' : Engine) :
  host_step this this' ->
  state this' = state this
  /\ samples this' = samples this
  /\ isInitialized this' = isInitialized this.
Proof. intros [c c' _ _ | g g' node node' _ _ _ _]; auto. Qed.

(** A setter of the store: the store takes the value, and the engine
    takes it whether its [setState] throws or not. *)
Lemma setter_mirrors (f : ParamName) (v : double)
    (update : Store.SP1200State -> Store.SP1200State) (w : Store.World) :
  (forall s : Store.SP1200State,
     Store.audioInitialized (update s) = Store.audioInitialized s
     /\ Store.loadedSamples (update s) = Store.loadedSamples s
     /\ forall f' : ParamName,
          Store.shown f' (update s) = default (Store.shown f' s) (named f' (only f v))) ->
  Store.mirrors w ->
  Store.mirrors
    (Store.on_engine (Store.engine_setState (only f v)) (Store.set update w)).1.
Proof.
  intros Hupdate (Hpar & Hini & Hsam).
  unfold Store.mirrors, Store.on_engine, Store.engine_setState, Store.set.
  cbn [fst Store.store Store.audioEngine].
  destruct (setState_frame (Store.audioEngine w) (only f v)) as (-> & _ & -> & -> & _).
  destruct (Hupdate (Store.store w)) as (-> & -> & Hshown).
  split; [|auto]. intros f'. now rewrite field_spread, Hshown, Hpar.
Qed.

Lemma setMasterVolume_mirrors (v : double) (w : Store.World) :
  Store.mirrors w -> Store.mirrors (Store.setMasterVolume v w).1.
Proof.
  apply (setter_mirrors MasterVolume). intros s. repeat split. now intros [].
Qed.

Lemma setBitDepth_mirrors (v : double) (w : Store.World) :
  Store.mirrors w -> Store.mirrors (Store.setBitDepth v w).1.
Proof.
  apply (setter_mirrors BitDepth). intros s. repeat split. now intros [].
Qed.

Lemma setReduction_mirrors (v : double) (w : Store.World) :
  Store.mirrors w -> Store.mirrors (Store.setReduction v w).1.
Proof.
  apply (setter_mirrors Reduction). intros s. repeat split. now intros [].
Qed.

Lemma setMix_mirrors (v : double) (w : Store.World) :
  Store.mirrors w -> Store.mirrors (Store.setMix v w).1.
Proof.
  apply (setter_mirrors Mix). intros s. repeat split. now intros [].
Qed.

Lemma step_mirrors (w w' : Store.World) :
  Store.step w w' -> Store.mirrors w -> Store.mirrors w'.
Proof.
  intros Hstep.
  destruct Hstep as [host w|v w|v w|v w|v w|index v w|w|pad file w|pad w|w e Hhost].
  - intros (Hpar & Hini & Hsam). unfold Store.mirrors, Store.initAudio.
    destruct (init_frame host (Store.audioEngine w)) as (Hst & Hs & Hi).
    destruct (init host (Store.audioEngine w)) as [e [err|]]; cbn [fst snd] in *.
    + cbn [Store.store Store.audioEngine]. rewrite Hst, Hs, Hi. auto.
    + unfold Store.on_engine, Store.engine_setState.
      cbn [fst Store.store Store.audioEngine].
      match goal with
      | |- context [setState ?e ?ns] =>
          destruct (setState_frame e ns) as (-> & _ & -> & -> & _)
      end.
      rewrite Hi, Hs.
      split; [intros []; reflexivity|]. auto.
  - apply setMasterVolume_mirrors.
  - apply setBitDepth_mirrors.
  - apply setReduction_mirrors.
  - apply setMix_mirrors.
  - intros Hm. unfold Store.setSliderValue.
    set (w1 := Store.set _ w).
    assert (Hm1 : Store.mirrors w1) by exact Hm.
    destruct index as [|[[p|p|]|[p|p|]|]|p]; try exact Hm1.
    + now apply setMasterVolume_mirrors.
    + now apply setMix_mirrors.
    + now apply setReduction_mirrors.
    + now apply setBitDepth_mirrors.
  - unfold Store.cycleBank. destruct (Store.banks !! _); auto.
  - intros (Hpar & Hini & Hsam). unfold Store.mirrors, Store.loadSample.
    destruct (loadSample_frame (Store.audioEngine w) pad file) as (Hst & Hi & Hs).
    destruct (loadSample (Store.audioEngine w) pad file) as [e [err|]]; cbn [fst snd] in *.
    + cbn [Store.store Store.audioEngine]. rewrite Hst, Hi, Hs. auto.
    + destruct Hs as [buf Hs]. cbn [Store.store Store.audioEngine]. rewrite Hst, Hi, Hs.
      split; [exact Hpar|]. split; [exact Hini|].
      intros pad'. cbn [Store.loadedSamples Store.with_loadedSamples].
      destruct (decide (pad' = pad)) as [->|Hne].
      * rewrite !lookup_insert_eq. split; eauto.
      * rewrite !lookup_insert_ne by congruence. apply Hsam.
  - intros (Hpar & Hini & Hsam). unfold Store.mirrors, Store.triggerPad.
    cbn [Store.store Store.audioEngine].
    destruct (triggerPad_frame (Store.audioEngine w) pad) as (-> & _ & _ & -> & -> & _). auto.
  - intros (Hpar & Hini & Hsam). unfold Store.mirrors. cbn [Store.store Store.audioEngine].
    destruct (host_step_frame _ _ Hhost) as (-> & -> & ->). auto.
Qed.

Lemma reachable_mirrors (w : Store.World) : Store.reachable w -> Store.mirrors w.
Proof.
  unfold Store.reachable. revert w.
  apply (rtc_ind_r (fun w : Store.World => Store.mirrors w) Store.create).
  - split; [intros []; reflexivity|]. split; [reflexivity|].
    intros pad. cbn. rewrite !lookup_empty. split; intros [x Hx]; discriminate.
  - intros w w' _ Hstep IH. now apply (step_mirrors w w').
Qed.

Lemma step_engine (w w' : Store.World) :
  Store.step w w' -> rtc Lifecycle.step (Store.audioEngine w) (Store.audioEngine w').
Proof.
  intros [host w0|v w0|v w0|v w0|v w0|index v w0|w0|pad file w0|pad w0|w0 e Hhost].
  - unfold Store.initAudio.
    pose proof (step_init host (Store.audioEngine w0)) as Hinit.
    destruct (init host (Store.audioEngine w0)) as [e [err|]]; cbn [fst snd] in *.
    + now apply rtc_once.
    + eapply rtc_l; [exact Hinit|]. apply rtc_once, step_setState.
  - apply rtc_once, step_setState.
  - apply rtc_once, step_setState.
  - apply rtc_once, step_setState.
  - apply rtc_once, step_setState.
  - unfold Store.setSliderValue.
    destruct index as [|[[p|p|]|[p|p|]|]|p]; try apply rtc_refl;
      apply rtc_once, step_setState.
  - unfold Store.cycleBank. destruct (Store.banks !! _); apply rtc_refl.
  - unfold Store.loadSample.
    pose proof (step_loadSample (Store.audioEngine w0) pad file) as Hload.
    destruct (loadSample (Store.audioEngine w0) pad file) as [e [err|]]; cbn [fst snd] in *;
      now apply rtc_once.
  - apply rtc_once, step_triggerPad.
  - now apply rtc_once, step_host.
Qed.

Lemma reachable_engine (w : Store.World) :
  Store.reachable w -> Lifecycle.reachable (Store.audioEngine w).
Proof.
  unfold Store.reachable. revert w.
  apply (rtc_ind_r (fun w : Store.World => Lifecycle.reachable (Store.audioEngine w))
           Store.create).
  - apply rtc_refl.
  - intros w w' _ Hstep IH. unfold Lifecycle.reachable in *.
    etrans; [exact IH|]. now apply step_engine.
Qed.

Lemma reachable_started (w : Store.World) :
  Store.reachable w ->
  Store.audioInitialized (Store.store w) = isInitialized (Store.audioEngine w)
  /\ (Store.audioInitialized (Store.store w) = true ->
      exists (c : AudioContext) (g : GainNode) (node : AudioWorkletNode),
        ctx (Store.audioEngine w) = Some c
        /\ masterGain (Store.audioEngine w) = Some g
        /\ bitcrusherNode (Store.audioEngine w) = Some node).
Proof.
  intros Hw. destruct (reachable_mirrors w Hw) as (_ & Hini & _).
  split; [now rewrite Hini|].
  intros Ha. apply reachable_nodes; [now apply reachable_engine | congruence].
Qed.

(** X19.  In every world the page can be in, the store mirrors the engine,
    whatever the order of the actions and whichever of them failed:
    [getState] returns for each parameter the value the store shows; the
    store says that audio is started exactly when the engine is
    initialized, and then the engine is ready or suspended; and the pads
    for which the store shows a file name are the pads for which
    [hasSample] holds. *)
Theorem store_mirrors_the_engine (w : Store.World) :
  Store.reachable w ->
  (forall f : ParamName,
     field f (getState (Store.audioEngine w)) = Store.shown f (Store.store w))
  /\ Store.audioInitialized (Store.store w) = initialized (Store.audioEngine w)
  /\ (Store.audioInitialized (Store.store w) = true <->
      phase (Store.audioEngine w) <> Uninitialized)
  /\ (forall pad : Z,
        hasSample (Store.audioEngine w) pad =
        bool_decide (is_Some (Store.loadedSamples (Store.store w) !! pad))).
Proof.
  intros Hw. destruct (reachable_mirrors w Hw) as (Hpar & Hini & Hsam).
  destruct (reachable_started w Hw) as [_ Hnodes].
  split; [intros f; now rewrite field_getState|].
  split; [unfold initialized; now rewrite Hini|].
  split.
  - unfold phase. rewrite Hini.
    destruct (Store.audioInitialized (Store.store w)).
    + destruct (Hnodes eq_refl) as (c & _ & _ & -> & _). split; [|reflexivity].
      intros _. now destruct (WebAudio.state c).
    + split; [discriminate|]. intros Hne. now contradiction Hne.
  - intros pad. unfold hasSample. apply bool_decide_ext, Hsam.
Qed.

Lemma store_mirrors_the_engine_witness :
  Store.reachable
    (Store.setSliderValue 1 (Val (Num 50))
       (Store.loadSample 3 (demo_file "snare.wav" [])
          (Store.initAudio (demo_host running) Store.create).1).1).1
  /\ field BitDepth
       (getState
          (Store.audioEngine
             (Store.setSliderValue 1 (Val (Num 50))
                (Store.loadSample 3 (demo_file "snare.wav" [])
                   (Store.initAudio (demo_host running) Store.create).1).1).1)) =
     Store.shown BitDepth
       (Store.store
          (Store.setSliderValue 1 (Val (Num 50))
             (Store.loadSample 3 (demo_file "snare.wav" [])
                (Store.initAudio (demo_host running) Store.create).1).1).1).
Proof.
  refine (let Hw :=
            rtc_l _ _ _ _ (Store.step_initAudio (demo_host running) Store.create)
              (rtc_l _ _ _ _ (Store.step_loadSample 3 (demo_file "snare.wav" []) _)
                 (rtc_once _ _ (Store.step_setSliderValue 1 (Val (Num 50)) _))) in
          conj Hw (proj1 (store_mirrors_the_engine _ Hw) BitDepth)).
Defined.

(** X20.  In every world the page can be in, a parameter of the audio graph
    is scheduled to come to rest at the value the store shows for it,
    provided the store shows finite floats for this parameter and for the
    parameters that [applyState] takes before it (master volume, bit depth,
    reduction, mix, in this order): then no ramp up to this one has thrown
    since the values were stored. *)
Theorem graph_heads_for_what_the_store_shows (w : Store.World) (f : ParamName)
    (p : AudioParam) :
  Store.reachable w ->
  node_param f (Store.audioEngine w) = Some p ->
  (forall f' : ParamName,
     (rank f' <= rank f)%nat -> is_Some (to_float (Store.shown f' (Store.store w)))) ->
  ramp_target p = to_float (Store.shown f (Store.store w)).
Proof.
  intros Hw Hp Hfloats. destruct (reachable_mirrors w Hw) as (Hpar & _).
  destruct (reachable_invariant _ (reachable_engine w Hw)) as [_ Hsync].
  rewrite <- Hpar. apply Hsync; [exact Hp|].
  intros f' Hle. rewrite Hpar. now apply Hfloats.
Qed.

Lemma started_world :
  Store.reachable (Store.initAudio (demo_host running) Store.create).1
  /\ Store.store (Store.initAudio (demo_host running) Store.create).1 =
     Store.with_audioInitialized true Store.initialState
  /\ (Store.initAudio (demo_host running) Store.create).2 = None
  /\ (forall f : ParamName,
        is_Some (node_param f
                   (Store.audioEngine (Store.initAudio (demo_host running) Store.create).1)))
  /\ ctx (Store.audioEngine (Store.initAudio (demo_host running) Store.create).1) =
     Some (demo_context running)
  /\ samples (Store.audioEngine (Store.initAudio (demo_host running) Store.create).1) = ∅.
Proof.
  destruct (demo_engine running) as (Hnone & Hc & Hs & Hst & _ & _ & Hpar).
  split; [apply rtc_once, Store.step_initAudio|].
  unfold Store.initAudio. cbn [Store.audioEngine Store.create].
  destruct (init (demo_host running) new) as [e [err|]] eqn:Hinit;
    cbn [fst snd] in *; [discriminate|].
  unfold Store.on_engine, Store.engine_setState. cbn [fst snd Store.store Store.audioEngine].
  match goal with
  | |- context [setState e ?ns] =>
      destruct (setState_frame e ns) as (_ & Hc' & Hs' & _)
  end.
  split; [reflexivity|]. split; [|split; [|split]].
  - rewrite setState_returns; [reflexivity|].
    intros f. rewrite Hst.
    destruct f; cbn -[to_float]; rewrite to_float_small by lra; eauto.
  - intros f. rewrite setState_keeps. destruct (Hpar f) as (p & x & -> & _). eauto.
  - now rewrite Hc'.
  - now rewrite Hs'.
Qed.

Lemma graph_heads_for_what_the_store_shows_witness :
  exists p : AudioParam,
    node_param Mix (Store.audioEngine (Store.initAudio (demo_host running) Store.create).1)
    = Some p
    /\ ramp_target p = Some 1.
Proof.
  destruct started_world as (Hw & Hstore & _ & Hpar & _).
  destruct (Hpar Mix) as [p Hp]. exists p. split; [exact Hp|].
  rewrite (graph_heads_for_what_the_store_shows _ Mix p Hw Hp).
  - rewrite Hstore. cbn -[to_float].
    apply to_float_exact; [apply (is_float32_IZR 1); reflexivity | lra].
  - intros f' _. rewrite Hstore.
    destruct f'; cbn -[to_float]; rewrite to_float_small by lra; eauto.
Defined.

End StoreFacts.

(** * The front panel *)

Section PanelFacts.

Import WebAudio AudioEngine Lifecycle.

(** ** The sliders *)

Lemma floorZ_half : floorZ (1 / 2) = 0%Z.
Proof. apply floorZ_unique. lra. Qed.

Lemma floorZ_100_half : floorZ (100 + 1 / 2) = 100%Z.
Proof. apply floorZ_unique. lra. Qed.

Lemma round_whole (x : R) :
  0 <= x <= 100 -> SP1200.whole_percentage (IZR (floorZ (100 - x + 1 / 2))).
Proof.
  intros Hx. exists (floorZ (100 - x + 1 / 2)). split; [reflexivity|].
  assert (H0 : (floorZ (1 / 2) <= floorZ (100 - x + 1 / 2))%Z) by (apply floorZ_mono; lra).
  assert (H1 : (floorZ (100 - x + 1 / 2) <= floorZ (100 + 1 / 2))%Z) by (apply floorZ_mono; lra).
  rewrite floorZ_half in H0. rewrite floorZ_100_half in H1. lia.
Qed.

Lemma percentage_on_track (clientY top height : R) :
  height <> 0 ->
  SP1200.percentage clientY top height =
  Num (Rmax 0 (Rmin 100 ((clientY - top) / height * 100))).
Proof.
  intros Hh. unfold SP1200.percentage. cbn zeta.
  destruct (Req_dec_T height 0) as [He|_]; [contradiction|reflexivity].
Qed.

Lemma clamp_bounds (x : R) : 0 <= Rmax 0 (Rmin 100 x) <= 100.
Proof. unfold Rmax, Rmin. repeat destruct (Rle_dec _ _); lra. Qed.

Lemma slider_value_whole (clientY top height v : R) :
  SP1200.slider_value clientY top height = Num v -> SP1200.whole_percentage v.
Proof.
  unfold SP1200.slider_value, SP1200.percentage. cbn zeta.
  destruct (Req_dec_T height 0) as [He|Hne].
  - destruct (Req_dec_T (clientY - top) 0) as [Hy|Hy]; [discriminate|].
    destruct (Rlt_dec 0 (clientY - top)); intros [= <-]; apply round_whole; lra.
  - intros [= <-]. apply round_whole, clamp_bounds.
Qed.

Lemma slider_value_NaN_or (clientY top height : R) :
  SP1200.NaN_or SP1200.whole_percentage (Val (SP1200.slider_value clientY top height)).
Proof.
  destruct (SP1200.slider_value clientY top height) as [v|] eqn:Hv; [|now left].
  right. exists v. split; [reflexivity|]. now apply (slider_value_whole clientY top height).
Qed.

Lemma ddiv_100 (x : R) : ddiv (Val (Num x)) (Val (Num 100)) = Val (Num (x / 100)).
Proof. cbn. destruct (Req_dec_T 100 0); [lra|reflexivity]. Qed.

Lemma slider_map_Num (f : ParamName) (x : R) :
  SP1200.slider_map f (Val (Num x)) =
  Val (Num match f with
           | MasterVolume | Mix => x / 100
           | BitDepth => 4 + x / 100 * 12
           | Reduction => 1 + x / 100 * 15
           end).
Proof. destruct f; unfold SP1200.slider_map; rewrite ddiv_100; reflexivity. Qed.

Lemma slider_map_NaN (f : ParamName) : SP1200.slider_map f (Val NaN) = Val NaN.
Proof. now destruct f. Qed.

Lemma slider_map_within (f : ParamName) (v : double) :
  SP1200.NaN_or SP1200.whole_percentage v ->
  SP1200.NaN_or (SP1200.slider_range f) (SP1200.slider_map f v).
Proof.
  intros [-> | (r & -> & n & -> & Hn)]; [left; apply slider_map_NaN|].
  right. rewrite slider_map_Num. eexists. split; [reflexivity|].
  assert (H0 : 0 <= IZR n) by (apply IZR_le; lia).
  assert (H1 : IZR n <= 100) by (apply IZR_le; lia).
  destruct f; cbn; lra.
Qed.

(** X21.  On a track that has a height, the value a pointer event sets is a
    whole number of percent between 0 and 100: 100 at the top of the track
    and above it, 0 at the bottom and below it, in between the whole
    number nearest to the height of the pointer above the bottom, in
    percent of the track; and a lower pointer never gives a higher value. *)
Theorem slider_value_follows_the_pointer (clientY top height : R) :
  0 < height ->
  exists n : Z,
    SP1200.slider_value clientY top height = Num (IZR n)
    /\ (0 <= n <= 100)%Z
    /\ (clientY <= top -> n = 100%Z)
    /\ (top + height <= clientY -> n = 0%Z)
    /\ (top <= clientY <= top + height ->
        Rabs (IZR n - (100 - (clientY - top) / height * 100)) <= 1 / 2)
    /\ (forall clientY' : R, clientY <= clientY' ->
        exists n' : Z,
          SP1200.slider_value clientY' top height = Num (IZR n') /\ (n' <= n)%Z).
Proof.
  intros Hh. unfold SP1200.slider_value.
  assert (Hne : height <> 0) by lra.
  pose proof (Rinv_0_lt_compat height Hh) as Hinv.
  rewrite percentage_on_track by exact Hne.
  eexists. split; [reflexivity|].
  set (q := (clientY - top) / height * 100).
  assert (Hq : q = (clientY - top) * / height * 100) by reflexivity.
  pose proof (clamp_bounds q) as Hc.
  split; [|split; [|split; [|split]]].
  - assert (H0 : (floorZ (1 / 2) <= floorZ (100 - Rmax 0 (Rmin 100 q) + 1 / 2))%Z)
      by (apply floorZ_mono; lra).
    assert (H1 : (floorZ (100 - Rmax 0 (Rmin 100 q) + 1 / 2) <= floorZ (100 + 1 / 2))%Z)
      by (apply floorZ_mono; lra).
    rewrite floorZ_half in H0. rewrite floorZ_100_half in H1. lia.
  - intros Htop. assert (Hq0 : q <= 0) by (rewrite Hq; nra).
    rewrite Rmin_right by lra. rewrite Rmax_left by lra.
    apply floorZ_unique. lra.
  - intros Hbot. assert (Hq1 : 100 <= q).
    { assert (Hmul : height * / height = 1) by (apply Rinv_r; lra).
      rewrite Hq. nra. }
    rewrite Rmin_left by lra. rewrite Rmax_right by lra.
    apply floorZ_unique. lra.
  - intros [Hlo Hhi].
    assert (Hq0 : 0 <= q) by (rewrite Hq; nra).
    assert (Hq1 : q <= 100).
    { assert (Hmul : height * / height = 1) by (apply Rinv_r; lra).
      rewrite Hq. nra. }
    rewrite Rmin_right by lra. rewrite Rmax_right by lra.
    destruct (floorZ_spec (100 - q + 1 / 2)) as [Hf1 Hf2].
    apply Rabs_le. lra.
  - intros clientY' Hle.
    rewrite percentage_on_track by exact Hne.
    eexists. split; [reflexivity|].
    apply floorZ_mono.
    set (q' := (clientY' - top) / height * 100).
    assert (Hqq : q <= q').
    { unfold q, q', Rdiv. nra. }
    assert (Hmono : Rmax 0 (Rmin 100 q) <= Rmax 0 (Rmin 100 q')).
    { unfold Rmax, Rmin. repeat destruct (Rle_dec _ _); lra. }
    lra.
Qed.

Lemma slider_value_follows_the_pointer_witness :
  0 < 200
  /\ exists n : Z,
       SP1200.slider_value 150 100 200 = Num (IZR n) /\ (0 <= n <= 100)%Z.
Proof.
  split; [lra|].
  destruct (slider_value_follows_the_pointer 150 100 200 ltac:(lra))
    as (n & Hv & Hn & _).
  exists n. split; assumption.
Defined.

(** ** The ranges of the sliders *)

Lemma array_set_lookup (index : Z) (v : double) (a : list (option double)) (i : nat)
    (x : double) :
  Store.array_set index v a !! i = Some (Some x) -> x = v \/ a !! i = Some (Some x).
Proof.
  unfold Store.array_set.
  destruct (index <? 0)%Z; [auto|].
  destruct (index <? Z.of_nat (length a))%Z eqn:Hin.
  - destruct (decide (i = Z.to_nat index)) as [->|Hne].
    + intros Hl. apply list_lookup_insert_Some in Hl as [(_ & [= <-] & _) | (Hne & _)]; auto.
      now contradiction Hne.
    + rewrite list_lookup_insert_ne by congruence. auto.
  - intros Hl. apply lookup_app_Some in Hl as [Hl | (_ & Hl)]; [auto|].
    apply lookup_app_Some in Hl as [Hl | (_ & Hl)].
    + apply lookup_replicate in Hl as [[=] _].
    + apply list_lookup_singleton_Some in Hl as (_ & [= <-]). auto.
Qed.

Lemma array_set_lookup_same (index : Z) (v : double) (a : list (option double)) :
  (0 <= index < Z.of_nat (length a))%Z ->
  Store.array_set index v a !! Z.to_nat index = Some (Some v).
Proof.
  intros Hin. unfold Store.array_set.
  destruct (Z.ltb_spec index 0); [lia|].
  destruct (Z.ltb_spec index (Z.of_nat (length a))); [|lia].
  apply list_lookup_insert_eq. lia.
Qed.

Lemma array_set_lookup_other (index : Z) (v : double) (a : list (option double))
    (i : nat) :
  index <> Z.of_nat i -> (i < length a)%nat ->
  Store.array_set index v a !! i = a !! i.
Proof.
  intros Hne Hi. unfold Store.array_set.
  destruct (Z.ltb_spec index 0); [reflexivity|].
  destruct (Z.ltb_spec index (Z.of_nat (length a))).
  - apply list_lookup_insert_ne. lia.
  - now apply lookup_app_l.
Qed.

(** What [setSliderValue] leaves in the store, whether the engine's
    [setState] throws or not. *)
Lemma setSliderValue_store (index : Z) (v : double) (w : Store.World) :
  Store.sliderValues (Store.store (Store.setSliderValue index v w).1) =
  Store.array_set index v (Store.sliderValues (Store.store w))
  /\ Store.currentBank (Store.store (Store.setSliderValue index v w).1) =
     Store.currentBank (Store.store w)
  /\ Store.audioInitialized (Store.store (Store.setSliderValue index v w).1) =
     Store.audioInitialized (Store.store w)
  /\ Store.loadedSamples (Store.store (Store.setSliderValue index v w).1) =
     Store.loadedSamples (Store.store w)
  /\ (forall f : ParamName,
        Store.shown f (Store.store (Store.setSliderValue index v w).1) =
        if decide (index = Z.of_nat (SP1200.slider_of f))
        then SP1200.slider_map f v
        else Store.shown f (Store.store w)).
Proof.
  unfold Store.setSliderValue.
  destruct index as [|[[q|q|]|[q|q|]|]|q]; repeat (split; [reflexivity|]);
    intros f; destruct f; cbn [SP1200.slider_of];
    case_decide; try lia; reflexivity.
Qed.

Lemma setSliderValue_within (index : Z) (v : double) (w : Store.World) :
  SP1200.NaN_or SP1200.whole_percentage v ->
  SP1200.within_sliders (Store.store w) ->
  SP1200.within_sliders (Store.store (Store.setSliderValue index v w).1).
Proof.
  intros Hv [Hpar Hsl].
  destruct (setSliderValue_store index v w) as (Hs & _ & _ & _ & Hsh). split.
  - intros f. rewrite Hsh. case_decide; [now apply slider_map_within | apply Hpar].
  - intros i x. rewrite Hs. intros Hl.
    apply array_set_lookup in Hl as [-> | Hl]; [exact Hv | eauto].
Qed.

Lemma initAudio_store (host : Host) (w : Store.World) :
  Store.store (Store.initAudio host w).1 =
  match (init host (Store.audioEngine w)).2 with
  | None => Store.with_audioInitialized true (Store.store w)
  | Some _ => Store.store w
  end.
Proof.
  unfold Store.initAudio.
  now destruct (init host (Store.audioEngine w)) as [e [err|]].
Qed.

Lemma event_within (p p' : SP1200.Page) :
  SP1200.event p p' ->
  SP1200.within_sliders (Store.store (SP1200.world p)) ->
  SP1200.within_sliders (Store.store (SP1200.world p')).
Proof.
  intros [host p0|index p0|index p0|p0|index files p0|index cy top h p0|p0 e Hhost];
    try (intros H; exact H).
  - unfold SP1200.handleStartAudio.
    pose proof (initAudio_store host (SP1200.world p0)) as Hstore.
    destruct (Store.initAudio host (SP1200.world p0)) as [w [err|]];
      cbn [fst SP1200.world] in *; rewrite Hstore;
      now destruct (init host (Store.audioEngine (SP1200.world p0))).2.
  - unfold SP1200.handlePadClick.
    destruct (Store.audioInitialized (Store.store (SP1200.world p0))); auto.
  - unfold SP1200.handleDrop.
    destruct (negb (Store.audioInitialized (Store.store (SP1200.world p0)))); [auto|].
    destruct files as [|f files]; [auto|].
    destruct (String.prefix "audio/" (SP1200.type f)); [|auto].
    unfold Store.loadSample.
    destruct (loadSample (Store.audioEngine (SP1200.world p0)) index (SP1200.file f))
      as [e [err|]]; auto.
  - apply setSliderValue_within, slider_value_NaN_or.
Qed.

Lemma reachable_within (p : SP1200.Page) :
  SP1200.reachable p -> SP1200.within_sliders (Store.store (SP1200.world p)).
Proof.
  unfold SP1200.reachable. revert p.
  apply (rtc_ind_r
           (fun p : SP1200.Page => SP1200.within_sliders (Store.store (SP1200.world p)))
           SP1200.mount).
  - split.
    + intros []; right; eexists; (split; [reflexivity|]); cbn; lra.
    + intros i v Hl. cbn in Hl.
      do 8 (destruct i as [|i];
            [injection Hl as <-; right; eexists; split; [reflexivity|];
             eexists; split; [reflexivity|lia]|]).
      discriminate.
  - intros p p' _ Hev IH. now apply (event_within p p').
Qed.

Lemma event_steps (p p' : SP1200.Page) :
  SP1200.event p p' -> rtc Store.step (SP1200.world p) (SP1200.world p').
Proof.
  intros [host p0|index p0|index p0|p0|index files p0|index cy top h p0|p0 e Hhost];
    try apply rtc_refl.
  - unfold SP1200.handleStartAudio.
    pose proof (Store.step_initAudio host (SP1200.world p0)) as Hstep.
    destruct (Store.initAudio host (SP1200.world p0)) as [w [err|]]; now apply rtc_once.
  - unfold SP1200.handlePadClick.
    destruct (Store.audioInitialized (Store.store (SP1200.world p0))); [|apply rtc_refl].
    apply rtc_once, Store.step_triggerPad.
  - unfold SP1200.handleDrop.
    destruct (negb (Store.audioInitialized (Store.store (SP1200.world p0)))); [apply rtc_refl|].
    destruct files as [|f files]; [apply rtc_refl|].
    destruct (String.prefix "audio/" (SP1200.type f)); [|apply rtc_refl].
    pose proof (Store.step_loadSample index (SP1200.file f) (SP1200.world p0)) as Hstep.
    destruct (Store.loadSample index (SP1200.file f) (SP1200.world p0)) as [w [err|]];
      now apply rtc_once.
  - apply rtc_once, Store.step_setSliderValue.
  - now apply rtc_once, Store.step_host.
Qed.

Lemma reachable_world (p : SP1200.Page) :
  SP1200.reachable p -> Store.reachable (SP1200.world p).
Proof.
  unfold SP1200.reachable. revert p.
  apply (rtc_ind_r (fun p : SP1200.Page => Store.reachable (SP1200.world p)) SP1200.mount).
  - apply rtc_refl.
  - intros p p' _ Hev IH. unfold Store.reachable in *.
    etrans; [exact IH|]. now apply event_steps.
Qed.

Lemma slider_value_at_top (clientY top height : R) :
  0 < height -> clientY <= top -> SP1200.slider_value clientY top height = Num 100.
Proof.
  intros Hh Htop. unfold SP1200.slider_value.
  rewrite percentage_on_track by lra.
  pose proof (Rinv_0_lt_compat height Hh) as Hinv.
  assert (Hq0 : (clientY - top) / height * 100 <= 0) by (unfold Rdiv; nra).
  rewrite Rmin_right by lra. rewrite Rmax_left by lra.
  cbn. do 2 f_equal. apply floorZ_unique. lra.
Qed.

Lemma updateSlider_at_top (index : Z) (clientY top height : R) (p : SP1200.Page) :
  0 < height -> clientY <= top ->
  (SP1200.updateSlider index clientY top height p).1 =
  {| SP1200.panel := SP1200.panel p;
     SP1200.world := (Store.setSliderValue index (Val (Num 100)) (SP1200.world p)).1 |}.
Proof.
  intros Hh Htop. unfold SP1200.updateSlider.
  now rewrite (slider_value_at_top clientY top height Hh Htop).
Qed.

(** On a track of height 0 a pointer at the top of the track gives [NaN]. *)
Lemma slider_value_flat (top : R) : SP1200.slider_value top top 0 = NaN.
Proof.
  unfold SP1200.slider_value, SP1200.percentage. cbn zeta.
  destruct (Req_dec_T 0 0) as [_|Hne]; [|lra].
  destruct (Req_dec_T (top - top) 0) as [_|Hne]; [reflexivity|lra].
Qed.

(** X22.  Whatever the user does on the page, the store shows each parameter
    within the range of its slider (master volume and mix in 0..1, bit
    depth in 4..16, reduction in 1..16) or as [NaN], the engine holds the
    same, and every slider stands at a whole number of percent or at
    [NaN]; [NaN] is what a pointer at the top of a track of height 0
    gives. *)
Theorem sliders_keep_the_parameters_in_range (p : SP1200.Page) (f : ParamName) :
  SP1200.reachable p ->
  SP1200.NaN_or (SP1200.slider_range f) (Store.shown f (Store.store (SP1200.world p)))
  /\ SP1200.NaN_or (SP1200.slider_range f)
       (field f (getState (Store.audioEngine (SP1200.world p))))
  /\ (forall (i : nat) (v : double),
        Store.sliderValues (Store.store (SP1200.world p)) !! i = Some (Some v) ->
        SP1200.NaN_or SP1200.whole_percentage v)
  /\ (forall top : R,
        Store.shown f
          (Store.store
             (SP1200.world
                (SP1200.updateSlider (Z.of_nat (SP1200.slider_of f)) top top 0 p).1)) =
        Val NaN).
Proof.
  intros Hp. destruct (reachable_within p Hp) as [Hpar Hsl].
  destruct (reachable_mirrors _ (reachable_world p Hp)) as (Hm & _).
  rewrite field_getState, Hm. repeat (split; [auto|]).
  intros top. unfold SP1200.updateSlider. cbn [fst SP1200.world].
  destruct (setSliderValue_store (Z.of_nat (SP1200.slider_of f))
              (Val (SP1200.slider_value top top 0)) (SP1200.world p))
    as (_ & _ & _ & _ & Hsh).
  rewrite Hsh, decide_True by reflexivity.
  rewrite slider_value_flat. apply slider_map_NaN.
Qed.

Lemma sliders_keep_the_parameters_in_range_witness :
  SP1200.reachable
    (SP1200.updateSlider 1 100 100 0
       (SP1200.handleStartAudio (demo_host running) SP1200.mount)).1
  /\ SP1200.NaN_or (SP1200.slider_range BitDepth)
       (Store.shown BitDepth
          (Store.store
             (SP1200.world
                (SP1200.updateSlider 1 100 100 0
                   (SP1200.handleStartAudio (demo_host running) SP1200.mount)).1))).
Proof.
  refine (let Hp := rtc_l _ _ _ _ (SP1200.event_start (demo_host running) SP1200.mount)
                      (rtc_once _ _ (SP1200.event_slider 1 100 100 0 _)) in
          conj Hp (proj1 (sliders_keep_the_parameters_in_range _ BitDepth Hp))).
Defined.

(** The range of a slider lies within the range the descriptor of its
    parameter declares. *)
Lemma descriptor_range (f : ParamName) (d : Bitcrusher.ParameterDescriptor) (x : R) :
  d ∈ Bitcrusher.parameterDescriptors ->
  SP1200.parameter_name f = Some (Bitcrusher.name d) ->
  SP1200.slider_range f x ->
  Bitcrusher.minValue d <= x <= Bitcrusher.maxValue d.
Proof.
  intros Hd. unfold Bitcrusher.parameterDescriptors in Hd.
  apply elem_of_cons in Hd as [-> | Hd]; [|apply elem_of_cons in Hd as [-> | Hd];
    [|apply elem_of_cons in Hd as [-> | Hd]; [|now apply elem_of_nil in Hd]]];
    destruct f; cbn; try discriminate; intros _ Hx; lra.
Qed.

Lemma slider_range_fround (f : ParamName) (r : R) :
  SP1200.slider_range f r -> SP1200.slider_range f (fround r).
Proof.
  destruct f; cbn; intros Hr; apply fround_between; try exact Hr;
    first [apply (is_float32_IZR 0) | apply (is_float32_IZR 1)
          | apply (is_float32_IZR 4) | apply (is_float32_IZR 16)]; reflexivity.
Qed.

Lemma slider_range_small (f : ParamName) (r : R) :
  SP1200.slider_range f r -> -1000000 < r < 1000000.
Proof. destruct f; cbn; lra. Qed.

(** What the store shows for a parameter, when it is not [NaN], converts
    to a float within the range of the slider. *)
Lemma shown_float (f : ParamName) (v : double) :
  SP1200.NaN_or (SP1200.slider_range f) v -> v <> Val NaN ->
  exists x : R, SP1200.slider_range f x /\ to_float v = Some x.
Proof.
  intros [-> | (r & -> & Hr)] Hne; [congruence|].
  exists (fround r). split; [now apply slider_range_fround|].
  apply to_float_small. now apply (slider_range_small f).
Qed.

(** X23.  Whatever the user does on the page, a parameter of the bitcrusher
    node is scheduled to come to rest within the range its descriptor in
    the worklet declares, as long as the store shows no [NaN] for the
    parameter nor for a parameter that [applyState] takes before it
    (master volume, bit depth, reduction, mix, in this order): then the
    panel asks the processor for no bit depth, reduction or mix outside
    [minValue, maxValue]. *)
Theorem panel_respects_the_parameter_descriptors (p : SP1200.Page) (f : ParamName)
    (d : Bitcrusher.ParameterDescriptor) (node : AudioWorkletNode) (q : AudioParam) :
  SP1200.reachable p ->
  d ∈ Bitcrusher.parameterDescriptors ->
  SP1200.parameter_name f = Some (Bitcrusher.name d) ->
  bitcrusherNode (Store.audioEngine (SP1200.world p)) = Some node ->
  parameters node !! Bitcrusher.name d = Some q ->
  (forall f' : ParamName,
     (rank f' <= rank f)%nat ->
     Store.shown f' (Store.store (SP1200.world p)) <> Val NaN) ->
  exists v : R,
    ramp_target q = Some v /\ Bitcrusher.minValue d <= v <= Bitcrusher.maxValue d.
Proof.
  intros Hp Hd Hname Hnode Hq Hshown.
  destruct (reachable_within p Hp) as [Hpar _].
  pose proof (reachable_world p Hp) as Hw.
  destruct (reachable_mirrors _ Hw) as (Hm & _).
  destruct (reachable_invariant _ (reachable_engine _ Hw)) as [_ Hsync].
  assert (Hnp : node_param f (Store.audioEngine (SP1200.world p)) = Some q).
  { destruct f; cbn in Hname; try discriminate; injection Hname as Hname;
      unfold node_param; rewrite Hnode; cbn; now rewrite Hname. }
  assert (Hfloat : forall f' : ParamName,
             (rank f' <= rank f)%nat ->
             exists r : R,
               SP1200.slider_range f' r
               /\ to_float (Store.shown f' (Store.store (SP1200.world p))) = Some r).
  { intros f' Hle. exact (shown_float f' _ (Hpar f') (Hshown f' Hle)). }
  destruct (Hfloat f (le_n _)) as (r & Hr & Hto).
  exists r. split; [|now apply (descriptor_range f d)].
  rewrite (Hsync f q Hnp), Hm; [exact Hto|].
  intros f' Hle. rewrite Hm. destruct (Hfloat f' Hle) as (r' & _ & ->). eauto.
Qed.

Lemma panel_respects_the_parameter_descriptors_witness :
  exists (node : AudioWorkletNode) (q : AudioParam),
    bitcrusherNode
      (Store.audioEngine
         (SP1200.world (SP1200.handleStartAudio (demo_host running) SP1200.mount))) =
    Some node
    /\ parameters node !! "mix" = Some q
    /\ exists v : R, ramp_target q = Some v /\ 0 <= v <= 1.
Proof.
  destruct started_world as (Hw & Hstore & Hnone & Hpar & _).
  assert (Hpage : SP1200.world (SP1200.handleStartAudio (demo_host running) SP1200.mount) =
                  (Store.initAudio (demo_host running) Store.create).1).
  { unfold SP1200.handleStartAudio. cbn [SP1200.world SP1200.mount].
    now destruct (Store.initAudio (demo_host running) Store.create) as [w [err|]]. }
  destruct (Hpar Mix) as [q Hq]. unfold node_param in Hq.
  destruct (bitcrusherNode
              (Store.audioEngine (Store.initAudio (demo_host running) Store.create).1))
    as [node|] eqn:Hnode; [|discriminate].
  cbn [mbind option_bind] in Hq.
  exists node, q. rewrite Hpage. split; [exact Hnode|]. split; [exact Hq|].
  refine (panel_respects_the_parameter_descriptors
            (SP1200.handleStartAudio (demo_host running) SP1200.mount) Mix
            {| Bitcrusher.name := "mix"; Bitcrusher.defaultValue := 1;
               Bitcrusher.minValue := 0; Bitcrusher.maxValue := 1 |}
            node q
            (rtc_once _ _ (SP1200.event_start (demo_host running) SP1200.mount))
            _ eq_refl _ Hq _).
  - apply elem_of_cons; right. apply elem_of_cons; right. apply elem_of_cons; left.
    reflexivity.
  - now rewrite Hpage.
  - intros f' _. rewrite Hpage, Hstore. now destruct f'.
Defined.

(** ** The handlers *)

(** The page after a start on the demo host, and after a drop of a file
    of audio on one of its pads. *)
Lemma started_page :
  SP1200.world (SP1200.handleStartAudio (demo_host running) SP1200.mount) =
    (Store.initAudio (demo_host running) Store.create).1
  /\ SP1200.lcdText (SP1200.panel (SP1200.handleStartAudio (demo_host running) SP1200.mount)) =
     "AUDIO ACTIVE"
  /\ SP1200.reachable (SP1200.handleStartAudio (demo_host running) SP1200.mount).
Proof.
  destruct started_world as (_ & _ & Hnone & _).
  unfold SP1200.handleStartAudio at 1 2. cbn [SP1200.world SP1200.mount].
  destruct (Store.initAudio (demo_host running) Store.create) as [w [err|]];
    [discriminate|].
  split; [reflexivity|]. split; [reflexivity|]. apply rtc_once, SP1200.event_start.
Qed.

Lemma dropped_page (pad : Z) :
  Store.store
    (SP1200.world
       (SP1200.handleDrop pad
          [{| SP1200.type := "audio/wav"; SP1200.file := demo_file "kick.wav" [Byte.x00] |}]
          (SP1200.handleStartAudio (demo_host running) SP1200.mount))) =
  Store.with_loadedSamples (<[pad := "kick.wav"]> ∅)
    (Store.with_audioInitialized true Store.initialState)
  /\ SP1200.reachable
       (SP1200.handleDrop pad
          [{| SP1200.type := "audio/wav"; SP1200.file := demo_file "kick.wav" [Byte.x00] |}]
          (SP1200.handleStartAudio (demo_host running) SP1200.mount)).
Proof.
  destruct started_page as (Hpage & _ & Hp).
  destruct started_world as (_ & Hstore & _ & _ & Hc & _).
  split; [|eapply rtc_r; [exact Hp | apply SP1200.event_drop]].
  unfold SP1200.handleDrop. rewrite Hpage, Hstore.
  cbn [Store.audioInitialized Store.with_audioInitialized negb SP1200.type SP1200.file].
  change (String.prefix "audio/" "audio/wav") with true. cbn iota.
  unfold Store.loadSample.
  rewrite (loadSample_decoded _ (demo_context running) pad (demo_file "kick.wav" [Byte.x00])
             {| sampleRate := 44100; channelData := [[Num 0]] |} Hc eq_refl).
  cbn [SP1200.world Store.store]. now rewrite Hstore.
Qed.

Lemma world_eta (w : Store.World) :
  {| Store.store := Store.store w; Store.audioEngine := Store.audioEngine w |} = w.
Proof. now destruct w. Qed.

(** X24.  A click on a pad changes nothing in the store.  When audio is started
    and the store shows a file name for the pad, the click starts one
    source on the engine's context for the sample of that pad, after the
    sources that are there; when audio is not started or the store shows
    no file for the pad, the click changes nothing at all. *)
Theorem handlePadClick_plays_what_the_store_shows (index : Z) (p : SP1200.Page) :
  Store.reachable (SP1200.world p) ->
  Store.store (SP1200.world (SP1200.handlePadClick index p)) = Store.store (SP1200.world p)
  /\ (Store.audioInitialized (Store.store (SP1200.world p)) = true ->
      is_Some (Store.loadedSamples (Store.store (SP1200.world p)) !! index) ->
      exists (c : AudioContext) (buf : AudioBuffer),
        ctx (Store.audioEngine (SP1200.world p)) = Some c
        /\ samples (Store.audioEngine (SP1200.world p)) !! index = Some buf
        /\ sources <$> ctx (Store.audioEngine (SP1200.world (SP1200.handlePadClick index p))) =
           Some (sources c ++ [voice buf]))
  /\ (Store.audioInitialized (Store.store (SP1200.world p)) = false \/
      Store.loadedSamples (Store.store (SP1200.world p)) !! index = None ->
      SP1200.world (SP1200.handlePadClick index p) = SP1200.world p).
Proof.
  intros Hw. destruct (reachable_mirrors _ Hw) as (_ & _ & Hsam).
  destruct (reachable_started _ Hw) as [_ Hnodes].
  unfold SP1200.handlePadClick.
  destruct (Store.audioInitialized (Store.store (SP1200.world p))) eqn:Ha;
    cbn [SP1200.world].
  - split; [reflexivity|]. split.
    + intros _ Hname. apply Hsam in Hname as [buf Hbuf].
      destruct (Hnodes eq_refl) as (c & g & node & Hc & _ & Hn).
      exists c, buf. split; [exact Hc|]. split; [exact Hbuf|].
      unfold Store.triggerPad. cbn [Store.audioEngine].
      now rewrite (triggerPad_plays _ c node buf index Hc Hn Hbuf).
    + intros [Hf | Hnone]; [discriminate|].
      assert (Hs : samples (Store.audioEngine (SP1200.world p)) !! index = None).
      { apply eq_None_not_Some. intros Hsome. apply Hsam in Hsome.
        rewrite Hnone in Hsome. now destruct Hsome. }
      unfold Store.triggerPad, triggerPad. rewrite Hs.
      destruct (ctx _), (bitcrusherNode _); apply world_eta.
  - split; [reflexivity|]. split; [discriminate|]. reflexivity.
Qed.

Lemma handlePadClick_plays_what_the_store_shows_witness :
  exists (c : AudioContext) (buf : AudioBuffer),
    sources <$>
      ctx (Store.audioEngine
             (SP1200.world
                (SP1200.handlePadClick 0
                   (SP1200.handleDrop 0
                      [{| SP1200.type := "audio/wav";
                          SP1200.file := demo_file "kick.wav" [Byte.x00] |}]
                      (SP1200.handleStartAudio (demo_host running) SP1200.mount))))) =
    Some (sources c ++ [voice buf]).
Proof.
  destruct (dropped_page 0) as [Hstore Hp].
  destruct (handlePadClick_plays_what_the_store_shows 0 _ (reachable_world _ Hp))
    as (_ & Hplays & _).
  destruct Hplays as (c & buf & _ & _ & Hs).
  - now rewrite Hstore.
  - rewrite Hstore. cbn. rewrite lookup_insert_eq. eauto.
  - exists c, buf. exact Hs.
Defined.

Lemma with_audioInitialized_same (s : Store.SP1200State) :
  Store.audioInitialized s = true -> Store.with_audioInitialized true s = s.
Proof. destruct s; cbn; now intros ->. Qed.

Lemma applyState_keeps (f : ParamName) (this : Engine) :
  is_Some (node_param f (applyState this).1) <-> is_Some (node_param f this).
Proof.
  rewrite applyState_in_turn.
  destruct (ctx this), (bitcrusherNode this), (masterGain this); try reflexivity.
  apply in_turn_keeps.
Qed.

(** After a start that returned on an engine that was not initialized,
    [setState] with the values the engine holds already does not throw. *)
Lemma init_then_setState (host : Host) (this : Engine) (newState : PartialState) :
  isInitialized this = false -> (init host this).2 = None ->
  spread (state this) newState = state this ->
  (setState (init host this).1 newState).2.2 = None.
Proof.
  intros Hi Hnone Hsame.
  destruct (setState_engine (init host this).1 newState) as [_ ->].
  destruct (init_frame host this) as (Hst & _ & _). rewrite Hst, Hsame.
  destruct (applyState (with_state (state this) (init host this).1)).2 as [e|] eqn:He;
    [exfalso|reflexivity].
  destruct (applyState_thrown _ e He) as (_ & f & p & Hp & Hv).
  cbn [with_state state] in Hv. clear He.
  assert (Hp' : is_Some (node_param f (init host this).1))
    by (rewrite <- (node_param_ext f (init host this).1 (with_state (state this) _)), Hp
          by reflexivity; eauto).
  clear Hp. revert Hnone Hp'. unfold init. rewrite Hi.
  destruct (newAudioContext host) as [c|]; [|discriminate].
  destruct (addModule host) as [[]|]; [|discriminate].
  destruct (newAudioWorkletNode host) as [node|]; [|discriminate].
  cbn zeta. destruct (set_value _ _ _) as [p0|]; [|discriminate].
  set (this4 := with_masterGain _ _).
  pose proof (applyState_keeps f this4) as Hkeeps.
  destruct (applyState this4) as [this5 [e5|]] eqn:H5; [discriminate|].
  cbn [fst snd]. intros _ Hp5.
  assert (Hp4 : is_Some (node_param f this4)).
  { apply Hkeeps. cbn [fst].
    now rewrite <- (node_param_ext f this5 (with_isInitialized true this5)). }
  destruct Hp4 as [p4 Hp4].
  pose proof (applyState_throws f this4 c _ node p4 eq_refl eq_refl eq_refl Hp4 Hv) as Hthrown.
  rewrite H5 in Hthrown. discriminate.
Qed.

(** What [initAudio] leaves and throws, in a world where the store
    mirrors the engine. *)
Lemma initAudio_outcome (host : Host) (w : Store.World) :
  Store.mirrors w ->
  samples (Store.audioEngine (Store.initAudio host w).1) = samples (Store.audioEngine w)
  /\ state (Store.audioEngine (Store.initAudio host w).1) = state (Store.audioEngine w)
  /\ match (Store.initAudio host w).2 with
     | None =>
         (init host (Store.audioEngine w)).2 = None
         /\ Store.store (Store.initAudio host w).1 =
            Store.with_audioInitialized true (Store.store w)
     | Some e =>
         Store.store (Store.initAudio host w).1 = Store.store w
         /\ ((init host (Store.audioEngine w)).2 = Some e
             \/ (init host (Store.audioEngine w)).2 = None
                /\ isInitialized (Store.audioEngine w) = true)
     end
  /\ ((init host (Store.audioEngine w)).2 = None ->
      (forall f : ParamName, is_Some (to_float (Store.shown f (Store.store w)))) ->
      (Store.initAudio host w).2 = None).
Proof.
  intros (Hpar & Hini & _).
  set (ns := {| masterVolume_opt := Some (Store.masterVolume (Store.store w));
                bitDepth_opt := Some (Store.bitDepth (Store.store w));
                reduction_opt := Some (Store.reduction (Store.store w));
                mix_opt := Some (Store.mix (Store.store w)) |}).
  assert (Hsame : spread (state (Store.audioEngine w)) ns = state (Store.audioEngine w)).
  { pose proof (Hpar MasterVolume) as H1. pose proof (Hpar BitDepth) as H2.
    pose proof (Hpar Reduction) as H3. pose proof (Hpar Mix) as H4.
    cbn [field Store.shown] in H1, H2, H3, H4.
    unfold spread, ns. cbn [masterVolume_opt bitDepth_opt reduction_opt mix_opt default
                             from_option]. unfold Datatypes.id.
    rewrite <- H1, <- H2, <- H3, <- H4. now destruct (state (Store.audioEngine w)). }
  destruct (init_frame host (Store.audioEngine w)) as (Hst & Hs & _).
  pose proof (init_then_setState host (Store.audioEngine w) ns) as Hfresh.
  unfold Store.initAudio.
  destruct (init host (Store.audioEngine w)) as [e [err|]] eqn:Hinit; cbn [fst snd] in *.
  - cbn [Store.audioEngine Store.store]. repeat (split; [auto|]). discriminate.
  - unfold Store.on_engine, Store.engine_setState.
    cbn [fst snd Store.audioEngine Store.store Store.masterVolume Store.bitDepth
         Store.reduction Store.mix Store.with_audioInitialized].
    fold ns.
    destruct (setState_frame e ns) as (Hst' & _ & Hs' & _).
    split; [congruence|]. split; [rewrite Hst', Hst; exact Hsame|]. split.
    + destruct (setState e ns).2.2 as [err|] eqn:Herr; [|auto].
      destruct (isInitialized (Store.audioEngine w)) eqn:Hi.
      * split; [|auto]. apply with_audioInitialized_same. congruence.
      * specialize (Hfresh eq_refl eq_refl Hsame). discriminate.
    + intros _ Hfloats.
      rewrite (setState_returns e ns); [reflexivity|].
      intros f. rewrite Hst, Hsame, Hpar. apply Hfloats.
Qed.

Lemma handleStartAudio_outcome (host : WebAudio.Host) (p : SP1200.Page) :
  SP1200.world (SP1200.handleStartAudio host p) = (Store.initAudio host (SP1200.world p)).1
  /\ SP1200.lcdText (SP1200.panel (SP1200.handleStartAudio host p)) =
     match (Store.initAudio host (SP1200.world p)).2 with
     | None => "AUDIO ACTIVE"
     | Some _ => "AUDIO ERROR"
     end.
Proof.
  unfold SP1200.handleStartAudio.
  now destruct (Store.initAudio host (SP1200.world p)) as [w [err|]].
Qed.

(** X25.  The display tells the outcome of a start: it reads AUDIO ACTIVE
    or AUDIO ERROR, and the samples and the state of the engine are as
    they were.  When it reads AUDIO ACTIVE, the store says that audio is
    started and the engine is ready or suspended.  When it reads AUDIO
    ERROR, the store is as it was; the error is not thrown on.  It reads
    AUDIO ERROR when a step of starting audio fails on the host, and the
    engine is then not initialized, and when the host refuses to resume
    the suspended context of a page that is started.  It reads AUDIO
    ACTIVE when the store shows finite floats for the four parameters and
    either no step fails on the host of a page that is not started, or the
    page is started and its context runs or the host resumes it. *)
Theorem handleStartAudio_reports_the_outcome (host : Host) (p : SP1200.Page) :
  Store.reachable (SP1200.world p) ->
  (SP1200.lcdText (SP1200.panel (SP1200.handleStartAudio host p)) = "AUDIO ACTIVE"
   \/ SP1200.lcdText (SP1200.panel (SP1200.handleStartAudio host p)) = "AUDIO ERROR")
  /\ samples (Store.audioEngine (SP1200.world (SP1200.handleStartAudio host p))) =
     samples (Store.audioEngine (SP1200.world p))
  /\ getState (Store.audioEngine (SP1200.world (SP1200.handleStartAudio host p))) =
     getState (Store.audioEngine (SP1200.world p))
  /\ (SP1200.lcdText (SP1200.panel (SP1200.handleStartAudio host p)) = "AUDIO ACTIVE" ->
      Store.audioInitialized (Store.store (SP1200.world (SP1200.handleStartAudio host p))) =
        true
      /\ phase (Store.audioEngine (SP1200.world (SP1200.handleStartAudio host p))) <>
         Uninitialized)
  /\ (SP1200.lcdText (SP1200.panel (SP1200.handleStartAudio host p)) = "AUDIO ERROR" ->
      Store.store (SP1200.world (SP1200.handleStartAudio host p)) =
      Store.store (SP1200.world p))
  /\ (forall e : DOMException,
        Store.audioInitialized (Store.store (SP1200.world p)) = false ->
        failure host = Some e ->
        SP1200.lcdText (SP1200.panel (SP1200.handleStartAudio host p)) = "AUDIO ERROR"
        /\ phase (Store.audioEngine (SP1200.world (SP1200.handleStartAudio host p))) =
           Uninitialized)
  /\ (forall e : DOMException,
        Store.audioInitialized (Store.store (SP1200.world p)) = true ->
        phase (Store.audioEngine (SP1200.world p)) = Suspended ->
        resumes host = Rejected e ->
        SP1200.lcdText (SP1200.panel (SP1200.handleStartAudio host p)) = "AUDIO ERROR")
  /\ ((forall f : ParamName,
         is_Some (to_float (Store.shown f (Store.store (SP1200.world p))))) ->
      (Store.audioInitialized (Store.store (SP1200.world p)) = false /\ failure host = None)
      \/ (Store.audioInitialized (Store.store (SP1200.world p)) = true
          /\ (phase (Store.audioEngine (SP1200.world p)) = Ready
              \/ exists u : unit, resumes host = Fulfilled u)) ->
      SP1200.lcdText (SP1200.panel (SP1200.handleStartAudio host p)) = "AUDIO ACTIVE").
Proof.
  intros Hw.
  pose proof (reachable_mirrors _ Hw) as Hmirrors.
  destruct (reachable_started _ Hw) as [Hini Hnodes].
  assert (Hw' : Store.reachable (Store.initAudio host (SP1200.world p)).1).
  { unfold Store.reachable. eapply rtc_r; [exact Hw|]. apply Store.step_initAudio. }
  destruct (reachable_started _ Hw') as [Hini' Hnodes'].
  destruct (handleStartAudio_outcome host p) as [-> ->].
  destruct (initAudio_outcome host (SP1200.world p) Hmirrors) as (Hs & Hst & Hout & Hact).
  split; [destruct (Store.initAudio host (SP1200.world p)).2; auto|].
  split; [exact Hs|]. split; [now rewrite !getState_state|].
  split; [|split; [|split; [|split]]].
  - destruct (Store.initAudio host (SP1200.world p)).2; [discriminate|]. intros _.
    destruct Hout as [_ Hstore].
    assert (Ha : Store.audioInitialized
                   (Store.store (Store.initAudio host (SP1200.world p)).1) = true)
      by now rewrite Hstore.
    split; [exact Ha|].
    destruct (Hnodes' Ha) as (c & _ & _ & Hc & _).
    unfold phase. rewrite <- Hini', Ha, Hc. now destruct (WebAudio.state c).
  - destruct (Store.initAudio host (SP1200.world p)).2; [|discriminate]. intros _.
    apply Hout.
  - intros e Ha Hf. rewrite Hini in Ha.
    destruct (init_failure host _ e Ha Hf) as (Herr & Hi & _).
    destruct (Store.initAudio host (SP1200.world p)).2 as [err|].
    + split; [reflexivity|]. unfold phase. destruct Hout as [Hstore _].
      now rewrite <- Hini', Hstore, Hini, Ha.
    + destruct Hout as [Hnone _]. congruence.
  - intros e Ha Hphase Hrej. rewrite Hini in Ha.
    assert (Herr : (init host (Store.audioEngine (SP1200.world p))).2 = Some (HostError e)).
    { unfold init. rewrite Ha. unfold resume. unfold phase in Hphase. rewrite Ha in Hphase.
      destruct (ctx (Store.audioEngine (SP1200.world p))) as [c|]; [|discriminate].
      destruct (WebAudio.state c); [|discriminate]. now rewrite Hrej. }
    destruct (Store.initAudio host (SP1200.world p)).2 as [err|]; [reflexivity|].
    destruct Hout as [Hnone _]. congruence.
  - intros Hfloats Hcase.
    rewrite Hact; [reflexivity | | exact Hfloats].
    destruct Hcase as [[Ha Hf] | [Ha Hrun]]; rewrite Hini in Ha.
    + unfold failure in Hf.
      destruct (newAudioContext host) as [c|] eqn:Hc; [|discriminate].
      destruct (addModule host) as [[]|] eqn:Hm; [|discriminate].
      destruct (newAudioWorkletNode host) as [node|] eqn:Hn; [|discriminate].
      destruct (init_success host _ c node Ha Hc Hm Hn) as (x & _ & -> & _); [|reflexivity].
      intros f. destruct Hmirrors as (Hpar & _). rewrite Hpar. apply Hfloats.
    + unfold init. rewrite Ha. unfold resume. unfold phase in Hrun. rewrite Ha in Hrun.
      destruct (ctx (Store.audioEngine (SP1200.world p))) as [c|]; [|reflexivity].
      destruct (WebAudio.state c); [|reflexivity].
      destruct Hrun as [Hrun | [u ->]]; [discriminate|reflexivity].
Qed.

Lemma handleStartAudio_reports_the_outcome_witness :
  SP1200.lcdText (SP1200.panel (SP1200.handleStartAudio deaf_host SP1200.mount)) =
    "AUDIO ERROR"
  /\ SP1200.lcdText (SP1200.panel (SP1200.handleStartAudio (demo_host running) SP1200.mount)) =
     "AUDIO ACTIVE".
Proof.
  split.
  - exact (proj1 (proj1 (proj2 (proj2 (proj2 (proj2 (proj2
             (handleStartAudio_reports_the_outcome deaf_host SP1200.mount
                (rtc_refl _ _)))))))
             "NotSupportedError" eq_refl eq_refl)).
  - refine (proj2 (proj2 (proj2 (proj2 (proj2 (proj2 (proj2
             (handleStartAudio_reports_the_outcome (demo_host running) SP1200.mount
                (rtc_refl _ _)))))))) _ (or_introl (conj eq_refl eq_refl))).
    intros f. destruct f; cbn -[to_float]; rewrite to_float_small by lra; eauto.
Defined.

(** X26.  A drop ends the drag.  On a page where audio is started, a first file
    of an audio type is decoded by the engine's context: when the decoder
    accepts it, the pad is bound to the decoded buffer in the engine and to
    the name of the file in the store, the other pads keep what they had,
    and the display shows the pad and the name; when the decoder rejects
    it, nothing changes and the display reads LOAD ERROR.  Before audio
    is started, for a first file of another type, and for a drop without
    files, nothing is loaded and the world is as it was. *)
Theorem handleDrop_loads_audio_files_only (index : Z) (files : list SP1200.DroppedFile)
    (p : SP1200.Page) :
  Store.reachable (SP1200.world p) ->
  SP1200.dragOverPad (SP1200.panel (SP1200.handleDrop index files p)) = None
  /\ (forall (f : SP1200.DroppedFile) (rest : list SP1200.DroppedFile),
        files = f :: rest ->
        Store.audioInitialized (Store.store (SP1200.world p)) = true ->
        String.prefix "audio/" (SP1200.type f) = true ->
        exists c : AudioContext,
          ctx (Store.audioEngine (SP1200.world p)) = Some c
          /\ match decodeAudioData c (arrayBuffer (SP1200.file f)) with
             | Some buf =>
                 samples (Store.audioEngine (SP1200.world (SP1200.handleDrop index files p))) =
                 <[index := buf]> (samples (Store.audioEngine (SP1200.world p)))
                 /\ Store.loadedSamples
                      (Store.store (SP1200.world (SP1200.handleDrop index files p))) =
                    <[index := name (SP1200.file f)]>
                      (Store.loadedSamples (Store.store (SP1200.world p)))
                 /\ SP1200.lcdText (SP1200.panel (SP1200.handleDrop index files p)) =
                    "PAD " +:+ pretty (index + 1)%Z +:+ ": " +:+
                    String.substring 0 10 (name (SP1200.file f))
             | None =>
                 SP1200.world (SP1200.handleDrop index files p) = SP1200.world p
                 /\ SP1200.lcdText (SP1200.panel (SP1200.handleDrop index files p)) =
                    "LOAD ERROR"
             end)
  /\ (Store.audioInitialized (Store.store (SP1200.world p)) = false ->
      SP1200.world (SP1200.handleDrop index files p) = SP1200.world p
      /\ SP1200.lcdText (SP1200.panel (SP1200.handleDrop index files p)) =
         "START AUDIO FIRST")
  /\ (forall (f : SP1200.DroppedFile) (rest : list SP1200.DroppedFile),
        files = f :: rest ->
        Store.audioInitialized (Store.store (SP1200.world p)) = true ->
        String.prefix "audio/" (SP1200.type f) = false ->
        SP1200.world (SP1200.handleDrop index files p) = SP1200.world p
        /\ SP1200.lcdText (SP1200.panel (SP1200.handleDrop index files p)) =
           "AUDIO FILES ONLY")
  /\ (files = [] ->
      Store.audioInitialized (Store.store (SP1200.world p)) = true ->
      SP1200.world (SP1200.handleDrop index files p) = SP1200.world p
      /\ SP1200.lcdText (SP1200.panel (SP1200.handleDrop index files p)) =
         SP1200.lcdText (SP1200.panel p)).
Proof.
  intros Hw. destruct (reachable_started _ Hw) as [_ Hnodes].
  unfold SP1200.handleDrop.
  destruct (Store.audioInitialized (Store.store (SP1200.world p))) eqn:Ha; cbn [negb].
  - destruct (Hnodes eq_refl) as (c & _ & _ & Hc & _).
    split; [|split; [|split; [discriminate|split]]].
    + destruct files as [|f rest]; [reflexivity|].
      destruct (String.prefix "audio/" (SP1200.type f)); [|reflexivity].
      now destruct (Store.loadSample index (SP1200.file f) (SP1200.world p)) as [w [err|]].
    + intros f rest -> _ Hpre. rewrite Hpre. exists c. split; [exact Hc|].
      unfold Store.loadSample, loadSample. rewrite Hc.
      destruct (decodeAudioData c (arrayBuffer (SP1200.file f))) as [buf|].
      * cbn. auto.
      * cbn. split; [apply world_eta|reflexivity].
    + intros f rest -> _ Hpre. rewrite Hpre. auto.
    + intros -> _. auto.
  - split; [reflexivity|]. split; [discriminate|]. split; [auto|].
    split; discriminate.
Qed.

Lemma handleDrop_loads_audio_files_only_witness :
  SP1200.lcdText
    (SP1200.panel
       (SP1200.handleDrop 4
          [{| SP1200.type := "audio/wav"; SP1200.file := demo_file "kick.wav" [Byte.x00] |}]
          (SP1200.handleStartAudio (demo_host running) SP1200.mount))) =
  "PAD 5: kick.wav".
Proof.
  destruct started_page as (Hpage & _ & Hp).
  destruct started_world as (_ & Hstore & _ & _ & Hc & _).
  destruct (proj1 (proj2 (handleDrop_loads_audio_files_only 4
                            [{| SP1200.type := "audio/wav";
                                SP1200.file := demo_file "kick.wav" [Byte.x00] |}]
                            _ (reachable_world _ Hp))) _ [] eq_refl)
    as (c & Hc' & Hm).
  - now rewrite Hpage, Hstore.
  - reflexivity.
  - rewrite Hpage, Hc in Hc'. injection Hc' as <-.
    exact (proj2 (proj2 Hm)).
Defined.

(** ** Sliders and parameters *)

Lemma setSliderValue_follows (index : Z) (v : double) (w : Store.World) (f : ParamName) :
  SP1200.follows_slider f (Store.store w) ->
  SP1200.follows_slider f (Store.store (Store.setSliderValue index v w).1).
Proof.
  intros Hf.
  assert (Hlen : (SP1200.slider_of f < length (Store.sliderValues (Store.store w)))%nat).
  { apply lookup_lt_is_Some. destruct Hf as [[-> _] | (x & -> & _)]; [|eauto].
    destruct f; cbn; eauto. }
  destruct (setSliderValue_store index v w) as (Hsl & _ & _ & _ & Hsh).
  unfold SP1200.follows_slider. rewrite Hsl, Hsh.
  case_decide as Hidx.
  - right. exists v. split; [|reflexivity].
    rewrite <- (Nat2Z.id (SP1200.slider_of f)), <- Hidx.
    apply array_set_lookup_same. lia.
  - rewrite array_set_lookup_other by assumption. exact Hf.
Qed.

Lemma event_store (p p' : SP1200.Page) :
  SP1200.event p p' ->
  (exists (index : Z) (v : double),
     Store.store (SP1200.world p') =
     Store.store (Store.setSliderValue index v (SP1200.world p)).1)
  \/ Store.store (SP1200.world p') = Store.store (SP1200.world p)
  \/ Store.store (SP1200.world p') =
     Store.with_audioInitialized true (Store.store (SP1200.world p))
  \/ (Store.audioInitialized (Store.store (SP1200.world p)) = true
      /\ exists (pad : Z) (name : string),
           Store.store (SP1200.world p') =
           Store.with_loadedSamples
             (<[pad := name]> (Store.loadedSamples (Store.store (SP1200.world p))))
             (Store.store (SP1200.world p))).
Proof.
  intros [host p0|index p0|index p0|p0|index files p0|index cy top h p0|p0 e Hhost];
    try (right; left; reflexivity).
  - destruct (handleStartAudio_outcome host p0) as [-> _]. rewrite initAudio_store.
    destruct (init host (Store.audioEngine (SP1200.world p0))).2; auto.
  - unfold SP1200.handlePadClick.
    destruct (Store.audioInitialized (Store.store (SP1200.world p0))); auto.
  - unfold SP1200.handleDrop.
    destruct (Store.audioInitialized (Store.store (SP1200.world p0))) eqn:Ha; [|auto].
    destruct files as [|f files]; [auto|].
    destruct (String.prefix "audio/" (SP1200.type f)); [|auto].
    unfold Store.loadSample.
    destruct (loadSample (Store.audioEngine (SP1200.world p0)) index (SP1200.file f))
      as [e [err|]]; [auto|].
    right; right; right. split; [reflexivity|]. eauto.
  - left. unfold SP1200.updateSlider. cbn [fst SP1200.world]. eauto.
Qed.

(** A slider that was never moved need not stand for its parameter: the
    store creates the first slider at 45 and the master volume at 0.8. *)
Remark untouched_slider_beside_its_parameter :
  Store.sliderValues Store.initialState !! SP1200.slider_of MasterVolume =
    Some (Some (Val (Num 45)))
  /\ Store.shown MasterVolume Store.initialState <>
     SP1200.slider_map MasterVolume (Val (Num 45)).
Proof.
  split; [reflexivity|]. rewrite slider_map_Num. cbn. intros [= H]. lra.
Qed.

(** X27.  On the page, each of the four parameters is either as the store
    creates it, with its slider where the store creates it, or it is what
    the position of its slider stands for (a hundredth of the position for
    master volume and mix, 4 plus 12 hundredths of it for the bit depth, 1
    plus 15 hundredths of it for the reduction). *)
Theorem parameter_follows_its_slider_once_moved (p : SP1200.Page) (f : ParamName) :
  SP1200.reachable p ->
  (Store.sliderValues (Store.store (SP1200.world p)) !! SP1200.slider_of f =
   Store.sliderValues Store.initialState !! SP1200.slider_of f
   /\ Store.shown f (Store.store (SP1200.world p)) = Store.shown f Store.initialState)
  \/ (exists v : double,
        Store.sliderValues (Store.store (SP1200.world p)) !! SP1200.slider_of f = Some (Some v)
        /\ Store.shown f (Store.store (SP1200.world p)) = SP1200.slider_map f v).
Proof.
  intros Hp. change (SP1200.follows_slider f (Store.store (SP1200.world p))).
  revert p Hp. unfold SP1200.reachable.
  apply (rtc_ind_r
           (fun p : SP1200.Page => SP1200.follows_slider f (Store.store (SP1200.world p)))
           SP1200.mount).
  - left. split; reflexivity.
  - intros p p' _ Hev IH.
    destruct (event_store p p' Hev)
      as [(index & v & ->) | [-> | [-> | (_ & pad & name & ->)]]];
      [now apply setSliderValue_follows | exact IH | |];
      (destruct IH as [[Hsl Hsh] | (v & Hsl & Hsh)];
       [left; split; [exact Hsl | destruct f; exact Hsh]
       |right; exists v; split; [exact Hsl | destruct f; exact Hsh]]).
Qed.

Lemma parameter_follows_its_slider_once_moved_witness :
  SP1200.reachable
    (SP1200.updateSlider 1 100 100 200
       (SP1200.handleStartAudio (demo_host running) SP1200.mount)).1
  /\ exists v : double,
       Store.sliderValues
         (Store.store
            (SP1200.world
               (SP1200.updateSlider 1 100 100 200
                  (SP1200.handleStartAudio (demo_host running) SP1200.mount)).1))
         !! SP1200.slider_of BitDepth = Some (Some v)
       /\ Store.shown BitDepth
            (Store.store
               (SP1200.world
                  (SP1200.updateSlider 1 100 100 200
                     (SP1200.handleStartAudio (demo_host running) SP1200.mount)).1)) =
          SP1200.slider_map BitDepth v.
Proof.
  refine (let Hp := rtc_l _ _ _ _ (SP1200.event_start (demo_host running) SP1200.mount)
                      (rtc_once _ _ (SP1200.event_slider 1 100 100 200 _)) in
          conj Hp _).
  destruct (parameter_follows_its_slider_once_moved _ BitDepth Hp) as [(Hsl & _) | Hmoved];
    [|exact Hmoved].
  exfalso. revert Hsl.
  rewrite (updateSlider_at_top 1 100 100 200 _ ltac:(lra) ltac:(lra)).
  cbn [SP1200.world].
  destruct (setSliderValue_store 1 (Val (Num 100))
              (SP1200.world (SP1200.handleStartAudio (demo_host running) SP1200.mount)))
    as (-> & _).
  destruct started_page as (-> & _). destruct started_world as (_ & -> & _).
  cbn. intros [= H]. lra.
Defined.

(** X28.  On the page the bank of the store stays A: no handler calls
    [cycleBank].  And as long as audio is not started, no pad has a sample,
    in the store or in the engine: a file is loaded only after a start
    that succeeded. *)
Theorem page_guards_the_store (p : SP1200.Page) :
  SP1200.reachable p ->
  Store.currentBank (Store.store (SP1200.world p)) = Store.A
  /\ (Store.audioInitialized (Store.store (SP1200.world p)) = false ->
      Store.loadedSamples (Store.store (SP1200.world p)) = ∅
      /\ forall pad : Z, hasSample (Store.audioEngine (SP1200.world p)) pad = false).
Proof.
  intros Hp.
  assert (Hinv : Store.currentBank (Store.store (SP1200.world p)) = Store.A
                 /\ (Store.audioInitialized (Store.store (SP1200.world p)) = false ->
                     Store.loadedSamples (Store.store (SP1200.world p)) = ∅)).
  { revert p Hp. unfold SP1200.reachable.
    apply (rtc_ind_r
             (fun p : SP1200.Page =>
                Store.currentBank (Store.store (SP1200.world p)) = Store.A
                /\ (Store.audioInitialized (Store.store (SP1200.world p)) = false ->
                    Store.loadedSamples (Store.store (SP1200.world p)) = ∅))
             SP1200.mount).
    - split; reflexivity.
    - intros p p' _ Hev [Hbank Hload].
      destruct (event_store p p' Hev)
        as [(index & v & ->) | [-> | [-> | (Ha & pad & name & ->)]]].
      + destruct (setSliderValue_store index v (SP1200.world p)) as (_ & -> & -> & -> & _).
        auto.
      + auto.
      + split; [exact Hbank | discriminate].
      + split; [exact Hbank|]. cbn. rewrite Ha. discriminate. }
  destruct Hinv as [Hbank Hload]. split; [exact Hbank|].
  intros Ha. split; [now apply Hload|].
  intros pad. destruct (reachable_mirrors _ (reachable_world p Hp)) as (_ & _ & Hsam).
  unfold hasSample. apply bool_decide_eq_false. intros Hsome.
  apply Hsam in Hsome. rewrite (Hload Ha), lookup_empty in Hsome. now destruct Hsome.
Qed.

Lemma page_guards_the_store_witness :
  SP1200.reachable
    (SP1200.handleDrop 0
       [{| SP1200.type := "audio/wav"; SP1200.file := demo_file "kick.wav" [Byte.x00] |}]
       (SP1200.handleStartAudio moduleless_host SP1200.mount))
  /\ Store.currentBank
       (Store.store
          (SP1200.world
             (SP1200.handleDrop 0
                [{| SP1200.type := "audio/wav";
                    SP1200.file := demo_file "kick.wav" [Byte.x00] |}]
                (SP1200.handleStartAudio moduleless_host SP1200.mount)))) = Store.A.
Proof.
  refine (let Hp := rtc_l _ _ _ _ (SP1200.event_start moduleless_host SP1200.mount)
                      (rtc_once _ _ (SP1200.event_drop 0 _ _)) in
          conj Hp (proj1 (page_guards_the_store _ Hp))).
Defined.


(** ** The LEDs *)

Lemma map_clear (leds : list bool) :
  map (fun _ : bool => false) leds = replicate (length leds) false.
Proof. induction leds as [|led leds IH]; [reflexivity|]. cbn. now rewrite IH. Qed.

Lemma length_lit (n k : nat) : length (SP1200.lit n k) = n.
Proof. unfold SP1200.lit. now rewrite length_insert, length_replicate. Qed.

Lemma findIndex_lit (n k : nat) :
  (k < n)%nat -> SP1200.findIndex (fun led : bool => led) (SP1200.lit n k) = Z.of_nat k.
Proof.
  intros Hk. unfold SP1200.findIndex, SP1200.lit.
  assert (Hfind : list_find (fun x : bool => x = true) (<[k := true]> (replicate n false)) =
                  Some (k, true)).
  { apply list_find_Some. split; [|split; [reflexivity|]].
    - apply list_lookup_insert_eq. now rewrite length_replicate.
    - intros j y Hj Hlt. rewrite list_lookup_insert_ne in Hj by lia.
      apply lookup_replicate in Hj as [-> _]. discriminate. }
  now rewrite Hfind.
Qed.

Lemma next_index (k n : nat) :
  (0 < n)%nat ->
  Z.to_nat ((Z.of_nat k + 1) mod Z.of_nat n) = (S k mod n)%nat.
Proof.
  intros Hn. replace (Z.of_nat k + 1)%Z with (Z.of_nat (S k)) by lia.
  rewrite <- Nat2Z.inj_mod. apply Nat2Z.id.
Qed.

(** X30.  The LEDs of a group light in turn.  After a click on the performance
    button exactly one LED of a group that has LEDs is lit; when the LED
    at [k] is the one lit, the click lights the next one instead, and the
    first one after the last; on a group without LEDs the handler throws
    a TypeError.  The programming button does the same on its two LEDs
    and nothing on a group of another size, and the bank button does the
    same on the rows of the bank column when every row has its LED. *)
Theorem leds_light_in_turn (n k : nat) :
  (forall leds : list bool,
     leds <> [] ->
     exists j : nat,
       (j < length leds)%nat
       /\ SP1200.handlePerfBtnClick (Some leds) =
          Normal (Some (SP1200.lit (length leds) j)))
  /\ SP1200.handlePerfBtnClick (Some []) = TypeError
  /\ ((k < n)%nat ->
      SP1200.handlePerfBtnClick (Some (SP1200.lit n k)) =
      Normal (Some (SP1200.lit n (S k mod n)))
      /\ SP1200.handleBankBtnClick (Some (Some <$> SP1200.lit n k)) =
         Some (Some <$> SP1200.lit n (S k mod n))
      /\ SP1200.handleProgBtnClick (Some (SP1200.lit n k)) =
         Some (if decide (n = 2%nat) then SP1200.lit n (S k mod n) else SP1200.lit n k)).
Proof.
  split; [|split; [reflexivity|]].
  - intros leds Hne. unfold SP1200.handlePerfBtnClick. cbn zeta.
    destruct leds as [|led leds]; [contradiction|].
    set (l := led :: leds). set (next := (_ mod _)%Z).
    assert (Hnext : (0 <= next < Z.of_nat (length l))%Z).
    { apply Z.mod_pos_bound. subst l. cbn [length]. lia. }
    exists (Z.to_nat next). split; [lia|].
    unfold SP1200.lit. now rewrite map_clear.
  - intros Hk.
    assert (Hn : (0 < n)%nat) by lia.
    assert (Hcur : (if (Z.of_nat k =? -1)%Z then 0%Z else Z.of_nat k) = Z.of_nat k).
    { destruct (Z.eqb_spec (Z.of_nat k) (-1)); [lia|reflexivity]. }
    split; [|split].
    + unfold SP1200.handlePerfBtnClick. cbn zeta.
      rewrite (findIndex_lit n k Hk), Hcur, map_clear, length_lit, (next_index k n Hn).
      destruct (SP1200.lit n k) as [|led leds] eqn:Hl; [|reflexivity].
      apply (f_equal length) in Hl. rewrite length_lit in Hl. cbn in Hl. lia.
    + unfold SP1200.handleBankBtnClick. cbn zeta.
      assert (Hfind : SP1200.findIndex
                        (fun led : option bool =>
                           match led with
                           | Some active => active
                           | None => false
                           end) (Some <$> SP1200.lit n k) = Z.of_nat k).
      { rewrite <- (findIndex_lit n k Hk). unfold SP1200.findIndex.
        rewrite list_find_fmap. unfold compose.
        now destruct (list_find (fun x : bool => x = true) (SP1200.lit n k)) as [[i x]|]. }
      rewrite Hfind, Hcur, length_fmap, length_lit, (next_index k n Hn).
      assert (Hclear : map (fun led : option bool =>
                              match led with
                              | Some _ => Some false
                              | None => None
                              end) (Some <$> SP1200.lit n k) =
                       Some <$> replicate n false).
      { rewrite <- (length_lit n k) at 2.
        generalize (SP1200.lit n k). intros leds.
        induction leds as [|led leds IH]; [reflexivity|]. cbn. f_equal. exact IH. }
      rewrite Hclear.
      assert (Hlt : (S k mod n < n)%nat) by (apply Nat.mod_upper_bound; lia).
      rewrite list_lookup_fmap, lookup_replicate_2 by exact Hlt. cbn [fmap option_fmap option_map].
      destruct (Some <$> SP1200.lit n k) as [|led leds] eqn:Hl.
      * apply (f_equal length) in Hl. rewrite length_fmap, length_lit in Hl. cbn in Hl. lia.
      * unfold SP1200.lit. now rewrite list_fmap_insert.
    + unfold SP1200.handleProgBtnClick. rewrite length_lit.
      case_decide as Hn2.
      * subst n. cbn [Nat.eqb negb]. cbn zeta.
        rewrite (findIndex_lit 2 k Hk), Hcur, map_clear, length_lit, (next_index k 2 Hn).
        reflexivity.
      * destruct (Nat.eqb_spec n 2); [contradiction|reflexivity].
Qed.

End PanelFacts.
